(** * dash-core: the backoff calculator, the bounded retry executor and
      the adaptive poller

    A shallow embedding of [TimeSpan], [ExponentialBackoff] and
    [AdaptivePoller], and the properties of the retry and polling loops.

    Conventions of the embedding.
    - A JavaScript [number] is a rational [Q]: products, sums and
      comparisons are exact, rounding and the special values of IEEE
      doubles are out of scope.  Equality of numbers is [Qeq] ([==]).
      Where a property depends on the value of a sum, a product or a
      quotient and not only on the order of two numbers, the rounding
      of the operation is a parameter [round] of the definition.
    - A [throw] is the [Throw] case of [result].
    - An asynchronous function is cut at its [await]s: each piece runs to
      completion, as a turn of the event loop does, and returns the new
      object state together with the effects it performed, in order.
    - The outside world (what the operation does, what [Math.random] and
      [Date.now] return) is an argument of the piece that consults it.
    - The operation is an [async] function: it settles in a later turn.
      Callbacks and loggers return normally; a function object is known by
      its identity.
    - The rejection of a promise that nobody holds is the effect
      [UnhandledRejection]. *)

From Stdlib Require Import QArith Qminmax Qround Lqa Lia ZArith Znat Wf_nat.
From Stdlib Require Import List String Bool Arith.
Import ListNotations.
Local Open Scope Q_scope.

(** ** Exceptions *)

Inductive result (A : Type) : Type :=
| Ok (a : A)
| Throw (message : string).
Arguments Ok {A} a.
Arguments Throw {A} message.

(** ** Rounding

    What the properties use of the rounding of doubles: it is monotone,
    and it leaves a double as it is.  Overflow is out of scope. *)

Definition monotone (round : Q -> Q) : Prop :=
  forall x y, x <= y -> round x <= round y.

(** [x] is a double. *)
Definition representable (round : Q -> Q) (x : Q) : Prop := round x == x.

(** Rounding down to a whole number: a rounding that loses digits, for
    the examples. *)
Definition roundDown (x : Q) : Q := inject_Z (Qfloor x).

(** ** class [TimeSpan] *)

Module TimeSpan.

(** [private readonly ms: number], together with what the constructor
    enforces: [if (milliseconds < 0) throw ...]. *)
Record t : Type := mk { ms : Q; ms_nonneg : 0 <= ms }.

(** [constructor(milliseconds: number = 0)] *)
Definition new (milliseconds : Q) : result t :=
  match Qlt_le_dec milliseconds 0 with
  | left _ => Throw "Milliseconds cannot be negative"
  | right H => Ok (mk milliseconds H)
  end.

Definition zero : result t := new 0.
Definition fromMinutes (minutes : Q) : result t := new (minutes * 60 * 1000).
Definition fromSeconds (seconds : Q) : result t := new (seconds * 1000).
Definition fromMilliseconds (milliseconds : Q) : result t := new milliseconds.

Definition totalMilliseconds (x : t) : Q := ms x.

(** [valueOf()]: what [<=] sees when it compares two instances. *)
Definition valueOf (x : t) : Q := ms x.

(** [a <= b] on two instances. *)
Definition leb (a b : t) : bool := Qle_bool (valueOf a) (valueOf b).

(** A literal: a number whose sign is checked by computation. *)
Definition lit (q : Q) (H : Qle_bool 0 q = true) : t :=
  mk q (proj1 (Qle_bool_iff 0 q) H).

(** [add(other)] and [subtract(other)] go through the constructor.  The
    sum is the exact sum rounded. *)
Definition add (round : Q -> Q) (x other : t) : result t :=
  new (round (ms x + ms other)).
Definition subtract (x other : t) : result t := new (ms x - ms other).

(** [equals(other)]: [this.ms === other.ms] *)
Definition equals (x other : t) : bool := Qeq_bool (ms x) (ms other).

End TimeSpan.

Abbreviation TimeSpan := TimeSpan.t.

(** ** class [ExponentialBackoff] *)

Module ExponentialBackoff.

Record ExponentialBackoffOptions : Type := {
  initialDelay : TimeSpan;
  maxDelay : TimeSpan;
  factor : Q;
  jitter : option TimeSpan
}.

(** [getUpdatedDelay(currentDelay)]; [random] is the value [Math.random()]
    returns, consulted only when a jitter is configured (an object is
    always truthy, whatever its length). *)
Definition getUpdatedDelay (options : ExponentialBackoffOptions)
    (random : Q) (currentDelay : TimeSpan) : result TimeSpan :=
  let jitter :=
    match jitter options with
    | Some j => random * TimeSpan.totalMilliseconds j
    | None => 0
    end in
  let newDelay :=
    (TimeSpan.totalMilliseconds currentDelay * factor options) + jitter in
  TimeSpan.fromMilliseconds newDelay.

Section Execute.

(** What the operation resolves with, and what it throws. *)
Context {TResult Thrown : Type}.

(** The n-th call of the operation either throws or resolves. *)
Definition Operation : Type := nat -> Thrown + TResult.

(** [attempt(operation)] forwards the outcome of one call. *)
Definition attempt (operation : Operation) (n : nat) : Thrown + TResult :=
  match operation n with
  | inr r => inr r
  | inl error => inl error
  end.

(** How the promise returned by [execute] ends.  [Pending] is the
    promise that is never settled: the [async] executor threw, so
    neither [resolve] nor [reject] was called.  [OutOfFuel] is not a
    behaviour of the program: the model stopped unrolling the loop. *)
Inductive Settlement : Type :=
| Resolved (r : TResult)
| Rejected (lastError : option Thrown)
| Pending (message : string)
| OutOfFuel.

(** The effects of one [execute], in order. *)
Inductive Effect : Type :=
| Attempt (n : nat)
| Sleep (d : TimeSpan).

(** The [while] loop of [execute]: [n] calls are behind, [lastError]
    and [currentDelay] are the two local variables. *)
Fixpoint loop (options : ExponentialBackoffOptions)
    (operation : Operation) (random : nat -> Q) (fuel : nat) (n : nat)
    (lastError : option Thrown) (currentDelay : TimeSpan)
    : Settlement * list Effect :=
  match fuel with
  | O => (OutOfFuel, [])
  | S fuel' =>
    if TimeSpan.leb currentDelay (maxDelay options) then
      match attempt operation n with
      | inr r => (Resolved r, [Attempt n])
      | inl error =>
        match getUpdatedDelay options (random n) currentDelay with
        | Ok d =>
          let '(s, effects) :=
            loop options operation random fuel' (S n) (Some error) d in
          (s, Attempt n :: Sleep currentDelay :: effects)
        | Throw m => (Pending m, [Attempt n; Sleep currentDelay])
        end
      end
    else (Rejected lastError, [])
  end.

(** [execute(operation)] *)
Definition execute (options : ExponentialBackoffOptions)
    (operation : Operation) (random : nat -> Q) (fuel : nat)
    : Settlement * list Effect :=
  loop options operation random fuel 0%nat None (initialDelay options).

(** The value of [currentDelay] when the loop tests it for the n-th
    time, as long as no update threw. *)
Fixpoint delayAt (options : ExponentialBackoffOptions)
    (random : nat -> Q) (n : nat) : result TimeSpan :=
  match n with
  | O => Ok (initialDelay options)
  | S k =>
    match delayAt options random k with
    | Ok d => getUpdatedDelay options (random k) d
    | Throw m => Throw m
    end
  end.

(** The same value, for use where every update is known to succeed. *)
Definition delayOf (options : ExponentialBackoffOptions)
    (random : nat -> Q) (n : nat) : TimeSpan :=
  match delayAt options random n with
  | Ok d => d
  | Throw _ => initialDelay options
  end.

Definition attempts (effects : list Effect) : list nat :=
  flat_map (fun e => match e with Attempt n => [n] | Sleep _ => [] end)
           effects.

Definition sleeps (effects : list Effect) : list TimeSpan :=
  flat_map (fun e => match e with Attempt _ => [] | Sleep d => [d] end)
           effects.

(** [lastError] after the first [n] calls have all thrown. *)
Definition lastErrorAfter (errors : nat -> Thrown) (n : nat) : option Thrown :=
  match n with
  | O => None
  | S m => Some (errors m)
  end.

(** The effects of [n] failed rounds, from call [k] on. *)
Definition failedRounds (delays : nat -> TimeSpan) (k n : nat) : list Effect :=
  flat_map (fun i => [Attempt i; Sleep (delays i)]) (seq k n).

(** What [reject(lastError)] hands to the caller: what the last call
    threw, or [null] when [lastError] was never assigned.  A caller
    cannot tell that [null] from a [null] thrown by the operation. *)
Definition reason (null : Thrown) (lastError : option Thrown) : Thrown :=
  match lastError with
  | Some error => error
  | None => null
  end.

End Execute.

Arguments Settlement : clear implicits.
Arguments Operation : clear implicits.

End ExponentialBackoff.

(** ** What both revisions of the poller share *)

(** A function object is known by its identity only. *)
Definition OperationRef : Type := nat.
Definition CallbackRef : Type := nat.
Definition ServiceLogger : Type := nat.
Definition Timeout : Type := nat.
Bind Scope nat_scope with OperationRef CallbackRef ServiceLogger Timeout.

(** [new Error(message)] *)
Inductive JsError : Type := MkError (message : string).

(** What an operation throws: an [Error]; any other value that
    [JSON.stringify] accepts, known by the message that
    [new Error(JSON.stringify(error))] gets; or a value on which
    [JSON.stringify] throws a [TypeError] (a [BigInt], an object with a
    cycle, an object whose [toJSON] throws), known by the message of that
    [TypeError]. *)
Inductive Thrown : Type :=
| ThrownError (e : JsError)
| ThrownValue (json : string)
| ThrownUnserializable (message : string).

(** [error instanceof Error ? error : new Error(JSON.stringify(error))]:
    the expression throws when [JSON.stringify] does. *)
Definition resultError (error : Thrown) : result JsError :=
  match error with
  | ThrownError e => Ok e
  | ThrownValue json => Ok (MkError json)
  | ThrownUnserializable message => Throw message
  end.


Inductive Effect : Type :=
| CallOperation (f : OperationRef)
| CallOnError (f : CallbackRef) (e : JsError)
| CallOnFail (f : CallbackRef) (e : JsError)
| LogInfo (l : ServiceLogger) (message : string)
| LogWarning (l : ServiceLogger) (message : string)
| SetTimeout (id : Timeout) (delay : Q)
| ClearTimeout (id : option Timeout)
| WaitFor (delay : TimeSpan)
| UnhandledRejection (message : string).

Record pollerOptions : Type := {
  initialDelay : TimeSpan;
  maxDelay : TimeSpan;
  factor : Q;
  resetPeriod : TimeSpan;
  linearStep : TimeSpan;
  logger : option ServiceLogger
}.

(** [TimeSpan.fromSeconds(1)], [fromMinutes(1)], [fromMinutes(5)] *)
Definition defaultOptions : pollerOptions := {|
  initialDelay := TimeSpan.lit 1000 eq_refl;
  maxDelay := TimeSpan.lit 60000 eq_refl;
  factor := 3 # 2;
  resetPeriod := TimeSpan.lit 300000 eq_refl;
  linearStep := TimeSpan.lit 1000 eq_refl;
  logger := None
|}.

(** [callback?.(error)] *)
Definition callOptional (call : CallbackRef -> JsError -> Effect)
    (callback : option CallbackRef) (error : JsError) : list Effect :=
  match callback with
  | Some f => [call f error]
  | None => []
  end.

(** [this.options.logger?.info(message)] and [?.warning(message)] *)
Definition logOptional (log : ServiceLogger -> string -> Effect)
    (options : pollerOptions) (message : string) : list Effect :=
  match logger options with
  | Some l => [log l message]
  | None => []
  end.

(** [!x] for [x: number | undefined]: [undefined] and [0] are falsy. *)
Definition falsy (x : option Q) : bool :=
  match x with
  | None => true
  | Some v => Qeq_bool v 0
  end.

(** [Math.max(a, b)] *)
Definition Math_max (a b : Q) : Q := Qmax a b.

(** The callbacks among the effects. *)
Definition isCallback (e : Effect) : bool :=
  match e with
  | CallOnError _ _ | CallOnFail _ _ => true
  | _ => false
  end.

Definition isCallOperation (e : Effect) : bool :=
  match e with
  | CallOperation _ => true
  | _ => false
  end.

Definition isCallOnFail (e : Effect) : bool :=
  match e with
  | CallOnFail _ _ => true
  | _ => false
  end.

Definition isLogWarning (e : Effect) : bool :=
  match e with
  | LogWarning _ _ => true
  | _ => false
  end.

(** ** class [AdaptivePoller], the revision that polls from a timeout

    This is [src/threading/adaptive-poller.ts]: [runPoll] runs one cycle
    and [finally] sets the timeout of the next one, [stop()] is
    synchronous, the delay and the time of the last error are fields of
    the object, and a delay that reaches [maxDelay] counts as saturated
    ([>=]). *)

Module AdaptivePoller.

Record Poller : Type := {
  currentTimeout : option Timeout;
  currentDelay : Q;
  lastErrorTime : option Q;
  polling : bool;
  operation : option OperationRef;
  onError : option CallbackRef;
  onFail : option CallbackRef
}.

(** [get isPolling()] *)
Definition isPolling (self : Poller) : bool := polling self.

(** [constructor(options)] *)
Definition new (options : pollerOptions) : Poller := {|
  currentTimeout := None;
  currentDelay := TimeSpan.totalMilliseconds (initialDelay options);
  lastErrorTime := None;
  polling := false;
  operation := None;
  onError := None;
  onFail := None
|}.

Definition set_currentDelay (delay : Q) (self : Poller) : Poller := {|
  currentTimeout := currentTimeout self;
  currentDelay := delay;
  lastErrorTime := lastErrorTime self;
  polling := polling self;
  operation := operation self;
  onError := onError self;
  onFail := onFail self
|}.

Definition set_lastErrorTime (time : Q) (self : Poller) : Poller := {|
  currentTimeout := currentTimeout self;
  currentDelay := currentDelay self;
  lastErrorTime := Some time;
  polling := polling self;
  operation := operation self;
  onError := onError self;
  onFail := onFail self
|}.

Definition set_polling (b : bool) (self : Poller) : Poller := {|
  currentTimeout := currentTimeout self;
  currentDelay := currentDelay self;
  lastErrorTime := lastErrorTime self;
  polling := b;
  operation := operation self;
  onError := onError self;
  onFail := onFail self
|}.

Definition set_currentTimeout (id : Timeout) (self : Poller) : Poller := {|
  currentTimeout := Some id;
  currentDelay := currentDelay self;
  lastErrorTime := lastErrorTime self;
  polling := polling self;
  operation := operation self;
  onError := onError self;
  onFail := onFail self
|}.

(** The three assignments of [start]. *)
Definition set_functions (f : OperationRef) (error fail : option CallbackRef)
    (self : Poller) : Poller := {|
  currentTimeout := currentTimeout self;
  currentDelay := currentDelay self;
  lastErrorTime := lastErrorTime self;
  polling := polling self;
  operation := Some f;
  onError := error;
  onFail := fail
|}.

(** The [try] block of [runPoll] after [await this.operation()] has
    returned; [now] is what [Date.now()] returns. *)
Definition onSuccess (options : pollerOptions) (now : Q) (self : Poller)
    : Poller :=
  if falsy (lastErrorTime self)
     || match lastErrorTime self with
        | Some last =>
          Qle_bool (TimeSpan.totalMilliseconds (resetPeriod options))
                   (now - last)
        | None => false
        end
  then
    let initialDelay := TimeSpan.totalMilliseconds (initialDelay options) in
    let linearDifference :=
      currentDelay self - TimeSpan.totalMilliseconds (linearStep options) in
    set_currentDelay (Math_max initialDelay linearDifference) self
  else self.

(** The [catch] block of [runPoll]: the object it leaves and the
    callbacks it calls.  When [JSON.stringify] throws, the block ends
    there, after the two assignments and before the test of the delay. *)
Definition onFailure (options : pollerOptions) (error : Thrown) (now : Q)
    (self : Poller) : Poller * list Effect :=
  let self1 := set_lastErrorTime now self in
  let self2 := set_currentDelay (currentDelay self1 * factor options) self1 in
  match resultError error with
  | Throw _ => (self2, [])
  | Ok resultError =>
    if Qle_bool (TimeSpan.totalMilliseconds (maxDelay options))
                (currentDelay self2)
    then
      (set_currentDelay (TimeSpan.totalMilliseconds (maxDelay options)) self2,
       callOptional CallOnFail (onFail self2) resultError)
    else
      (self2, callOptional CallOnError (onError self2) resultError)
  end.

(** How the awaited operation ended: it returned, or it threw. *)
Definition Outcome : Type := option Thrown.

(** What leaves [runPoll] once [finally] is over: the [TypeError] that
    ended the [catch] block, if any.  Nobody holds the promise of
    [runPoll] ([start] and the timeout drop it), so the rejection is
    unhandled. *)
Definition uncaught (outcome : Outcome) : list Effect :=
  match outcome with
  | None => []
  | Some error =>
    match resultError error with
    | Ok _ => []
    | Throw message => [UnhandledRejection message]
    end
  end.

(** [try { ... } catch (error) { ... }] of [runPoll], from the point
    where the awaited operation has settled. *)
Definition afterOperation (options : pollerOptions) (outcome : Outcome)
    (now : Q) (self : Poller) : Poller * list Effect :=
  match outcome with
  | None => (onSuccess options now self, [])
  | Some error => onFailure options error now self
  end.

(** The object, and what the event loop holds for it. *)
Record World : Type := {
  self : Poller;
  (** activations of [runPoll] suspended at [await this.operation()] *)
  awaiting : nat;
  (** timeouts set and neither fired nor cleared *)
  armed : list Timeout;
  nextTimeout : Timeout;
  (** what has been done so far, oldest first *)
  effects : list Effect
}.

Definition initial (options : pollerOptions) : World := {|
  self := new options;
  awaiting := 0;
  armed := [];
  nextTimeout := 0%nat;
  effects := []
|}.

Definition with_self (p : Poller) (w : World) : World := {|
  self := p;
  awaiting := awaiting w;
  armed := armed w;
  nextTimeout := nextTimeout w;
  effects := effects w
|}.

Definition emit (es : list Effect) (w : World) : World := {|
  self := self w;
  awaiting := awaiting w;
  armed := armed w;
  nextTimeout := nextTimeout w;
  effects := effects w ++ es
|}.

(** [scheduleNextPoll()]: [setTimeout] hands out a fresh handle. *)
Definition scheduleNextPoll (w : World) : World :=
  let id := nextTimeout w in
  {| self := set_currentTimeout id (self w);
     awaiting := awaiting w;
     armed := id :: armed w;
     nextTimeout := S id;
     effects := effects w ++ [SetTimeout id (currentDelay (self w))] |}.

(** [runPoll()] up to its [await]: the guard, then the call of the
    operation, whose settlement resumes the activation later. *)
Definition runPoll (w : World) : World :=
  match negb (polling (self w)), operation (self w) with
  | false, Some f =>
    {| self := self w;
       awaiting := S (awaiting w);
       armed := armed w;
       nextTimeout := nextTimeout w;
       effects := effects w ++ [CallOperation f] |}
  | _, _ => w
  end.

(** [runPoll()] from its [await] on: [try], [catch], [finally]. *)
Definition runPoll_resume (options : pollerOptions) (outcome : Outcome)
    (now : Q) (w : World) : World :=
  let '(p, es) := afterOperation options outcome now (self w) in
  emit (uncaught outcome)
    (scheduleNextPoll
       {| self := p;
          awaiting := pred (awaiting w);
          armed := armed w;
          nextTimeout := nextTimeout w;
          effects := effects w ++ es |}).

(** [start(operation, onError, onFail)] *)
Definition start (options : pollerOptions) (f : OperationRef)
    (error fail : option CallbackRef) (w : World) : World :=
  if polling (self w) then w
  else
    let p1 := set_polling true (self w) in
    let p2 := set_functions f error fail p1 in
    let p3 :=
      set_currentDelay (TimeSpan.totalMilliseconds (initialDelay options)) p2 in
    let w1 := runPoll (with_self p3 w) in
    emit (logOptional LogInfo options "AdaptivePolling started") w1.

(** [stop()] *)
Definition stop (options : pollerOptions) (w : World) : World :=
  let p := set_polling false (self w) in
  let cleared :=
    match currentTimeout p with
    | Some id => filter (fun t => negb (Nat.eqb t id)) (armed w)
    | None => armed w
    end in
  {| self := p;
     awaiting := awaiting w;
     armed := cleared;
     nextTimeout := nextTimeout w;
     effects := effects w ++ [ClearTimeout (currentTimeout p)]
                ++ logOptional LogInfo options "AdaptivePolling stopped" |}.

(** One turn of the event loop that concerns the object. *)
Inductive Turn : Type :=
| CallStart (f : OperationRef) (error fail : option CallbackRef)
| CallStop
| Settles (outcome : Outcome) (now : Q)
| Fires (id : Timeout).

(** The turn, when the event loop can take it: an operation settles only
    if an activation awaits it, a timeout fires only if it is armed. *)
Definition turn (options : pollerOptions) (t : Turn) (w : World)
    : option World :=
  match t with
  | CallStart f error fail => Some (start options f error fail w)
  | CallStop => Some (stop options w)
  | Settles outcome now =>
    match awaiting w with
    | O => None
    | S _ => Some (runPoll_resume options outcome now w)
    end
  | Fires id =>
    if existsb (Nat.eqb id) (armed w) then
      Some (runPoll
              {| self := self w;
                 awaiting := awaiting w;
                 armed := filter (fun t => negb (Nat.eqb t id)) (armed w);
                 nextTimeout := nextTimeout w;
                 effects := effects w |})
    else None
  end.

(** A run: the turns taken one after the other. *)
Fixpoint run (options : pollerOptions) (ts : list Turn) (w : World)
    : option World :=
  match ts with
  | [] => Some w
  | t :: ts' =>
    match turn options t w with
    | Some w' => run options ts' w'
    | None => None
    end
  end.

Definition isCallStart (t : Turn) : bool :=
  match t with
  | CallStart _ _ _ => true
  | _ => false
  end.

(** [n] cycles in a row in which the operation throws, from cycle [k] on:
    the awaited operation settles with an error, then the timeout that the
    cycle has set fires and starts the next cycle.  The first such cycle
    sets the timeout [first]. *)
Fixpoint failures (errors : nat -> Thrown) (clock : nat -> Q)
    (first : Timeout) (k n : nat) : list Turn :=
  match n with
  | O => []
  | S n' =>
    Settles (Some (errors k)) (clock k) :: Fires (first + k)%nat
    :: failures errors clock first (S k) n'
  end.

End AdaptivePoller.

(** ** class [AdaptivePoller], the revision that polls from a task

    Another revision of the same class: [runPoll] is one [while] loop
    whose promise is kept in [this.task]; [stop()] is [async] and awaits
    that promise; the delay and the time of the last error are local
    variables of [runPoll]; a redundant [start] logs a warning. *)

Module TaskPoller.

Definition PromiseRef : Type := nat.
Bind Scope nat_scope with PromiseRef.

Record Poller : Type := {
  task : option PromiseRef;
  operation : option OperationRef;
  onError : option CallbackRef;
  onFail : option CallbackRef
}.

(** [get isPolling()]: [this.task !== undefined] *)
Definition isPolling (self : Poller) : bool :=
  match task self with
  | Some _ => true
  | None => false
  end.

(** [constructor(options)] *)
Definition new : Poller := {|
  task := None;
  operation := None;
  onError := None;
  onFail := None
|}.

Definition set_task (t : option PromiseRef) (self : Poller) : Poller := {|
  task := t;
  operation := operation self;
  onError := onError self;
  onFail := onFail self
|}.

Definition set_functions (f : OperationRef) (error fail : option CallbackRef)
    (self : Poller) : Poller := {|
  task := task self;
  operation := Some f;
  onError := error;
  onFail := fail
|}.

(** Where an activation of [runPoll] is suspended: at
    [await this.operation()], or at the [await Wait(...)] of [finally],
    entered from a [return] of the [try] block or not, or entered from a
    [catch] block that threw. *)
Inductive Point : Type :=
| AtOperation
| AtWait (returning : bool)
| AtWaitThrowing (message : string).

(** A suspended activation of [runPoll]: its promise and its locals. *)
Record Loop : Type := {
  promise : PromiseRef;
  currentDelay : Q;
  lastErrorTime : Q;
  point : Point
}.

(** An activation of [stop] suspended at [await task]. *)
Record Stopping : Type := {
  awaited : PromiseRef;
  stopPromise : PromiseRef
}.

Inductive Fate : Type :=
| Fulfilled
| RejectedWith (message : string).

Record World : Type := {
  self : Poller;
  loops : list Loop;
  stops : list Stopping;
  settled : list (PromiseRef * Fate);
  nextPromise : PromiseRef;
  effects : list Effect
}.

Definition initial : World := {|
  self := new;
  loops := [];
  stops := [];
  settled := [];
  nextPromise := 0%nat;
  effects := []
|}.

Definition with_self (p : Poller) (w : World) : World := {|
  self := p;
  loops := loops w;
  stops := stops w;
  settled := settled w;
  nextPromise := nextPromise w;
  effects := effects w
|}.

Definition emit (es : list Effect) (w : World) : World := {|
  self := self w;
  loops := loops w;
  stops := stops w;
  settled := settled w;
  nextPromise := nextPromise w;
  effects := effects w ++ es
|}.

Definition settle (p : PromiseRef) (f : Fate) (w : World) : World := {|
  self := self w;
  loops := loops w;
  stops := stops w;
  settled := settled w ++ [(p, f)];
  nextPromise := nextPromise w;
  effects := effects w
|}.

Definition suspend (l : Loop) (w : World) : World := {|
  self := self w;
  loops := loops w ++ [l];
  stops := stops w;
  settled := settled w;
  nextPromise := nextPromise w;
  effects := effects w
|}.

(** The promise an [async] call returns. *)
Definition fresh (w : World) : PromiseRef * World :=
  (nextPromise w,
   {| self := self w;
      loops := loops w;
      stops := stops w;
      settled := settled w;
      nextPromise := S (nextPromise w);
      effects := effects w |}).

Definition fate (p : PromiseRef) (w : World) : option Fate :=
  match find (fun s => Nat.eqb (fst s) p) (settled w) with
  | Some (_, f) => Some f
  | None => None
  end.

(** [stop()] up to its [await]; the promise it returns comes first. *)
Definition stop (options : pollerOptions) (w : World) : PromiseRef * World :=
  let '(p, w0) := fresh w in
  if negb (isPolling (self w0)) then (p, settle p Fulfilled w0)
  else
    match task (self w0) with
    | Some t =>
      (p,
       {| self := set_task None (self w0);
          loops := loops w0;
          stops := stops w0 ++ [{| awaited := t; stopPromise := p |}];
          settled := settled w0;
          nextPromise := nextPromise w0;
          effects := effects w0 |})
    | None =>
      (p, settle p Fulfilled
            (emit (logOptional LogInfo options "AdaptivePolling stopped") w0))
    end.

(** [stop()] from its [await] on, once the awaited task has settled. *)
Definition stop_resume (options : pollerOptions) (s : Stopping) (f : Fate)
    (w : World) : World :=
  match f with
  | Fulfilled =>
    settle (stopPromise s) Fulfilled
      (emit (logOptional LogInfo options "AdaptivePolling stopped") w)
  | RejectedWith m => settle (stopPromise s) (RejectedWith m) w
  end.

(** The [finally] block: [await Wait(TimeSpan.fromMilliseconds(currentDelay))]. *)
Definition finallyWait (p : PromiseRef) (delay last : Q) (returning : bool)
    (w : World) : World :=
  match TimeSpan.fromMilliseconds delay with
  | Ok d =>
    suspend {| promise := p; currentDelay := delay; lastErrorTime := last;
               point := AtWait returning |}
            (emit [WaitFor d] w)
  | Throw m => settle p (RejectedWith m) w
  end.

(** The [finally] block entered from a [catch] block that threw: the
    error is thrown again once the wait is over. *)
Definition finallyThrowing (p : PromiseRef) (delay last : Q)
    (message : string) (w : World) : World :=
  match TimeSpan.fromMilliseconds delay with
  | Ok d =>
    suspend {| promise := p; currentDelay := delay; lastErrorTime := last;
               point := AtWaitThrowing message |}
            (emit [WaitFor d] w)
  | Throw m => settle p (RejectedWith m) w
  end.

(** The [catch] block, then [finally].  When [JSON.stringify] throws, the
    block ends after the two assignments. *)
Definition onFailure (options : pollerOptions) (p : PromiseRef)
    (delay : Q) (error : Thrown) (now : Q) (w : World) : World :=
  let lastErrorTime := now in
  let currentDelay := delay * factor options in
  match resultError error with
  | Throw message => finallyThrowing p currentDelay lastErrorTime message w
  | Ok resultError =>
    if Qle_bool (TimeSpan.totalMilliseconds (maxDelay options)) currentDelay
    then
      finallyWait p (TimeSpan.totalMilliseconds (maxDelay options))
        lastErrorTime false
        (emit (callOptional CallOnFail (onFail (self w)) resultError) w)
    else
      finallyWait p currentDelay lastErrorTime false
        (emit (callOptional CallOnError (onError (self w)) resultError) w)
  end.

(** The [try] block after [await this.operation()] has returned, then
    [finally]. *)
Definition onSuccess (options : pollerOptions) (p : PromiseRef)
    (delay last : Q) (now : Q) (w : World) : World :=
  if negb (isPolling (self w)) then finallyWait p delay last true w
  else if Qeq_bool last 0
          || Qle_bool (TimeSpan.totalMilliseconds (resetPeriod options))
                      (now - last)
  then
    let initialDelay := TimeSpan.totalMilliseconds (initialDelay options) in
    let linearDifference :=
      delay - TimeSpan.totalMilliseconds (linearStep options) in
    finallyWait p (Math_max initialDelay linearDifference) last false w
  else finallyWait p delay last false w.

(** [while (this.isPolling) { try { await this.operation(); ...]: the test
    of the loop and the call of the operation.  Calling [undefined] throws
    a [TypeError], which the [catch] block receives at once. *)
Definition iterate (options : pollerOptions) (p : PromiseRef)
    (delay last : Q) (now : Q) (w : World) : World :=
  if isPolling (self w) then
    match operation (self w) with
    | Some f =>
      suspend {| promise := p; currentDelay := delay; lastErrorTime := last;
                 point := AtOperation |}
              (emit [CallOperation f] w)
    | None =>
      onFailure options p delay
        (ThrownError (MkError "this.operation is not a function")) now w
    end
  else settle p Fulfilled w.

(** [runPoll()] up to its first [await]; the promise it returns comes
    first. *)
Definition runPoll (options : pollerOptions) (now : Q) (w : World)
    : PromiseRef * World :=
  let '(p, w0) := fresh w in
  match negb (isPolling (self w0)), operation (self w0) with
  | false, Some _ =>
    let currentDelay := TimeSpan.totalMilliseconds (initialDelay options) in
    let lastErrorTime := 0 in
    (p, iterate options p currentDelay lastErrorTime now w0)
  | _, _ =>
    let w1 :=
      emit (logOptional LogWarning options
              "AdaptivePolling runPoll called while not polling or operation is not set")
           w0 in
    let '(_, w2) := stop options w1 in
    (p, settle p Fulfilled w2)
  end.

(** [start(operation, onError, onFail)] *)
Definition start (options : pollerOptions) (f : OperationRef)
    (error fail : option CallbackRef) (now : Q) (w : World) : World :=
  if isPolling (self w) then
    emit (logOptional LogWarning options
            "AdaptivePolling is already running, stopping the previous task before starting a new one")
         w
  else
    let w1 := with_self (set_functions f error fail (self w)) w in
    let '(p, w2) := runPoll options now w1 in
    let w3 := with_self (set_task (Some p) (self w2)) w2 in
    emit (logOptional LogInfo options "AdaptivePolling started") w3.

(** How the awaited operation ended: it returned, or it threw. *)
Definition Outcome : Type := option Thrown.

(** An activation of [runPoll] goes on from where it was suspended. *)
Definition resume (options : pollerOptions) (l : Loop) (outcome : Outcome)
    (now : Q) (w : World) : World :=
  match point l with
  | AtOperation =>
    match outcome with
    | None => onSuccess options (promise l) (currentDelay l) (lastErrorTime l) now w
    | Some error => onFailure options (promise l) (currentDelay l) error now w
    end
  | AtWait true => settle (promise l) Fulfilled w
  | AtWait false =>
    iterate options (promise l) (currentDelay l) (lastErrorTime l) now w
  | AtWaitThrowing message => settle (promise l) (RejectedWith message) w
  end.

Definition without_loop (p : PromiseRef) (w : World) : World := {|
  self := self w;
  loops := filter (fun l => negb (Nat.eqb (promise l) p)) (loops w);
  stops := stops w;
  settled := settled w;
  nextPromise := nextPromise w;
  effects := effects w
|}.

Definition without_stop (p : PromiseRef) (w : World) : World := {|
  self := self w;
  loops := loops w;
  stops := filter (fun s => negb (Nat.eqb (stopPromise s) p)) (stops w);
  settled := settled w;
  nextPromise := nextPromise w;
  effects := effects w
|}.

(** One turn of the event loop that concerns the object.  [Continues p]
    resumes the activation of [runPoll] whose promise is [p]: what it
    awaited (the operation, with its outcome, or the wait) is over.
    [StopContinues p] resumes the activation of [stop] whose promise is
    [p]. *)
Inductive Turn : Type :=
| CallStart (f : OperationRef) (error fail : option CallbackRef) (now : Q)
| CallStop
| Continues (p : PromiseRef) (outcome : Outcome) (now : Q)
| StopContinues (p : PromiseRef).

Definition turn (options : pollerOptions) (t : Turn) (w : World)
    : option World :=
  match t with
  | CallStart f error fail now => Some (start options f error fail now w)
  | CallStop => Some (snd (stop options w))
  | Continues p outcome now =>
    match find (fun l => Nat.eqb (promise l) p) (loops w) with
    | Some l => Some (resume options l outcome now (without_loop p w))
    | None => None
    end
  | StopContinues p =>
    match find (fun s => Nat.eqb (stopPromise s) p) (stops w) with
    | Some s =>
      match fate (awaited s) w with
      | Some f => Some (stop_resume options s f (without_stop p w))
      | None => None
      end
    | None => None
    end
  end.

Fixpoint run (options : pollerOptions) (ts : list Turn) (w : World)
    : option World :=
  match ts with
  | [] => Some w
  | t :: ts' =>
    match turn options t w with
    | Some w' => run options ts' w'
    | None => None
    end
  end.

Definition isCallStart (t : Turn) : bool :=
  match t with
  | CallStart _ _ _ _ => true
  | _ => false
  end.

(** The promises of the world are in order: every promise in use was
    handed out, and a suspended activation has not settled its own. *)
Definition wellFormed (w : World) : Prop :=
  (forall q f, In (q, f) (settled w) -> (q < nextPromise w)%nat) /\
  (forall l, In l (loops w) ->
             (promise l < nextPromise w)%nat /\ fate (promise l) w = None) /\
  (forall s, In s (stops w) ->
             (stopPromise s < nextPromise w)%nat /\
             fate (stopPromise s) w = None) /\
  (forall l s, In l (loops w) -> In s (stops w) ->
               promise l <> stopPromise s).

(** What resuming the activation of [runPoll] with promise [p] can do to
    the world: effects, then either the activation is suspended again or
    its promise is settled. *)
Definition advances (p : PromiseRef) (w w' : World) : Prop :=
  self w' = self w /\ stops w' = stops w /\
  nextPromise w' = nextPromise w /\
  (exists es, effects w' = effects w ++ es /\
              (isPolling (self w) = false ->
               filter isCallOperation es = [])) /\
  ((exists l, promise l = p /\ loops w' = loops w ++ [l] /\
              settled w' = settled w) \/
   (exists f, loops w' = loops w /\ settled w' = settled w ++ [(p, f)])).

(** After [stop()] has taken the task [t] and returned the promise [p]:
    the object is not polling, [p] belongs to that call of [stop] alone,
    and [p] is settled only if [t] is. *)
Definition stopping (t p : PromiseRef) (w : World) : Prop :=
  wellFormed w /\
  isPolling (self w) = false /\
  (p < nextPromise w)%nat /\
  (forall s, In s (stops w) -> stopPromise s = p -> awaited s = t) /\
  (forall l, In l (loops w) -> promise l <> p) /\
  (fate p w <> None -> fate t w <> None).

End TaskPoller.


(** ** Scenarios *)

(** The retry scenario: 1000 ms, at most 5000 ms, factor 2, no
    jitter; the delays the loop tests are 1000, 2000, 4000, 8000. *)
Definition scenario : ExponentialBackoff.ExponentialBackoffOptions := {|
  ExponentialBackoff.initialDelay := TimeSpan.lit 1000 eq_refl;
  ExponentialBackoff.maxDelay := TimeSpan.lit 5000 eq_refl;
  ExponentialBackoff.factor := 2;
  ExponentialBackoff.jitter := None
|}.

Definition scenario_delays (i : nat) : TimeSpan :=
  ExponentialBackoff.delayOf scenario (fun _ => 0) i.

(** An operation that throws on every call but the one numbered [n]. *)
Definition succeeds_at (n : nat) (i : nat) : string + nat :=
  if Nat.eqb i n then inr 42%nat else inl "boom"%string.

Definition always_fails (i : nat) : string + nat := inl "boom"%string.

(** The poller scenario: 1000 ms, at most 5000 ms, factor 2. *)
Definition pollerScenario (reset step : TimeSpan)
    (log : option ServiceLogger) : pollerOptions := {|
  initialDelay := TimeSpan.lit 1000 eq_refl;
  maxDelay := TimeSpan.lit 5000 eq_refl;
  factor := 2;
  resetPeriod := reset;
  linearStep := step;
  logger := log
|}.

(** The state after [start] and [n] failed cycles in a row. *)
Definition afterFailures (options : pollerOptions) (f : OperationRef)
    (error fail : option CallbackRef) (errors : nat -> Thrown)
    (clock : nat -> Q) (n : nat) : option AdaptivePoller.World :=
  AdaptivePoller.run options (AdaptivePoller.failures errors clock 0%nat 0%nat n)
    (AdaptivePoller.start options f error fail
       (AdaptivePoller.initial options)).


(** The timeout revision after [start], a logger configured: the first
    call of the operation is in flight. *)
Definition started : AdaptivePoller.World :=
  AdaptivePoller.start
    (pollerScenario (TimeSpan.lit 300000 eq_refl) (TimeSpan.lit 1000 eq_refl)
       (Some 9%nat))
    1%nat (Some 2%nat) (Some 3%nat)
    (AdaptivePoller.initial
       (pollerScenario (TimeSpan.lit 300000 eq_refl)
          (TimeSpan.lit 1000 eq_refl) (Some 9%nat))).

(** The task revision after [start], with and without a logger. *)
Definition taskStarted (log : option ServiceLogger) : TaskPoller.World :=
  TaskPoller.start
    (pollerScenario (TimeSpan.lit 300000 eq_refl) (TimeSpan.lit 1000 eq_refl)
       log)
    1%nat (Some 2%nat) (Some 3%nat) 1700000000000 TaskPoller.initial.

(** The task revision with its loop suspended at
    [await this.operation()], the promise of the loop kept in [task]. *)
Definition taskInFlight : TaskPoller.World := {|
  TaskPoller.self :=
    {| TaskPoller.task := Some 0%nat;
       TaskPoller.operation := Some 1%nat;
       TaskPoller.onError := Some 2%nat;
       TaskPoller.onFail := Some 3%nat |};
  TaskPoller.loops :=
    [{| TaskPoller.promise := 0%nat;
        TaskPoller.currentDelay := 1000;
        TaskPoller.lastErrorTime := 0;
        TaskPoller.point := TaskPoller.AtOperation |}];
  TaskPoller.stops := [];
  TaskPoller.settled := [];
  TaskPoller.nextPromise := 1%nat;
  TaskPoller.effects := [CallOperation 1%nat]
|}.

(** ** class [Mathf] *)

Module Mathf.

(** [Math.min(Math.max(value, min), max)] *)
Definition clamp (value min max : Q) : Q := Qmin (Qmax value min) max.

(** [a + (b - a) * t], each of the three operations rounded. *)
Definition lerp (round : Q -> Q) (a b t : Q) : Q :=
  round (a + round (round (b - a) * t)).

(** [Number.MIN_VALUE], the smallest positive double, and
    [Number.MAX_VALUE], the largest finite one. *)
Definition MIN_VALUE : Q := 1 # (2 ^ 1074).
Definition MAX_VALUE : Q := inject_Z ((2 ^ 53 - 1) * 2 ^ 971).

(** [a > b] on numbers *)
Definition gtb (a b : Q) : bool := negb (Qle_bool a b).

(** The [for] loop of [max]: [max] and [result] are the two locals. *)
Fixpoint max_loop {TType : Type} (selector : TType -> Q)
    (array : list TType) (max : Q) (result : option TType) : option TType :=
  match array with
  | [] => result
  | item :: rest =>
    let value := selector item in
    if gtb value max then max_loop selector rest value (Some item)
    else max_loop selector rest max result
  end.

Definition max {TType : Type} (array : list TType) (selector : TType -> Q)
    : option TType :=
  max_loop selector array MIN_VALUE None.

Fixpoint min_loop {TType : Type} (selector : TType -> Q)
    (array : list TType) (min : Q) (result : option TType) : option TType :=
  match array with
  | [] => result
  | item :: rest =>
    let value := selector item in
    if gtb min value then min_loop selector rest value (Some item)
    else min_loop selector rest min result
  end.

Definition min {TType : Type} (array : list TType) (selector : TType -> Q)
    : option TType :=
  min_loop selector array MAX_VALUE None.

End Mathf.

(** ** class [Rate] *)

Module Rate.

(** [readonly rate], [readonly interval], together with what the
    constructor enforces: [if (rate <= 0) throw ...]. *)
Record t : Type := mk { rate : Q; interval : TimeSpan; rate_pos : 0 < rate }.

(** [constructor(rate, interval)] *)
Definition new (rate : Q) (interval : TimeSpan) : result t :=
  match Qlt_le_dec 0 rate with
  | left H => Ok (mk rate interval H)
  | right _ => Throw "Rate must be a positive number"
  end.

(** [static of(rate, interval)]; [of] is a keyword here. *)
Definition of_ (rate : Q) (interval : TimeSpan) : result t :=
  new rate interval.

(** [get delay()]: the quotient is the exact one rounded. *)
Definition delay (round : Q -> Q) (x : t) : result TimeSpan :=
  let millis := round (TimeSpan.totalMilliseconds (interval x) / rate x) in
  TimeSpan.fromMilliseconds millis.

End Rate.

(** ** class [RestRequest] *)

Module RestRequest.

Import ExponentialBackoff.

Record t : Type := {
  throwException : bool;
  backoff : ExponentialBackoffOptions
}.

(** [constructor(throwException = false, backoffOption?)]; the defaults
    are 5 seconds, 30 seconds and a factor of 2. *)
Definition new (throwException : bool)
    (backoffOption : option ExponentialBackoffOptions) : t := {|
  throwException := throwException;
  backoff :=
    match backoffOption with
    | Some o => o
    | None =>
      {| initialDelay := TimeSpan.lit 5000 eq_refl;
         maxDelay := TimeSpan.lit 30000 eq_refl;
         factor := 2;
         jitter := None |}
    end
|}.

Section Request.

Context {TResult Thrown : Type}.

(** How a request ends: how the promise it returns ends, and the error
    thrown inside the [catch] handler, which rejects a promise that nobody
    holds. *)
Record Outcome : Type := {
  settlement : Settlement TResult Thrown;
  unhandled : option (option Thrown);
  effects : list Effect
}.

(** The body that [get] and [post] share: [this.backoff.execute(...)]
    [.then(resolve).catch(error => { reject(error); if
    (this.throwException) throw error; })]. *)
Definition request (self : t) (operation : Operation TResult Thrown)
    (random : nat -> Q) (fuel : nat) : Outcome :=
  let '(s, es) := execute (backoff self) operation random fuel in
  match s with
  | Resolved response =>
    {| settlement := Resolved response; unhandled := None; effects := es |}
  | Rejected error =>
    {| settlement := Rejected error;
       unhandled := if throwException self then Some error else None;
       effects := es |}
  | Pending m =>
    {| settlement := Pending m; unhandled := None; effects := es |}
  | OutOfFuel =>
    {| settlement := OutOfFuel; unhandled := None; effects := es |}
  end.

(** [get(url, config)]: the operation is [() => axios.get(url, config)]. *)
Definition get (self : t) (axios_get : Operation TResult Thrown)
    (random : nat -> Q) (fuel : nat) : Outcome :=
  request self axios_get random fuel.

(** [post(url, data, config)]: the operation is
    [() => axios.post(url, data, config)]. *)
Definition post (self : t) (axios_post : Operation TResult Thrown)
    (random : nat -> Q) (fuel : nat) : Outcome :=
  request self axios_post random fuel.

End Request.

Arguments Outcome : clear implicits.

End RestRequest.

(** ** class [AdaptivePoller], the earlier revision with positional
    arguments

    It differs from the timeout revision in the two tests of [runPoll],
    [this.lastErrorTime === null] and
    [this.currentDelay > this.maxDelay.totalMilliseconds], and in having
    no [finally]: [scheduleNextPoll] ends the [try] block and the [catch]
    block. *)

Module LegacyPoller.

Import AdaptivePoller.

(** The [try] block of [runPoll] after the [await]. *)
Definition onSuccess (options : pollerOptions) (now : Q) (self : Poller)
    : Poller :=
  if match lastErrorTime self with
     | None => true
     | Some last =>
       Qle_bool (TimeSpan.totalMilliseconds (resetPeriod options))
                (now - last)
     end
  then
    set_currentDelay
      (Math_max (TimeSpan.totalMilliseconds (initialDelay options))
         (currentDelay self
          - TimeSpan.totalMilliseconds (linearStep options)))
      self
  else self.

(** The [catch] block of [runPoll] up to its last statement, the call of
    [scheduleNextPoll].  When [JSON.stringify] throws, the block ends
    after the two assignments. *)
Definition onFailure (options : pollerOptions) (error : Thrown) (now : Q)
    (self : Poller) : Poller * list Effect :=
  let self1 := set_lastErrorTime now self in
  let self2 := set_currentDelay (currentDelay self1 * factor options) self1 in
  match resultError error with
  | Throw _ => (self2, [])
  | Ok resultError =>
    if Mathf.gtb (currentDelay self2)
         (TimeSpan.totalMilliseconds (maxDelay options))
    then
      (set_currentDelay (TimeSpan.totalMilliseconds (maxDelay options)) self2,
       callOptional CallOnFail (onFail self2) resultError)
    else
      (self2, callOptional CallOnError (onError self2) resultError)
  end.

(** [runPoll()] from its [await] on.  There is no [finally]:
    [scheduleNextPoll] is the last statement of the [try] block and of the
    [catch] block, so a [catch] block that throws sets no timeout. *)
Definition runPoll_resume (options : pollerOptions) (outcome : Outcome)
    (now : Q) (w : World) : World :=
  match outcome with
  | None =>
    scheduleNextPoll
      {| self := onSuccess options now (self w);
         awaiting := pred (awaiting w);
         armed := armed w;
         nextTimeout := nextTimeout w;
         effects := effects w |}
  | Some error =>
    let '(p, es) := onFailure options error now (self w) in
    let w1 :=
      {| self := p;
         awaiting := pred (awaiting w);
         armed := armed w;
         nextTimeout := nextTimeout w;
         effects := effects w ++ es |} in
    match resultError error with
    | Ok _ => scheduleNextPoll w1
    | Throw message => emit [UnhandledRejection message] w1
    end
  end.

End LegacyPoller.

(** The retry scenario with a factor of 1: the delay stays 1000 ms. *)
Definition noGrowthScenario : ExponentialBackoff.ExponentialBackoffOptions := {|
  ExponentialBackoff.initialDelay := TimeSpan.lit 1000 eq_refl;
  ExponentialBackoff.maxDelay := TimeSpan.lit 5000 eq_refl;
  ExponentialBackoff.factor := 1;
  ExponentialBackoff.jitter := None
|}.

(** ** The timeout revision: runs and what they keep *)

Definition isCallStop (t : AdaptivePoller.Turn) : bool :=
  match t with
  | AdaptivePoller.CallStop => true
  | _ => false
  end.


(** One loop at most: a poller that is polling has either one call of the
    operation in flight and no timeout, or no call in flight and the one
    timeout it holds in [currentTimeout]; a poller that is not polling has
    neither. *)
Definition oneActivation (w : AdaptivePoller.World) : Prop :=
  if AdaptivePoller.polling (AdaptivePoller.self w) then
    AdaptivePoller.operation (AdaptivePoller.self w) <> None /\
    ((AdaptivePoller.awaiting w = 1%nat /\ AdaptivePoller.armed w = []) \/
     (AdaptivePoller.awaiting w = 0%nat /\
      exists id, AdaptivePoller.armed w = [id] /\
                 AdaptivePoller.currentTimeout (AdaptivePoller.self w)
                 = Some id))
  else
    AdaptivePoller.awaiting w = 0%nat /\ AdaptivePoller.armed w = [].


(** ** The service logger: [LogLevel], [parseFilter], [createWinstonLogger]
    and class [ServiceLogger]

    A string is the list of its UTF-16 code units.  The [winston] logger
    is known by what the code configures and calls: its level, its
    transports, and the messages passed to it.  A path is the list of the
    arguments of [path.join].  The [meta] arguments are passed on
    unchanged and are left out. *)

Module Logger.

Definition JsString : Type := list N.

(** A string literal of the source. *)
Definition str (s : string) : JsString :=
  List.map Ascii.N_of_ascii (list_ascii_of_string s).

Fixpoint same (a b : JsString) : bool :=
  match a, b with
  | [], [] => true
  | x :: a', y :: b' => (x =? y)%N && same a' b'
  | _, _ => false
  end.

Inductive LogLevel : Type := DEBUG | INFO | WARNING | ERROR.

Definition LogLevelMap (level : LogLevel) : nat :=
  match level with
  | ERROR => 1
  | WARNING => 2
  | INFO => 3
  | DEBUG => 4
  end.

(** White space and line terminators of ECMAScript, which [trim]
    removes. *)
Definition isWhiteSpace (c : N) : bool :=
  ((9 <=? c)%N && (c <=? 13)%N) || (c =? 32)%N || (c =? 160)%N
  || (c =? 5760)%N || ((8192 <=? c)%N && (c <=? 8202)%N)
  || (c =? 8232)%N || (c =? 8233)%N || (c =? 8239)%N || (c =? 8287)%N
  || (c =? 12288)%N || (c =? 65279)%N.

Fixpoint trimStart (s : JsString) : JsString :=
  match s with
  | [] => []
  | c :: rest => if isWhiteSpace c then trimStart rest else s
  end.

(** [s.trim()] *)
Definition trim (s : JsString) : JsString :=
  rev (trimStart (rev (trimStart s))).

(** [s.split(",")] *)
Fixpoint split (s : JsString) : list JsString :=
  match s with
  | [] => [[]]
  | c :: rest =>
    if (c =? 44)%N then [] :: split rest
    else
      match split rest with
      | item :: items => (c :: item) :: items
      | [] => [[c]]
      end
  end.

(** [s.startsWith("!")] *)
Definition startsWithBang (s : JsString) : bool :=
  match s with
  | c :: _ => (c =? 33)%N
  | [] => false
  end.

(** [s.replace(/^!/, "")] *)
Definition removeBang (s : JsString) : JsString :=
  match s with
  | c :: rest => if (c =? 33)%N then rest else s
  | [] => []
  end.

(** A [Map<string, boolean>]: the entries in insertion order. *)
Definition JsMap : Type := list (JsString * bool).

Fixpoint Map_get (key : JsString) (map : JsMap) : option bool :=
  match map with
  | [] => None
  | (k, v) :: rest => if same k key then Some v else Map_get key rest
  end.

Fixpoint Map_set (key : JsString) (value : bool) (map : JsMap) : JsMap :=
  match map with
  | [] => [(key, value)]
  | (k, v) :: rest =>
    if same k key then (k, value) :: rest
    else (k, v) :: Map_set key value rest
  end.

(** What an entry of the filter says, as the callback of [forEach] reads
    it: nothing when the entry is blank, otherwise a name and whether it
    is included. *)
Definition entry (raw : JsString) : option (JsString * bool) :=
  let item := trim raw in
  match item with
  | [] => None
  | _ :: _ => Some (trim (removeBang item), negb (startsWithBang item))
  end.

(** The callback of [forEach] in [parseFilter]. *)
Definition parseFilter_entry (map : JsMap) (raw : JsString) : JsMap :=
  let item := trim raw in
  match item with
  | [] => map
  | _ :: _ =>
    let isIncluded := negb (startsWithBang item) in
    let name := trim (removeBang item) in
    Map_set name isIncluded map
  end.

Definition parseFilter (input : option JsString) : JsMap :=
  match input with
  | None => []
  | Some [] => []
  | Some (c :: rest) => fold_left parseFilter_entry (split (c :: rest)) []
  end.

Record ServiceOptions : Type := {
  opt_serviceName : option JsString;
  opt_logLevel : option LogLevel;
  opt_verbose : option bool;
  opt_logPath : option JsString;
  opt_globalLogLevel : option LogLevel;
  opt_globalFilter : option JsString
}.

Record ServiceInfo : Type := {
  serviceName : JsString;
  logLevel : LogLevel;
  verbose : bool;
  logPath : JsString;
  globalLogLevel : LogLevel;
  globalFilter : JsMap
}.

(** [a || b] on an optional string, an optional level and an optional
    boolean: [undefined], the empty string and [false] are falsy. *)
Definition or_string (a : option JsString) (b : JsString) : JsString :=
  match a with
  | Some (c :: rest) => c :: rest
  | _ => b
  end.

Definition or_level (a : option LogLevel) (b : LogLevel) : LogLevel :=
  match a with
  | Some level => level
  | None => b
  end.

Definition or_bool (a : option bool) (b : bool) : bool :=
  match a with
  | Some true => true
  | _ => b
  end.

Inductive Transport : Type :=
| File (filename : list JsString) (level : option LogLevel)
| Console.

(** The [winston] logger, by its configuration. *)
Record Winston : Type := {
  level : LogLevel;
  service : JsString;
  transports : list Transport
}.

(** [cwd] is what [process.cwd()] returns. *)
Definition createWinstonLogger (cwd : JsString) (options : ServiceInfo)
    : Winston :=
  let globalLogLevel := globalLogLevel options in
  let targetLogLevel := logLevel options in
  let logLevel :=
    if (LogLevelMap globalLogLevel <? LogLevelMap targetLogLevel)%nat
    then globalLogLevel else targetLogLevel in
  let projectDirectory := or_string (Some (logPath options)) cwd in
  let logDirectory := [projectDirectory; str "logs"] in
  let result := {|
    level := logLevel;
    service := str "user-service";
    transports :=
      [File (logDirectory ++ [str "error.log"]) (Some ERROR);
       File (logDirectory ++ [str "combined.log"]) None]
  |} in
  if verbose options then
    {| level := level result;
       service := service result;
       transports := transports result ++ [Console] |}
  else result.

Record ServiceLogger : Type := {
  logger : Winston;
  options : ServiceInfo
}.

Definition isObservable (self : ServiceLogger) : bool :=
  match Map_get (serviceName (options self)) (globalFilter (options self))
  with
  | None => true
  | Some item => item
  end.

(** The constructor. *)
Definition new (cwd : JsString) (options : ServiceOptions) : ServiceLogger :=
  let info := {|
    serviceName := or_string (opt_serviceName options)
                     (str "nameless-service");
    logLevel := or_level (opt_logLevel options) DEBUG;
    verbose := or_bool (opt_verbose options) true;
    logPath := or_string (opt_logPath options) cwd;
    globalLogLevel := or_level (opt_globalLogLevel options) DEBUG;
    globalFilter := parseFilter (opt_globalFilter options)
  |} in
  let logger := createWinstonLogger cwd info in
  {| logger := {| level := level logger;
                  service := serviceName info;
                  transports := transports logger |};
     options := info |}.

(** A call of a logging method of the [winston] logger. *)
Inductive Call : Type := Log (level : LogLevel) (message : JsString).

Definition info (self : ServiceLogger) (message : JsString) : list Call :=
  if negb (isObservable self) then [] else [Log INFO message].

Definition warning (self : ServiceLogger) (message : JsString) : list Call :=
  [Log WARNING message].

Definition debug (self : ServiceLogger) (message : JsString) : list Call :=
  if negb (isObservable self) then [] else [Log DEBUG message].

(** Returns the calls and the message of the [Error] it returns. *)
Definition error (self : ServiceLogger) (message : JsString)
    : list Call * JsString :=
  ([Log ERROR message], message).

Definition addTransport (self : ServiceLogger) (relativePath : JsString)
    (logLevel : option LogLevel) : ServiceLogger :=
  if negb (verbose (options self)) then self
  else
    let fullLogPath := [logPath (options self); relativePath] in
    let transport :=
      match logLevel with
      | None => File fullLogPath None
      | Some l => File fullLogPath (Some l)
      end in
    {| logger := {| level := level (logger self);
                    service := service (logger self);
                    transports := transports (logger self) ++ [transport] |};
       options := options self |}.

(** The first code unit and the last are not white space. *)
Definition headOk (s : JsString) : bool :=
  match s with
  | c :: _ => negb (isWhiteSpace c)
  | [] => false
  end.

Definition trimmed (s : JsString) : bool := headOk s && headOk (rev s).

(** The options with a service name and a filter, the rest left out. *)
Definition filtered (name filter : JsString) : ServiceOptions := {|
  opt_serviceName := Some name;
  opt_logLevel := None;
  opt_verbose := None;
  opt_logPath := None;
  opt_globalLogLevel := None;
  opt_globalFilter := Some filter
|}.

End Logger.

(** Between two cycles of a run of failures of the timeout revision: the
    poller is polling [f] with the callbacks [error] and [fail], one call
    of the operation is in flight, no timeout is armed, [k] timeouts have
    been set so far, and the delay is [d]. *)
Definition inFlight (f : OperationRef) (error fail : option CallbackRef)
    (k : nat) (d : Q) (w : AdaptivePoller.World) : Prop :=
  AdaptivePoller.polling (AdaptivePoller.self w) = true /\
  AdaptivePoller.operation (AdaptivePoller.self w) = Some f /\
  AdaptivePoller.onError (AdaptivePoller.self w) = error /\
  AdaptivePoller.onFail (AdaptivePoller.self w) = fail /\
  AdaptivePoller.awaiting w = 1%nat /\
  AdaptivePoller.armed w = [] /\
  AdaptivePoller.nextTimeout w = k /\
  AdaptivePoller.currentDelay (AdaptivePoller.self w) == d.


(** ** Tactics *)

(** The three components of the world that resuming an activation of the
    task loop leaves alone, then the two parts that change. *)
Ltac advances_frame :=
  split; [reflexivity|]; split; [reflexivity|]; split; [reflexivity|]; split.

(** * Properties *)

(** ** [TimeSpan] *)

Lemma TimeSpan_new_ok (q : Q) :
  0 <= q -> exists t, TimeSpan.new q = Ok t /\ TimeSpan.ms t = q.
Proof.
  intros Hq. unfold TimeSpan.new.
  destruct (Qlt_le_dec q 0) as [Hlt | Hle].
  - exfalso. apply (Qlt_not_le _ _ Hlt Hq).
  - eexists. split; reflexivity.
Qed.

Lemma TimeSpan_new_negative (q : Q) :
  q < 0 -> TimeSpan.new q = Throw "Milliseconds cannot be negative".
Proof.
  intros Hq. unfold TimeSpan.new.
  destruct (Qlt_le_dec q 0) as [Hlt | Hle]; [reflexivity|].
  exfalso. apply (Qlt_not_le _ _ Hq Hle).
Qed.

Lemma TimeSpan_new_ms (q : Q) (t : TimeSpan) :
  TimeSpan.new q = Ok t -> TimeSpan.ms t = q.
Proof.
  unfold TimeSpan.new. destruct (Qlt_le_dec q 0); [discriminate|].
  intros H. injection H as <-. reflexivity.
Qed.

Lemma TimeSpan_leb_le (a b : TimeSpan) :
  TimeSpan.leb a b = true <-> TimeSpan.ms a <= TimeSpan.ms b.
Proof. unfold TimeSpan.leb, TimeSpan.valueOf. apply Qle_bool_iff. Qed.

Lemma TimeSpan_leb_gt (a b : TimeSpan) :
  TimeSpan.leb a b = false <-> TimeSpan.ms b < TimeSpan.ms a.
Proof.
  unfold TimeSpan.leb, TimeSpan.valueOf. split.
  - intros H. apply Qnot_le_lt. intros Hle.
    apply Qle_bool_iff in Hle. congruence.
  - intros H. destruct (Qle_bool (TimeSpan.ms a) (TimeSpan.ms b)) eqn:E;
      [|reflexivity].
    apply Qle_bool_iff in E. exfalso. apply (Qlt_not_le _ _ H E).
Qed.

(** ** [ExponentialBackoff]: the loop of [execute] *)

Section ExecuteLoop.

Import ExponentialBackoff.

Context {TResult Thrown : Type}.
Variable options : ExponentialBackoffOptions.
Variable operation : Operation TResult Thrown.
Variable random : nat -> Q.
Variable errors : nat -> Thrown.
Variable delays : nat -> TimeSpan.

Lemma failedRounds_succ (k n : nat) :
  failedRounds delays k (S n) =
  Attempt k :: Sleep (delays k) :: failedRounds delays (S k) n.
Proof. reflexivity. Qed.

Lemma failedRounds_attempts (k n : nat) :
  attempts (failedRounds delays k n) = seq k n.
Proof.
  revert k. induction n as [|n IH]; intros k; [reflexivity|].
  rewrite failedRounds_succ. simpl. f_equal.
  change (attempts (failedRounds delays (S k) n) = seq (S k) n). apply IH.
Qed.

Lemma failedRounds_sleeps (k n : nat) :
  sleeps (failedRounds delays k n) = map delays (seq k n).
Proof.
  revert k. induction n as [|n IH]; intros k; [reflexivity|].
  rewrite failedRounds_succ. simpl. f_equal.
  change (sleeps (failedRounds delays (S k) n) = map delays (seq (S k) n)).
  apply IH.
Qed.



(** The update after call [k] is the delay the loop tests next. *)
Lemma delayAt_succ (k : nat) :
  delayAt options random k = Ok (delays k) ->
  delayAt options random (S k) =
  getUpdatedDelay options (random k) (delays k).
Proof. intros H. simpl. rewrite H. reflexivity. Qed.

(** [n] rounds in which the operation throws and the delay stays within
    [maxDelay] take the loop from call [k] to call [k + n]. *)
Lemma loop_failed_rounds (n : nat) :
  forall (k fuel : nat) (lastError : option Thrown),
  (forall i, (k <= i < k + n)%nat -> operation i = inl (errors i)) ->
  (forall i, (k <= i <= k + n)%nat ->
             delayAt options random i = Ok (delays i)) ->
  (forall i, (k <= i < k + n)%nat ->
             TimeSpan.ms (delays i) <= TimeSpan.ms (maxDelay options)) ->
  loop options operation random (n + fuel) k lastError (delays k) =
  (fst (loop options operation random fuel (k + n)
          (match n with O => lastError | S m => Some (errors (k + m)%nat) end)
          (delays (k + n)%nat)),
   failedRounds delays k n ++
   snd (loop options operation random fuel (k + n)
          (match n with O => lastError | S m => Some (errors (k + m)%nat) end)
          (delays (k + n)%nat))).
Proof.
  induction n as [|n IH]; intros k fuel lastError Hop Hdelay Hmax.
  - rewrite Nat.add_0_r. simpl.
    destruct (loop options operation random fuel k lastError (delays k));
      reflexivity.
  - change (S n + fuel)%nat with (S (n + fuel)).
    cbn [loop].
    assert (Hk : (k <= k < k + S n)%nat) by lia.
    rewrite (proj2 (TimeSpan_leb_le _ _) (Hmax k Hk)).
    unfold attempt. rewrite (Hop k Hk).
    rewrite <- (delayAt_succ k) by (apply Hdelay; lia).
    rewrite (Hdelay (S k)) by lia.
    rewrite (IH (S k) fuel (Some (errors k))).
    + replace (S k + n)%nat with (k + S n)%nat by lia.
      replace (match n with
               | O => Some (errors k)
               | S m => Some (errors (S k + m)%nat)
               end) with (Some (errors (k + n)%nat)).
      * rewrite failedRounds_succ. reflexivity.
      * destruct n as [|m]; [rewrite Nat.add_0_r; reflexivity|].
        do 2 f_equal. lia.
    + intros i Hi. apply Hop. lia.
    + intros i Hi. apply Hdelay. lia.
    + intros i Hi. apply Hmax. lia.
Qed.

End ExecuteLoop.

(** ** [ExponentialBackoff.getUpdatedDelay] *)

Lemma getUpdatedDelay_value (options : ExponentialBackoff.ExponentialBackoffOptions)
    (random : Q) (d t : TimeSpan) :
  ExponentialBackoff.getUpdatedDelay options random d = Ok t ->
  TimeSpan.ms t =
  TimeSpan.ms d * ExponentialBackoff.factor options +
  match ExponentialBackoff.jitter options with
  | Some j => random * TimeSpan.ms j
  | None => 0
  end.
Proof.
  unfold ExponentialBackoff.getUpdatedDelay, TimeSpan.fromMilliseconds,
    TimeSpan.totalMilliseconds.
  intros H. apply TimeSpan_new_ms in H. exact H.
Qed.

Lemma getUpdatedDelay_defined (options : ExponentialBackoff.ExponentialBackoffOptions)
    (random : Q) (d : TimeSpan) :
  0 <= ExponentialBackoff.factor options -> 0 <= random ->
  exists t, ExponentialBackoff.getUpdatedDelay options random d = Ok t.
Proof.
  intros Hf Hr.
  unfold ExponentialBackoff.getUpdatedDelay, TimeSpan.fromMilliseconds,
    TimeSpan.totalMilliseconds.
  set (q := _ + _).
  assert (Hq : 0 <= q).
  { subst q. pose proof (TimeSpan.ms_nonneg d) as Hd.
    assert (0 <= TimeSpan.ms d * ExponentialBackoff.factor options)
      by (apply Qmult_le_0_compat; assumption).
    destruct (ExponentialBackoff.jitter options) as [j|].
    - pose proof (TimeSpan.ms_nonneg j) as Hj.
      assert (0 <= random * TimeSpan.ms j)
        by (apply Qmult_le_0_compat; assumption).
      lra.
    - lra. }
  destruct (TimeSpan_new_ok q Hq) as [t [Ht _]]. exists t. exact Ht.
Qed.

(** A negative factor makes the update throw: the promise of [execute]
    is then left pending. *)
Lemma getUpdatedDelay_negative_factor :
  ExponentialBackoff.getUpdatedDelay
    {| ExponentialBackoff.initialDelay := TimeSpan.lit 1000 eq_refl;
       ExponentialBackoff.maxDelay := TimeSpan.lit 5000 eq_refl;
       ExponentialBackoff.factor := -2;
       ExponentialBackoff.jitter := None |}
    0 (TimeSpan.lit 1000 eq_refl)
  = Throw "Milliseconds cannot be negative".
Proof. reflexivity. Qed.

(** C6, as amended.  For [factor >= 1]: without a jitter the next delay is
    exactly [currentDelay * factor]; with a jitter [J] and a draw [r] of
    [Math.random()] in [[0, 1)] it is [currentDelay * factor + r * J.ms],
    which lies in [[currentDelay * factor, currentDelay * factor + J.ms]]
    and is strictly below the upper end when [J.ms > 0]. *)
Theorem C6_getUpdatedDelay_bounds :
  forall (options : ExponentialBackoff.ExponentialBackoffOptions)
         (r : Q) (currentDelay : TimeSpan),
  1 <= ExponentialBackoff.factor options ->
  0 <= r < 1 ->
  exists next,
    ExponentialBackoff.getUpdatedDelay options r currentDelay = Ok next /\
    match ExponentialBackoff.jitter options with
    | None =>
      TimeSpan.ms next ==
      TimeSpan.ms currentDelay * ExponentialBackoff.factor options
    | Some J =>
      TimeSpan.ms next ==
      TimeSpan.ms currentDelay * ExponentialBackoff.factor options
      + r * TimeSpan.ms J /\
      TimeSpan.ms currentDelay * ExponentialBackoff.factor options
      <= TimeSpan.ms next /\
      TimeSpan.ms next <=
      TimeSpan.ms currentDelay * ExponentialBackoff.factor options
      + TimeSpan.ms J /\
      (0 < TimeSpan.ms J ->
       TimeSpan.ms next <
       TimeSpan.ms currentDelay * ExponentialBackoff.factor options
       + TimeSpan.ms J)
    end.
Proof.
  intros options r d Hf [Hr0 Hr1].
  destruct (getUpdatedDelay_defined options r d) as [t Ht]; [lra | lra |].
  exists t. split; [exact Ht|].
  apply getUpdatedDelay_value in Ht.
  destruct (ExponentialBackoff.jitter options) as [J|].
  - pose proof (TimeSpan.ms_nonneg J) as HJ.
    rewrite Ht. split; [reflexivity|].
    assert (0 <= r * TimeSpan.ms J) by (apply Qmult_le_0_compat; assumption).
    assert (r * TimeSpan.ms J <= TimeSpan.ms J) by nra.
    split; [lra|]. split; [lra|].
    intros Hpos. assert (r * TimeSpan.ms J < TimeSpan.ms J) by nra. lra.
  - rewrite Ht. ring.
Qed.

Lemma C6_getUpdatedDelay_bounds_witness :
  exists next,
    ExponentialBackoff.getUpdatedDelay
      {| ExponentialBackoff.initialDelay := TimeSpan.lit 1000 eq_refl;
         ExponentialBackoff.maxDelay := TimeSpan.lit 5000 eq_refl;
         ExponentialBackoff.factor := 2;
         ExponentialBackoff.jitter := Some (TimeSpan.lit 100 eq_refl) |}
      (1 # 2) (TimeSpan.lit 1000 eq_refl) = Ok next /\
    TimeSpan.ms next == 2050.
Proof.
  destruct (C6_getUpdatedDelay_bounds
              {| ExponentialBackoff.initialDelay := TimeSpan.lit 1000 eq_refl;
                 ExponentialBackoff.maxDelay := TimeSpan.lit 5000 eq_refl;
                 ExponentialBackoff.factor := 2;
                 ExponentialBackoff.jitter := Some (TimeSpan.lit 100 eq_refl) |}
              (1 # 2) (TimeSpan.lit 1000 eq_refl))
    as [next [Hnext [Hval _]]].
  - simpl. lra.
  - lra.
  - exists next. split; [exact Hnext|].
    rewrite Hval. reflexivity.
Defined.

(** C6 as stated fails for a jitter of length zero: the interval
    [[currentDelay * factor, currentDelay * factor + 0)] is empty, and the
    next delay is [currentDelay * factor]. *)
Lemma C6_zero_jitter_counterexample :
  let J := TimeSpan.lit 0 eq_refl in
  let options :=
    {| ExponentialBackoff.initialDelay := TimeSpan.lit 1000 eq_refl;
       ExponentialBackoff.maxDelay := TimeSpan.lit 5000 eq_refl;
       ExponentialBackoff.factor := 2;
       ExponentialBackoff.jitter := Some J |} in
  let currentDelay := TimeSpan.lit 1000 eq_refl in
  exists next,
    ExponentialBackoff.getUpdatedDelay options (1 # 2) currentDelay = Ok next /\
    ~ (TimeSpan.ms currentDelay * ExponentialBackoff.factor options
       <= TimeSpan.ms next
       < TimeSpan.ms currentDelay * ExponentialBackoff.factor options
         + TimeSpan.ms J).
Proof.
  cbv zeta. eexists. split; [reflexivity|].
  intros [_ H]. revert H. apply Qle_not_lt. apply Qle_bool_iff. reflexivity.
Qed.

(** ** [ExponentialBackoff.execute] *)

Lemma scenario_delays_defined (i : nat) :
  (i <= 3)%nat ->
  ExponentialBackoff.delayAt scenario (fun _ => 0) i = Ok (scenario_delays i).
Proof.
  intros Hi.
  assert (H : (i = 0 \/ i = 1 \/ i = 2 \/ i = 3)%nat) by lia.
  destruct H as [-> | [-> | [-> | ->]]]; reflexivity.
Qed.

Lemma scenario_delays_within (i : nat) :
  (i < 3)%nat ->
  TimeSpan.ms (scenario_delays i)
  <= TimeSpan.ms (ExponentialBackoff.maxDelay scenario).
Proof.
  intros Hi.
  assert (H : (i = 0 \/ i = 1 \/ i = 2)%nat) by lia.
  destruct H as [-> | [-> | ->]]; apply Qle_bool_iff; reflexivity.
Qed.

(** *** The delay grows past any maximum

    With a factor above 1 and a positive initial delay the delay the
    loop tests exceeds [maxDelay] after finitely many updates, whatever
    [Math.random()] returns: an operation that always throws makes
    [execute] reject. *)

Section Growth.

Variable options : ExponentialBackoff.ExponentialBackoffOptions.
Variable random : nat -> Q.
Hypothesis factor_gt_1 : 1 < ExponentialBackoff.factor options.
Hypothesis initial_pos :
  0 < TimeSpan.ms (ExponentialBackoff.initialDelay options).
Hypothesis random_nonneg : forall i, 0 <= random i.

Lemma delayAt_total (i : nat) :
  ExponentialBackoff.delayAt options random i
  = Ok (ExponentialBackoff.delayOf options random i).
Proof.
  induction i as [|i IH]; [reflexivity|].
  unfold ExponentialBackoff.delayOf. cbn [ExponentialBackoff.delayAt].
  rewrite IH.
  destruct (getUpdatedDelay_defined options (random i)
              (ExponentialBackoff.delayOf options random i)) as [t Ht].
  - lra.
  - apply random_nonneg.
  - rewrite Ht. reflexivity.
Qed.

Lemma delayOf_succ (i : nat) :
  TimeSpan.ms (ExponentialBackoff.delayOf options random i)
  * ExponentialBackoff.factor options
  <= TimeSpan.ms (ExponentialBackoff.delayOf options random (S i)).
Proof.
  pose proof (delayAt_total (S i)) as H.
  cbn [ExponentialBackoff.delayAt] in H. rewrite (delayAt_total i) in H.
  apply getUpdatedDelay_value in H. rewrite H.
  destruct (ExponentialBackoff.jitter options) as [j|]; [|lra].
  pose proof (TimeSpan.ms_nonneg j) as Hj.
  pose proof (random_nonneg i) as Hr.
  assert (0 <= random i * TimeSpan.ms j) by (apply Qmult_le_0_compat; assumption).
  lra.
Qed.

(** Bernoulli's bound: after [i] updates the delay is at least
    [initialDelay * (1 + i * (factor - 1))]. *)
Lemma delayOf_lower (i : nat) :
  TimeSpan.ms (ExponentialBackoff.initialDelay options)
  * (1 + inject_Z (Z.of_nat i) * (ExponentialBackoff.factor options - 1))
  <= TimeSpan.ms (ExponentialBackoff.delayOf options random i).
Proof.
  induction i as [|i IH].
  - change (inject_Z (Z.of_nat 0)) with 0.
    change (ExponentialBackoff.delayOf options random 0)
      with (ExponentialBackoff.initialDelay options).
    lra.
  - pose proof (delayOf_succ i) as Hstep.
    rewrite Nat2Z.inj_succ. unfold Z.succ. rewrite inject_Z_plus.
    change (inject_Z 1) with 1.
    set (a := inject_Z (Z.of_nat i)) in *.
    set (g := ExponentialBackoff.factor options) in *.
    set (d0 := TimeSpan.ms (ExponentialBackoff.initialDelay options)) in *.
    set (x := TimeSpan.ms (ExponentialBackoff.delayOf options random i)) in *.
    set (y := TimeSpan.ms (ExponentialBackoff.delayOf options random (S i)))
      in *.
    assert (Ha : 0 <= a).
    { subst a. change 0 with (inject_Z 0). rewrite <- Zle_Qle. lia. }
    assert (Hag : 0 <= a * (g - 1)) by (apply Qmult_le_0_compat; lra).
    assert (H1 : 0 <= (x - d0 * (1 + a * (g - 1))) * g)
      by (apply Qmult_le_0_compat; lra).
    assert (H2 : 0 <= d0 * (a * (g - 1)) * (g - 1)).
    { apply Qmult_le_0_compat; [|lra].
      apply Qmult_le_0_compat; lra. }
    lra.
Qed.

Lemma delay_exceeds :
  exists n, TimeSpan.ms (ExponentialBackoff.maxDelay options)
            < TimeSpan.ms (ExponentialBackoff.delayOf options random n).
Proof.
  set (g := ExponentialBackoff.factor options) in *.
  set (d0 := TimeSpan.ms (ExponentialBackoff.initialDelay options)) in *.
  set (m := TimeSpan.ms (ExponentialBackoff.maxDelay options)).
  assert (Hc : 0 < d0 * (g - 1)) by (apply Qmult_lt_0_compat; lra).
  destruct (Qarchimedean (m / (d0 * (g - 1)))) as [p Hp].
  exists (Pos.to_nat p).
  pose proof (delayOf_lower (Pos.to_nat p)) as Hlow.
  rewrite positive_nat_Z in Hlow. fold g d0 in Hlow.
  change (inject_Z (Z.pos p)) with (Z.pos p # 1) in Hlow.
  apply (Qmult_lt_r _ _ _ Hc) in Hp.
  assert (Hm : m / (d0 * (g - 1)) * (d0 * (g - 1)) == m).
  { rewrite Qmult_comm. apply Qmult_div_r.
    intros H0. rewrite H0 in Hc. apply (Qlt_irrefl _ Hc). }
  rewrite Hm in Hp.
  eapply Qlt_le_trans; [exact Hp|].
  eapply Qle_trans; [|exact Hlow].
  lra.
Qed.

(** The first test that fails. *)
Lemma delay_first_exceeds :
  exists n,
    TimeSpan.ms (ExponentialBackoff.maxDelay options)
    < TimeSpan.ms (ExponentialBackoff.delayOf options random n) /\
    forall i, (i < n)%nat ->
      TimeSpan.ms (ExponentialBackoff.delayOf options random i)
      <= TimeSpan.ms (ExponentialBackoff.maxDelay options).
Proof.
  destruct (dec_inh_nat_subset_has_unique_least_element
              (fun n => TimeSpan.ms (ExponentialBackoff.maxDelay options)
                        < TimeSpan.ms
                            (ExponentialBackoff.delayOf options random n)))
    as [n [[Hn Hleast] _]].
  - intros n.
    destruct (Qlt_le_dec (TimeSpan.ms (ExponentialBackoff.maxDelay options))
                (TimeSpan.ms (ExponentialBackoff.delayOf options random n)))
      as [H | H]; [left; exact H | right].
    intros Hlt. apply (Qlt_not_le _ _ Hlt H).
  - apply delay_exceeds.
  - exists n. split; [exact Hn|].
    intros i Hi. apply Qnot_lt_le. intros Hlt.
    pose proof (Hleast i Hlt). lia.
Qed.

(** An operation that always throws: [execute] rejects after finitely
    many calls, with the error of the last one. *)
Lemma execute_rejects_eventually {TResult Thrown : Type}
    (operation : ExponentialBackoff.Operation TResult Thrown)
    (errors : nat -> Thrown) :
  (forall i, operation i = inl (errors i)) ->
  exists n, forall fuel, (n < fuel)%nat ->
    fst (ExponentialBackoff.execute options operation random fuel)
    = ExponentialBackoff.Rejected (ExponentialBackoff.lastErrorAfter errors n)
    /\
    ExponentialBackoff.attempts
      (snd (ExponentialBackoff.execute options operation random fuel))
    = seq 0 n.
Proof.
  intros Hop. destruct delay_first_exceeds as [n [Hover Hwithin]].
  exists n. intros fuel Hfuel.
  unfold ExponentialBackoff.execute.
  replace fuel with (n + S (fuel - S n))%nat by lia.
  change (ExponentialBackoff.initialDelay options)
    with (ExponentialBackoff.delayOf options random 0).
  rewrite (loop_failed_rounds options operation random errors
             (ExponentialBackoff.delayOf options random) n
             0 (S (fuel - S n)) None).
  - cbn [Nat.add ExponentialBackoff.loop fst snd].
    rewrite (proj2 (TimeSpan_leb_gt _ _) Hover).
    cbn [fst snd]. rewrite app_nil_r, failedRounds_attempts.
    split; [destruct n; reflexivity | reflexivity].
  - intros i _. apply Hop.
  - intros i _. apply delayAt_total.
  - intros i Hi. apply Hwithin. lia.
Qed.

End Growth.

(** C3.  An operation that throws on every call is attempted exactly
    while the delay the loop tests is within [maxDelay]: if the delay
    first exceeds [maxDelay] after [n] updates, [execute] has made the
    calls [0 .. n-1], slept after each, and rejects with the error of the
    last call (with [null] when no call was made). *)
Theorem C3_execute_rejects_with_last_error :
  forall (TResult Thrown : Type)
         (options : ExponentialBackoff.ExponentialBackoffOptions)
         (operation : ExponentialBackoff.Operation TResult Thrown)
         (random : nat -> Q) (errors : nat -> Thrown)
         (delays : nat -> TimeSpan) (n fuel : nat),
  (forall i, operation i = inl (errors i)) ->
  (forall i, (i <= n)%nat ->
             ExponentialBackoff.delayAt options random i = Ok (delays i)) ->
  (forall i, (i < n)%nat ->
             TimeSpan.ms (delays i)
             <= TimeSpan.ms (ExponentialBackoff.maxDelay options)) ->
  TimeSpan.ms (ExponentialBackoff.maxDelay options) < TimeSpan.ms (delays n) ->
  (n < fuel)%nat ->
  exists effects,
    ExponentialBackoff.execute options operation random fuel =
    (ExponentialBackoff.Rejected (ExponentialBackoff.lastErrorAfter errors n),
     effects) /\
    ExponentialBackoff.attempts effects = seq 0 n /\
    ExponentialBackoff.sleeps effects = map delays (seq 0 n).
Proof.
  intros TResult Thrown options operation random errors delays n fuel
         Hop Hdelay Hmax Hover Hfuel.
  exists (ExponentialBackoff.failedRounds delays 0 n).
  split; [|split].
  - unfold ExponentialBackoff.execute.
    replace fuel with (n + S (fuel - S n))%nat by lia.
    pose proof (Hdelay 0%nat (Nat.le_0_l n)) as H0. simpl in H0.
    injection H0 as H0. rewrite H0.
    rewrite (loop_failed_rounds options operation random errors delays n
               0 (S (fuel - S n)) None).
    + cbn [Nat.add ExponentialBackoff.loop].
      rewrite (proj2 (TimeSpan_leb_gt _ _) Hover).
      cbn [fst snd]. rewrite app_nil_r.
      destruct n; reflexivity.
    + intros i _. apply Hop.
    + intros i Hi. apply Hdelay. lia.
    + intros i Hi. apply Hmax. lia.
  - apply failedRounds_attempts.
  - apply failedRounds_sleeps.
Qed.

Lemma C3_execute_rejects_with_last_error_witness :
  exists effects,
    ExponentialBackoff.execute scenario always_fails (fun _ => 0) 4 =
    (ExponentialBackoff.Rejected (Some "boom"%string), effects) /\
    ExponentialBackoff.attempts effects = [0; 1; 2]%nat /\
    ExponentialBackoff.sleeps effects = map scenario_delays [0; 1; 2]%nat.
Proof.
  apply (C3_execute_rejects_with_last_error nat string scenario always_fails
           (fun _ => 0) (fun _ => "boom"%string) scenario_delays 3 4).
  - intros i. reflexivity.
  - apply scenario_delays_defined.
  - apply scenario_delays_within.
  - apply Qlt_alt. reflexivity.
  - lia.
Defined.

(** C4.  The loop tests [currentDelay <= maxDelay] before it enters an
    attempt: whenever [initialDelay <= maxDelay], equality included, the
    first effect of [execute] is the first call of the operation. *)
Theorem C4_first_attempt_runs :
  forall (TResult Thrown : Type)
         (options : ExponentialBackoff.ExponentialBackoffOptions)
         (operation : ExponentialBackoff.Operation TResult Thrown)
         (random : nat -> Q) (fuel : nat),
  TimeSpan.ms (ExponentialBackoff.initialDelay options)
  <= TimeSpan.ms (ExponentialBackoff.maxDelay options) ->
  exists effects,
    snd (ExponentialBackoff.execute options operation random (S fuel)) =
    ExponentialBackoff.Attempt 0 :: effects.
Proof.
  intros TResult Thrown options operation random fuel Hle.
  unfold ExponentialBackoff.execute. cbn [ExponentialBackoff.loop].
  rewrite (proj2 (TimeSpan_leb_le _ _) Hle).
  destruct (ExponentialBackoff.attempt operation 0) as [error | r].
  - destruct (ExponentialBackoff.getUpdatedDelay options (random 0%nat)
                (ExponentialBackoff.initialDelay options)) as [d | m].
    + destruct (ExponentialBackoff.loop options operation random fuel 1
                  (Some error) d) as [s effects].
      eexists. reflexivity.
    + eexists. reflexivity.
  - eexists. reflexivity.
Qed.

Lemma C4_first_attempt_runs_witness :
  exists effects,
    snd (ExponentialBackoff.execute
           {| ExponentialBackoff.initialDelay := TimeSpan.lit 5000 eq_refl;
              ExponentialBackoff.maxDelay := TimeSpan.lit 5000 eq_refl;
              ExponentialBackoff.factor := 2;
              ExponentialBackoff.jitter := None |}
           always_fails (fun _ => 0) 1) =
    ExponentialBackoff.Attempt 0 :: effects.
Proof.
  apply (C4_first_attempt_runs nat string).
  apply Qle_bool_iff. reflexivity.
Defined.

(** When [initialDelay > maxDelay] the test fails before any attempt:
    [execute] rejects with [null] and the operation is never called. *)
Lemma execute_no_attempt_above_maxDelay :
  forall (TResult Thrown : Type)
         (options : ExponentialBackoff.ExponentialBackoffOptions)
         (operation : ExponentialBackoff.Operation TResult Thrown)
         (random : nat -> Q) (fuel : nat),
  TimeSpan.ms (ExponentialBackoff.maxDelay options)
  < TimeSpan.ms (ExponentialBackoff.initialDelay options) ->
  ExponentialBackoff.execute options operation random (S fuel) =
  (ExponentialBackoff.Rejected None, []).
Proof.
  intros TResult Thrown options operation random fuel Hgt.
  unfold ExponentialBackoff.execute. cbn [ExponentialBackoff.loop].
  rewrite (proj2 (TimeSpan_leb_gt _ _) Hgt). reflexivity.
Qed.



(** ** [AdaptivePoller] (timeout revision): one cycle *)

Lemma Qle_bool_false (a b : Q) : Qle_bool a b = false -> b < a.
Proof.
  intros H. apply Qnot_le_lt. intros Hle.
  apply Qle_bool_iff in Hle. congruence.
Qed.

Lemma Qeq_bool_false (a b : Q) : ~ a == b -> Qeq_bool a b = false.
Proof.
  intros H. destruct (Qeq_bool a b) eqn:E; [|reflexivity].
  exfalso. apply H. apply Qeq_bool_iff. exact E.
Qed.


(** The [catch] block: the new delay and the callback. *)
Lemma onFailure_cases (options : pollerOptions) (error : Thrown) (now : Q)
    (self : AdaptivePoller.Poller) :
  let product := AdaptivePoller.currentDelay self * factor options in
  let self' := fst (AdaptivePoller.onFailure options error now self) in
  let callbacks := snd (AdaptivePoller.onFailure options error now self) in
  (forall e, resultError error = Ok e ->
     (TimeSpan.ms (maxDelay options) <= product ->
      AdaptivePoller.currentDelay self' = TimeSpan.ms (maxDelay options) /\
      callbacks = callOptional CallOnFail (AdaptivePoller.onFail self) e) /\
     (product < TimeSpan.ms (maxDelay options) ->
      AdaptivePoller.currentDelay self' = product /\
      callbacks = callOptional CallOnError (AdaptivePoller.onError self) e))
  /\
  (forall m, resultError error = Throw m ->
     AdaptivePoller.currentDelay self' = product /\ callbacks = []).
Proof.
  cbv zeta. unfold AdaptivePoller.onFailure, TimeSpan.totalMilliseconds.
  cbn [AdaptivePoller.currentDelay AdaptivePoller.set_currentDelay
       AdaptivePoller.set_lastErrorTime AdaptivePoller.onFail
       AdaptivePoller.onError].
  split.
  - intros e He. rewrite He.
    destruct (Qle_bool (TimeSpan.ms (maxDelay options))
                (AdaptivePoller.currentDelay self * factor options)) eqn:E.
    + apply Qle_bool_iff in E. split.
      * intros _. split; reflexivity.
      * intros H. exfalso. apply (Qlt_not_le _ _ H E).
    + apply Qle_bool_false in E. split.
      * intros H. exfalso. apply (Qlt_not_le _ _ E H).
      * intros _. split; reflexivity.
  - intros m Hm. rewrite Hm. split; reflexivity.
Qed.

Lemma onFailure_frame (options : pollerOptions) (error : Thrown) (now : Q)
    (self : AdaptivePoller.Poller) :
  let self' := fst (AdaptivePoller.onFailure options error now self) in
  AdaptivePoller.polling self' = AdaptivePoller.polling self /\
  AdaptivePoller.operation self' = AdaptivePoller.operation self /\
  AdaptivePoller.onError self' = AdaptivePoller.onError self /\
  AdaptivePoller.onFail self' = AdaptivePoller.onFail self /\
  AdaptivePoller.currentTimeout self' = AdaptivePoller.currentTimeout self /\
  AdaptivePoller.lastErrorTime self' = Some now.
Proof.
  cbv zeta. unfold AdaptivePoller.onFailure.
  destruct (resultError error); [destruct (Qle_bool _ _)|];
    cbn; repeat split; reflexivity.
Qed.

(** The callbacks of the [catch] block are callbacks, one at most. *)
Lemma onFailure_callbacks (options : pollerOptions) (error : Thrown)
    (now : Q) (self : AdaptivePoller.Poller) :
  let callbacks := snd (AdaptivePoller.onFailure options error now self) in
  filter isCallback callbacks = callbacks /\
  filter isCallOperation callbacks = [] /\
  (List.length callbacks <= 1)%nat.
Proof.
  cbv zeta. unfold AdaptivePoller.onFailure.
  destruct (resultError error); [destruct (Qle_bool _ _)|]; cbn [snd].
  - destruct (AdaptivePoller.onFail _); cbn; repeat split; lia.
  - destruct (AdaptivePoller.onError _); cbn; repeat split; lia.
  - cbn. repeat split; lia.
Qed.

Lemma uncaught_no_operation (outcome : AdaptivePoller.Outcome) :
  filter isCallOperation (AdaptivePoller.uncaught outcome) = [] /\
  filter isCallback (AdaptivePoller.uncaught outcome) = [].
Proof.
  unfold AdaptivePoller.uncaught. destruct outcome as [error|];
    [destruct (resultError error)|]; split; reflexivity.
Qed.

Lemma onSuccess_frame (options : pollerOptions) (now : Q)
    (self : AdaptivePoller.Poller) :
  let self' := AdaptivePoller.onSuccess options now self in
  AdaptivePoller.polling self' = AdaptivePoller.polling self /\
  AdaptivePoller.operation self' = AdaptivePoller.operation self /\
  AdaptivePoller.onError self' = AdaptivePoller.onError self /\
  AdaptivePoller.onFail self' = AdaptivePoller.onFail self /\
  AdaptivePoller.currentTimeout self' = AdaptivePoller.currentTimeout self /\
  AdaptivePoller.lastErrorTime self' = AdaptivePoller.lastErrorTime self.
Proof.
  cbv zeta. unfold AdaptivePoller.onSuccess.
  destruct (_ || _); cbn; repeat split; reflexivity.
Qed.

(** What a cycle leaves in the world once the awaited operation has
    settled: the effects of [try]/[catch], then the timeout of [finally],
    then the rejection when the [catch] block threw. *)
Lemma runPoll_resume_unfold (options : pollerOptions)
    (outcome : AdaptivePoller.Outcome) (now : Q) (w : AdaptivePoller.World) :
  let r := AdaptivePoller.afterOperation options outcome now
             (AdaptivePoller.self w) in
  let w' := AdaptivePoller.runPoll_resume options outcome now w in
  AdaptivePoller.self w' =
  AdaptivePoller.set_currentTimeout (AdaptivePoller.nextTimeout w) (fst r) /\
  AdaptivePoller.effects w' =
  AdaptivePoller.effects w ++ snd r
  ++ [SetTimeout (AdaptivePoller.nextTimeout w)
        (AdaptivePoller.currentDelay (fst r))]
  ++ AdaptivePoller.uncaught outcome /\
  AdaptivePoller.awaiting w' = pred (AdaptivePoller.awaiting w) /\
  AdaptivePoller.armed w' =
  AdaptivePoller.nextTimeout w :: AdaptivePoller.armed w /\
  AdaptivePoller.nextTimeout w' = S (AdaptivePoller.nextTimeout w).
Proof.
  cbv zeta. unfold AdaptivePoller.runPoll_resume.
  destruct (AdaptivePoller.afterOperation options outcome now
              (AdaptivePoller.self w)) as [p es].
  cbn. rewrite <- !app_assoc. repeat split; reflexivity.
Qed.



(** ** [AdaptivePoller] (timeout revision): failures in a row *)

Lemma run_app (options : pollerOptions) (ts1 ts2 : list AdaptivePoller.Turn)
    (w : AdaptivePoller.World) :
  AdaptivePoller.run options (ts1 ++ ts2) w =
  match AdaptivePoller.run options ts1 w with
  | Some w' => AdaptivePoller.run options ts2 w'
  | None => None
  end.
Proof.
  revert w. induction ts1 as [|t ts1 IH]; intros w; cbn.
  - reflexivity.
  - destruct (AdaptivePoller.turn options t w); [apply IH | reflexivity].
Qed.

(** A failed cycle and the timeout it sets, when the thrown value has a
    [resultError]: the next call is in flight, with the delay clamped and
    [onFail] called, or with the product and [onError] called. *)
Lemma failed_cycle (options : pollerOptions) (f : OperationRef)
    (error fail : option CallbackRef) (k : nat) (d : Q) (thrown : Thrown)
    (e : JsError) (now : Q) (w : AdaptivePoller.World) :
  inFlight f error fail k d w ->
  resultError thrown = Ok e ->
  exists w',
    AdaptivePoller.run options
      [AdaptivePoller.Settles (Some thrown) now; AdaptivePoller.Fires k] w
    = Some w' /\
    (TimeSpan.ms (maxDelay options) <= d * factor options ->
     inFlight f error fail (S k) (TimeSpan.ms (maxDelay options)) w' /\
     filter isCallback (AdaptivePoller.effects w')
     = filter isCallback (AdaptivePoller.effects w)
       ++ callOptional CallOnFail fail e) /\
    (d * factor options < TimeSpan.ms (maxDelay options) ->
     inFlight f error fail (S k) (d * factor options) w' /\
     filter isCallback (AdaptivePoller.effects w')
     = filter isCallback (AdaptivePoller.effects w)
       ++ callOptional CallOnError error e).
Proof.
  intros [Hp [Ho [He [Hf [Haw [Harm [Hk Hd]]]]]]] Hok.
  destruct (runPoll_resume_unfold options (Some thrown) now w)
    as [Hself [Heff [Haw1 [Harm1 Hnext1]]]].
  cbn [AdaptivePoller.afterOperation AdaptivePoller.uncaught] in Hself, Heff.
  rewrite Hok in Heff. rewrite app_nil_r in Heff.
  destruct (onFailure_frame options thrown now (AdaptivePoller.self w))
    as [Hp1 [Ho1 [He1 [Hf1 _]]]].
  destruct (onFailure_cases options thrown now (AdaptivePoller.self w))
    as [Hcases _].
  destruct (Hcases e Hok) as [Hclamp Hgrow].
  destruct (onFailure_callbacks options thrown now (AdaptivePoller.self w))
    as [Hcb _].
  set (w1 := AdaptivePoller.runPoll_resume options (Some thrown) now w) in *.
  set (r := AdaptivePoller.onFailure options thrown now
              (AdaptivePoller.self w)) in *.
  assert (Hrun :
    AdaptivePoller.run options
      [AdaptivePoller.Settles (Some thrown) now; AdaptivePoller.Fires k] w
    = Some
        {| AdaptivePoller.self := AdaptivePoller.self w1;
           AdaptivePoller.awaiting := 1;
           AdaptivePoller.armed := [];
           AdaptivePoller.nextTimeout := S k;
           AdaptivePoller.effects :=
             AdaptivePoller.effects w1 ++ [CallOperation f] |}).
  { cbn [AdaptivePoller.run AdaptivePoller.turn]. rewrite Haw.
    fold w1. rewrite Harm1, Harm, Hk.
    cbn [existsb filter]. rewrite Nat.eqb_refl. cbn [orb negb].
    unfold AdaptivePoller.runPoll.
    cbn [AdaptivePoller.self AdaptivePoller.awaiting AdaptivePoller.armed
         AdaptivePoller.nextTimeout AdaptivePoller.effects].
    rewrite Hself.
    cbn [AdaptivePoller.polling AdaptivePoller.operation
         AdaptivePoller.set_currentTimeout].
    rewrite Hp1, Ho1, Hp, Ho. cbn [negb].
    rewrite Haw1, Haw, Hnext1, Hk. reflexivity. }
  eexists. split; [exact Hrun|].
  assert (Hframe : forall d',
    AdaptivePoller.currentDelay (fst r) == d' ->
    inFlight f error fail (S k) d'
      {| AdaptivePoller.self := AdaptivePoller.self w1;
         AdaptivePoller.awaiting := 1;
         AdaptivePoller.armed := [];
         AdaptivePoller.nextTimeout := S k;
         AdaptivePoller.effects :=
           AdaptivePoller.effects w1 ++ [CallOperation f] |}).
  { intros d' Hd'. unfold inFlight.
    cbn [AdaptivePoller.self AdaptivePoller.awaiting AdaptivePoller.armed
         AdaptivePoller.nextTimeout].
    rewrite Hself.
    cbn [AdaptivePoller.polling AdaptivePoller.operation
         AdaptivePoller.onError AdaptivePoller.onFail
         AdaptivePoller.currentDelay AdaptivePoller.set_currentTimeout].
    rewrite Hp1, Ho1, He1, Hf1, Hp, Ho, He, Hf.
    repeat (split; [reflexivity|]). exact Hd'. }
  assert (Hcalls :
    filter isCallback (AdaptivePoller.effects w1 ++ [CallOperation f])
    = filter isCallback (AdaptivePoller.effects w) ++ snd r).
  { rewrite Heff, !filter_app, Hcb. cbn [filter isCallback].
    rewrite !app_nil_r. reflexivity. }
  cbn [AdaptivePoller.effects]. rewrite Hcalls.
  split.
  - intros Hle. rewrite <- Hd in Hle. destruct (Hclamp Hle) as [Hdel Hsnd].
    rewrite Hsnd, Hf. split; [|reflexivity].
    apply Hframe. rewrite Hdel. reflexivity.
  - intros Hlt. rewrite <- Hd in Hlt. destruct (Hgrow Hlt) as [Hdel Hsnd].
    rewrite Hsnd, He. split; [|reflexivity].
    apply Hframe. rewrite Hdel, Hd. reflexivity.
Qed.

Section ConsecutiveFailures.

Variables (reset step : TimeSpan) (log : option ServiceLogger).
Variables (f : OperationRef) (onError onFail : CallbackRef).
Variables (errors : nat -> Thrown) (seen : nat -> JsError) (clock : nat -> Q).
Hypothesis errors_seen : forall i, resultError (errors i) = Ok (seen i).

(** Once the delay is 5000 it stays there, and every failure calls
    [onFail]. *)
Lemma saturated_failures (n : nat) :
  forall (k : nat) (w : AdaptivePoller.World),
  inFlight f (Some onError) (Some onFail) k 5000 w ->
  exists w',
    AdaptivePoller.run (pollerScenario reset step log)
      (AdaptivePoller.failures errors clock 0 k n) w = Some w' /\
    inFlight f (Some onError) (Some onFail) (k + n) 5000 w' /\
    filter isCallback (AdaptivePoller.effects w')
    = filter isCallback (AdaptivePoller.effects w)
      ++ map (fun i => CallOnFail onFail (seen i)) (seq k n).
Proof.
  induction n as [|n IH]; intros k w Hw.
  - exists w. split; [reflexivity|]. rewrite Nat.add_0_r, app_nil_r.
    split; [exact Hw | reflexivity].
  - destruct (failed_cycle (pollerScenario reset step log) f (Some onError)
                (Some onFail) k 5000 (errors k) (seen k) (clock k) w Hw
                (errors_seen k)) as [w1 [Hrun1 [Hclamp _]]].
    destruct Hclamp as [Hw1 Hcalls1].
    { apply Qle_bool_iff. reflexivity. }
    destruct (IH (S k) w1 Hw1) as [w' [Hrun [Hw' Hcalls]]].
    exists w'. split; [|split].
    + change (AdaptivePoller.failures errors clock 0 k (S n))
        with ([AdaptivePoller.Settles (Some (errors k)) (clock k);
               AdaptivePoller.Fires k]
              ++ AdaptivePoller.failures errors clock 0 (S k) n).
      rewrite run_app, Hrun1. exact Hrun.
    + replace (k + S n)%nat with (S k + n)%nat by lia. exact Hw'.
    + rewrite Hcalls, Hcalls1. cbn [callOptional seq map].
      rewrite <- app_assoc. reflexivity.
Qed.

End ConsecutiveFailures.

(** C2, as amended.  With 1000 ms, at most 5000 ms and factor 2, both
    callbacks given, and an operation that throws every time an [Error]
    or a value that [JSON.stringify] accepts: the delay is 1000 after
    [start], then 2000, 4000 and 5000 after the first, second and third
    failure in a row, and 5000 after every later one.  The first two
    failures call [onError]; [onFail] is called for the first time by the
    third failure, the one that clamps the delay, and by every failure
    after it. *)
Theorem C2_consecutive_failures :
  forall (reset step : TimeSpan) (log : option ServiceLogger)
         (f : OperationRef) (onError onFail : CallbackRef)
         (errors : nat -> Thrown) (seen : nat -> JsError) (clock : nat -> Q)
         (n : nat),
  (forall i, resultError (errors i) = Ok (seen i)) ->
  exists w,
    afterFailures (pollerScenario reset step log) f (Some onError)
      (Some onFail) errors clock n = Some w /\
    AdaptivePoller.currentDelay (AdaptivePoller.self w)
    == match n with
       | 0%nat => 1000
       | 1%nat => 2000
       | 2%nat => 4000
       | _ => 5000
       end /\
    filter isCallback (AdaptivePoller.effects w)
    = map (fun i => if (i <? 2)%nat then CallOnError onError (seen i)
                    else CallOnFail onFail (seen i))
          (seq 0 n).
Proof.
  intros reset step log f onError onFail errors seen clock n Hseen.
  unfold afterFailures.
  set (options := pollerScenario reset step log).
  set (w0 := AdaptivePoller.start options f (Some onError) (Some onFail)
               (AdaptivePoller.initial options)).
  assert (H0 : inFlight f (Some onError) (Some onFail) 0 1000 w0).
  { unfold inFlight. repeat (split; [reflexivity|]). reflexivity. }
  assert (E0 : filter isCallback (AdaptivePoller.effects w0) = []).
  { unfold w0, options. destruct log; reflexivity. }
  destruct n as [|n].
  { exists w0. split; [reflexivity|]. split; [apply H0 | exact E0]. }
  destruct (failed_cycle options f (Some onError) (Some onFail) 0 1000
              (errors 0%nat) (seen 0%nat) (clock 0%nat) w0 H0 (Hseen 0%nat))
    as [w1 [R1 [_ G1]]].
  destruct G1 as [H1 E1]; [reflexivity|].
  rewrite E0 in E1. cbn [callOptional app] in E1.
  destruct n as [|n].
  { exists w1. split; [exact R1|]. split; [|exact E1].
    destruct H1 as [_ [_ [_ [_ [_ [_ [_ Hd]]]]]]]. rewrite Hd. reflexivity. }
  destruct (failed_cycle options f (Some onError) (Some onFail) 1
              (1000 * factor options) (errors 1%nat) (seen 1%nat)
              (clock 1%nat) w1 H1 (Hseen 1%nat))
    as [w2 [R2 [_ G2]]].
  destruct G2 as [H2 E2]; [reflexivity|].
  rewrite E1 in E2. cbn [callOptional app] in E2.
  assert (R12 :
    AdaptivePoller.run options
      (AdaptivePoller.failures errors clock 0 0 2) w0 = Some w2).
  { change (AdaptivePoller.failures errors clock 0 0 2)
      with ([AdaptivePoller.Settles (Some (errors 0%nat)) (clock 0%nat);
             AdaptivePoller.Fires 0]
            ++ [AdaptivePoller.Settles (Some (errors 1%nat)) (clock 1%nat);
                AdaptivePoller.Fires 1]).
    rewrite run_app, R1. exact R2. }
  destruct n as [|n].
  { exists w2. split; [exact R12|]. split; [|exact E2].
    destruct H2 as [_ [_ [_ [_ [_ [_ [_ Hd]]]]]]]. rewrite Hd. reflexivity. }
  destruct (failed_cycle options f (Some onError) (Some onFail) 2
              (1000 * factor options * factor options) (errors 2%nat)
              (seen 2%nat) (clock 2%nat) w2 H2 (Hseen 2%nat))
    as [w3 [R3 [G3 _]]].
  destruct G3 as [H3 E3]; [apply Qle_bool_iff; reflexivity|].
  rewrite E2 in E3. cbn [callOptional app] in E3.
  destruct (saturated_failures reset step log f onError onFail errors seen
              clock Hseen n 3 w3 H3) as [w [R [Hw E]]].
  exists w. split; [|split].
  - change (AdaptivePoller.failures errors clock 0 0 (S (S (S n))))
      with (AdaptivePoller.failures errors clock 0 0 2
            ++ [AdaptivePoller.Settles (Some (errors 2%nat)) (clock 2%nat);
                AdaptivePoller.Fires 2]
            ++ AdaptivePoller.failures errors clock 0 3 n).
    rewrite run_app, R12, run_app, R3. exact R.
  - destruct Hw as [_ [_ [_ [_ [_ [_ [_ Hd]]]]]]]. exact Hd.
  - rewrite E, E3. cbn [seq map app].
    do 3 f_equal. apply map_ext_in. intros i Hi. apply in_seq in Hi.
    destruct (i <? 2)%nat eqn:Ei; [|reflexivity].
    apply Nat.ltb_lt in Ei. lia.
Qed.

Lemma C2_consecutive_failures_witness :
  exists w,
    afterFailures
      (pollerScenario (TimeSpan.lit 300000 eq_refl)
         (TimeSpan.lit 1000 eq_refl) None)
      1%nat (Some 2%nat) (Some 3%nat)
      (fun _ => ThrownValue "503") (fun _ => 1700000000000) 6 = Some w /\
    AdaptivePoller.currentDelay (AdaptivePoller.self w) == 5000 /\
    filter isCallback (AdaptivePoller.effects w)
    = [CallOnError 2%nat (MkError "503"); CallOnError 2%nat (MkError "503");
       CallOnFail 3%nat (MkError "503"); CallOnFail 3%nat (MkError "503");
       CallOnFail 3%nat (MkError "503"); CallOnFail 3%nat (MkError "503")].
Proof.
  apply (C2_consecutive_failures (TimeSpan.lit 300000 eq_refl)
           (TimeSpan.lit 1000 eq_refl) None 1%nat 2%nat 3%nat
           (fun _ => ThrownValue "503") (fun _ => MkError "503")
           (fun _ => 1700000000000) 6).
  intros i. reflexivity.
Defined.

(** C2 as stated fails: [onFail] does not wait for the fourth failure, the
    third one in a row already calls it. *)
Lemma C2_third_failure_counterexample :
  let options := pollerScenario (TimeSpan.lit 300000 eq_refl)
                   (TimeSpan.lit 1000 eq_refl) None in
  exists w,
    afterFailures options 1%nat (Some 2%nat) (Some 3%nat)
      (fun _ => ThrownError (MkError "boom"))
      (fun i => 1700000000000 + inject_Z (Z.of_nat i)) 3 = Some w /\
    AdaptivePoller.currentDelay (AdaptivePoller.self w) = 5000 /\
    filter isCallOnFail (AdaptivePoller.effects w)
    = [CallOnFail 3%nat (MkError "boom")] /\
    filter isCallOnFail (AdaptivePoller.effects w) <> [].
Proof.
  cbv zeta. eexists. split; [vm_compute; reflexivity|].
  split; [reflexivity|]. split; [reflexivity | discriminate].
Qed.

(** ** [AdaptivePoller] (timeout revision): a successful cycle *)





(** ** [AdaptivePoller] (timeout revision): the delay stays in range *)



Section DelayInRange.

Variable options : pollerOptions.
Hypothesis initial_le_max :
  TimeSpan.ms (initialDelay options) <= TimeSpan.ms (maxDelay options).
Hypothesis factor_ge_1 : 1 <= factor options.










End DelayInRange.




(** ** [AdaptivePoller] (task revision): promises *)

Lemma find_snoc {A : Type} (P : A -> bool) (xs : list A) (a : A) :
  find P (xs ++ [a]) =
  match find P xs with
  | Some y => Some y
  | None => if P a then Some a else None
  end.
Proof.
  induction xs as [|x xs IH]; simpl.
  - reflexivity.
  - destruct (P x); [reflexivity | exact IH].
Qed.

Section TaskPromises.

Import TaskPoller.

Lemma fate_settle (x q : PromiseRef) (f : Fate) (w : World) :
  fate x (settle q f w) =
  match fate x w with
  | Some g => Some g
  | None => if Nat.eqb q x then Some f else None
  end.
Proof.
  unfold fate, settle. cbn [settled]. rewrite find_snoc. cbn [fst].
  destruct (find (fun s => Nat.eqb (fst s) x) (settled w)) as [[q' g]|].
  - reflexivity.
  - destruct (Nat.eqb q x); reflexivity.
Qed.

Lemma fate_settle_other (x q : PromiseRef) (f : Fate) (w : World) :
  q <> x -> fate x (settle q f w) = fate x w.
Proof.
  intros Hne. rewrite fate_settle.
  destruct (fate x w); [reflexivity|].
  apply Nat.eqb_neq in Hne. rewrite Hne. reflexivity.
Qed.

Lemma fate_settle_keeps (x q : PromiseRef) (f : Fate) (w : World) :
  fate x w <> None -> fate x (settle q f w) <> None.
Proof.
  intros H. rewrite fate_settle. destruct (fate x w); [discriminate | congruence].
Qed.

(** [fate] reads the list of settled promises only. *)
Lemma fate_settled (x : PromiseRef) (w w' : World) :
  settled w' = settled w -> fate x w' = fate x w.
Proof. intros H. unfold fate. rewrite H. reflexivity. Qed.

Lemma fate_snoc (x q : PromiseRef) (f : Fate) (w w' : World) :
  settled w' = settled w ++ [(q, f)] ->
  fate x w' = fate x (settle q f w).
Proof. intros H. unfold fate, settle. rewrite H. reflexivity. Qed.

(** A promise that was not handed out yet is not settled. *)
Lemma fate_fresh (x : PromiseRef) (w : World) :
  (forall q f, In (q, f) (settled w) -> (q < nextPromise w)%nat) ->
  (nextPromise w <= x)%nat -> fate x w = None.
Proof.
  intros Hs Hx. unfold fate.
  destruct (find (fun s => Nat.eqb (fst s) x) (settled w)) as [[q g]|] eqn:E;
    [|reflexivity].
  apply find_some in E. destruct E as [Hin Heq]. cbn [fst] in Heq.
  apply Nat.eqb_eq in Heq. subst q.
  pose proof (Hs x g Hin). lia.
Qed.

End TaskPromises.

(** ** [AdaptivePoller] (task revision): resuming [runPoll] *)

Section TaskResume.

Import TaskPoller.

Variable options : pollerOptions.

Lemma callOptional_no_operation (call : CallbackRef -> JsError -> Effect)
    (callback : option CallbackRef) (e : JsError) :
  (forall f x, isCallOperation (call f x) = false) ->
  filter isCallOperation (callOptional call callback e) = [].
Proof.
  intros H. destruct callback as [f|]; [|reflexivity].
  simpl. rewrite H. reflexivity.
Qed.

Lemma logOptional_no_operation (log : ServiceLogger -> string -> Effect)
    (message : string) :
  (forall l x, isCallOperation (log l x) = false) ->
  filter isCallOperation (logOptional log options message) = [].
Proof.
  intros H. unfold logOptional. destruct (logger options) as [l|];
    [|reflexivity].
  simpl. rewrite H. reflexivity.
Qed.

Lemma advances_emit (p : PromiseRef) (es : list Effect) (w w' : World) :
  (isPolling (self w) = false -> filter isCallOperation es = []) ->
  advances p (emit es w) w' -> advances p w w'.
Proof.
  intros Hes [Hself [Hstops [Hnext [[es' [Heff Hq]] Hcase]]]].
  cbn [emit self stops nextPromise effects loops settled] in *.
  split; [exact Hself|]. split; [exact Hstops|]. split; [exact Hnext|].
  split; [|exact Hcase].
  exists (es ++ es'). split.
  - rewrite Heff, app_assoc. reflexivity.
  - intros Hp. rewrite filter_app, (Hes Hp), (Hq Hp). reflexivity.
Qed.

Lemma finallyWait_advances (p : PromiseRef) (delay last : Q)
    (returning : bool) (w : World) :
  advances p w (finallyWait p delay last returning w).
Proof.
  unfold finallyWait, advances.
  destruct (TimeSpan.fromMilliseconds delay) as [d | m];
    cbn [suspend emit settle self stops nextPromise effects loops settled].
  - advances_frame.
    + exists [WaitFor d]. split; [reflexivity|]. intros _. reflexivity.
    + left. eexists. split; [|split; reflexivity]. reflexivity.
  - advances_frame.
    + exists []. split; [rewrite app_nil_r; reflexivity|].
      intros _. reflexivity.
    + right. eexists. split; reflexivity.
Qed.

Lemma finallyThrowing_advances (p : PromiseRef) (delay last : Q)
    (message : string) (w : World) :
  advances p w (finallyThrowing p delay last message w).
Proof.
  unfold finallyThrowing, advances.
  destruct (TimeSpan.fromMilliseconds delay) as [d | m];
    cbn [suspend emit settle self stops nextPromise effects loops settled].
  - advances_frame.
    + exists [WaitFor d]. split; [reflexivity|]. intros _. reflexivity.
    + left. eexists. split; [|split; reflexivity]. reflexivity.
  - advances_frame.
    + exists []. split; [rewrite app_nil_r; reflexivity|].
      intros _. reflexivity.
    + right. eexists. split; reflexivity.
Qed.

Lemma onFailure_advances (p : PromiseRef) (delay : Q) (error : Thrown)
    (now : Q) (w : World) :
  advances p w (onFailure options p delay error now w).
Proof.
  unfold onFailure.
  destruct (resultError error) as [e | m];
    [destruct (Qle_bool _ _)|].
  - eapply advances_emit; [|apply finallyWait_advances].
    intros _. apply callOptional_no_operation. reflexivity.
  - eapply advances_emit; [|apply finallyWait_advances].
    intros _. apply callOptional_no_operation. reflexivity.
  - apply finallyThrowing_advances.
Qed.

Lemma onSuccess_advances (p : PromiseRef) (delay last now : Q) (w : World) :
  advances p w (onSuccess options p delay last now w).
Proof.
  unfold onSuccess.
  destruct (negb (isPolling (self w))); [apply finallyWait_advances|].
  destruct (_ || _); apply finallyWait_advances.
Qed.

Lemma iterate_advances (p : PromiseRef) (delay last now : Q) (w : World) :
  advances p w (iterate options p delay last now w).
Proof.
  unfold iterate. destruct (isPolling (self w)) eqn:Hp.
  - destruct (operation (self w)) as [f|]; [|apply onFailure_advances].
    unfold advances.
    cbn [suspend emit self stops nextPromise effects loops settled].
    advances_frame.
    + exists [CallOperation f]. split; [reflexivity|].
      rewrite Hp. discriminate.
    + left. eexists. split; [|split; reflexivity]. reflexivity.
  - unfold advances.
    cbn [settle self stops nextPromise effects loops settled].
    advances_frame.
    + exists []. split; [rewrite app_nil_r; reflexivity|].
      intros _. reflexivity.
    + right. eexists. split; reflexivity.
Qed.

Lemma resume_advances (l : Loop) (outcome : Outcome) (now : Q) (w : World) :
  advances (promise l) w (resume options l outcome now w).
Proof.
  unfold resume. destruct (point l) as [|[|]|message].
  - destruct outcome as [error|];
      [apply onFailure_advances | apply onSuccess_advances].
  - unfold advances.
    cbn [settle self stops nextPromise effects loops settled].
    advances_frame.
    + exists []. split; [rewrite app_nil_r; reflexivity|].
      intros _. reflexivity.
    + right. eexists. split; reflexivity.
  - apply iterate_advances.
  - unfold advances.
    cbn [settle self stops nextPromise effects loops settled].
    advances_frame.
    + exists []. split; [rewrite app_nil_r; reflexivity|].
      intros _. reflexivity.
    + right. eexists. split; reflexivity.
Qed.

End TaskResume.

(** ** [AdaptivePoller] (task revision): what holds while stopping *)

Section TaskStopping.

Import TaskPoller.

Variable options : pollerOptions.

(** A promise is settled and the rest of the world stays in order. *)
Lemma settle_wellFormed (q : PromiseRef) (f : Fate) (w w' : World) :
  wellFormed w ->
  loops w' = loops w ->
  (forall s, In s (stops w') -> In s (stops w) /\ stopPromise s <> q) ->
  settled w' = settled w ++ [(q, f)] ->
  (nextPromise w <= nextPromise w')%nat ->
  (q < nextPromise w')%nat ->
  (forall l, In l (loops w) -> promise l <> q) ->
  wellFormed w'.
Proof.
  intros [HA [HB [HC HD]]] Hloops Hstops Hsettled Hnext Hq Hfresh.
  split; [|split; [|split]].
  - intros x g Hin. rewrite Hsettled in Hin.
    apply in_app_or in Hin. destruct Hin as [Hin | [Heq | []]].
    + pose proof (HA x g Hin). lia.
    + injection Heq as <- <-. exact Hq.
  - intros l Hl. rewrite Hloops in Hl. destruct (HB l Hl) as [Hlt Hnone].
    split; [lia|].
    rewrite (fate_snoc _ q f w w' Hsettled).
    rewrite fate_settle_other; [exact Hnone|].
    intros Heq. apply (Hfresh l Hl). symmetry. exact Heq.
  - intros s Hs. destruct (Hstops s Hs) as [Hin Hne].
    destruct (HC s Hin) as [Hlt Hnone]. split; [lia|].
    rewrite (fate_snoc _ q f w w' Hsettled).
    rewrite fate_settle_other; [exact Hnone|].
    intros Heq. apply Hne. symmetry. exact Heq.
  - intros l s Hl Hs. rewrite Hloops in Hl.
    apply (HD l s Hl). apply (Hstops s Hs).
Qed.

Lemma settle_stopping (t p q : PromiseRef) (f : Fate) (w w' : World) :
  stopping t p w ->
  self w' = self w ->
  loops w' = loops w ->
  (forall s, In s (stops w') -> In s (stops w) /\ stopPromise s <> q) ->
  settled w' = settled w ++ [(q, f)] ->
  (nextPromise w <= nextPromise w')%nat ->
  (q < nextPromise w')%nat ->
  (forall l, In l (loops w) -> promise l <> q) ->
  (q = p -> fate t w <> None) ->
  stopping t p w'.
Proof.
  intros [Hwf [Hpoll [Hp [Hown [Hloop Hfate]]]]]
         Hself Hloops Hstops Hsettled Hnext Hq Hfresh Hqp.
  split; [|split; [|split; [|split; [|split]]]].
  - apply (settle_wellFormed q f w w'); assumption.
  - rewrite Hself. exact Hpoll.
  - lia.
  - intros s Hs. apply Hown. apply (Hstops s Hs).
  - intros l Hl. rewrite Hloops in Hl. apply Hloop. exact Hl.
  - rewrite !(fate_snoc _ q f w w' Hsettled). intros Hsome.
    apply fate_settle_keeps.
    rewrite fate_settle in Hsome.
    destruct (fate p w) eqn:E.
    + apply Hfate. discriminate.
    + destruct (Nat.eqb q p) eqn:Eq; [|congruence].
      apply Nat.eqb_eq in Eq. apply Hqp. exact Eq.
Qed.

(** The activation with promise [q] is suspended again. *)
Lemma suspend_stopping (t p q : PromiseRef) (l : Loop) (w w' : World) :
  stopping t p w ->
  self w' = self w ->
  stops w' = stops w ->
  nextPromise w' = nextPromise w ->
  settled w' = settled w ->
  loops w' = loops w ++ [l] ->
  promise l = q ->
  (q < nextPromise w)%nat ->
  fate q w = None ->
  (forall s, In s (stops w) -> stopPromise s <> q) ->
  q <> p ->
  stopping t p w'.
Proof.
  intros [[HA [HB [HC HD]]] [Hpoll [Hp [Hown [Hloop Hfate]]]]]
         Hself Hstops Hnext Hsettled Hloops Hl Hq Hnone Hsq Hqp.
  assert (Hf : forall x, fate x w' = fate x w)
    by (intros x; apply fate_settled; exact Hsettled).
  split; [split; [|split; [|split]] |split; [|split; [|split; [|split]]]].
  - intros x g Hin. rewrite Hsettled in Hin. rewrite Hnext.
    apply (HA x g Hin).
  - intros l0 Hin. rewrite Hloops in Hin. rewrite Hnext, Hf.
    apply in_app_or in Hin. destruct Hin as [Hin | [<- | []]].
    + apply HB. exact Hin.
    + rewrite Hl. split; assumption.
  - intros s Hs. rewrite Hstops in Hs. rewrite Hnext, Hf.
    apply HC. exact Hs.
  - intros l0 s Hin Hs. rewrite Hloops in Hin. rewrite Hstops in Hs.
    apply in_app_or in Hin. destruct Hin as [Hin | [<- | []]].
    + apply HD; assumption.
    + rewrite Hl. intros Heq. apply (Hsq s Hs). symmetry. exact Heq.
  - rewrite Hself. exact Hpoll.
  - rewrite Hnext. exact Hp.
  - intros s Hs. rewrite Hstops in Hs. apply Hown. exact Hs.
  - intros l0 Hin. rewrite Hloops in Hin.
    apply in_app_or in Hin. destruct Hin as [Hin | [<- | []]].
    + apply Hloop. exact Hin.
    + rewrite Hl. exact Hqp.
  - rewrite !Hf. exact Hfate.
Qed.

Lemma advances_stopping (t p q : PromiseRef) (w w' : World) :
  stopping t p w ->
  (q < nextPromise w)%nat ->
  fate q w = None ->
  (forall l, In l (loops w) -> promise l <> q) ->
  (forall s, In s (stops w) -> stopPromise s <> q) ->
  q <> p ->
  advances q w w' ->
  stopping t p w' /\
  filter isCallOperation (effects w') = filter isCallOperation (effects w).
Proof.
  intros Hst Hq Hnone Hlq Hsq Hqp
         [Hself [Hstops [Hnext [[es [Heff Hes]] Hcase]]]].
  split.
  - destruct Hcase as [[l [Hl [Hloops Hsettled]]] | [f [Hloops Hsettled]]].
    + apply (suspend_stopping t p q l w w'); assumption.
    + apply (settle_stopping t p q f w w'); try assumption.
      * intros s Hs. rewrite Hstops in Hs. split; [exact Hs|].
        apply Hsq. exact Hs.
      * rewrite Hnext. apply Nat.le_refl.
      * rewrite Hnext. exact Hq.
      * intros Heq. contradiction.
  - rewrite Heff, filter_app.
    rewrite (Hes (proj1 (proj2 Hst))). apply app_nil_r.
Qed.

Lemma without_loop_stopping (t p q : PromiseRef) (w : World) :
  stopping t p w -> stopping t p (without_loop q w).
Proof.
  intros [[HA [HB [HC HD]]] [Hpoll [Hp [Hown [Hloop Hfate]]]]].
  assert (Hsub : forall l, In l (loops (without_loop q w)) -> In l (loops w)).
  { intros l Hl. cbn [without_loop loops] in Hl.
    apply filter_In in Hl. apply Hl. }
  split; [split; [|split; [|split]] |split; [|split; [|split; [|split]]]].
  - exact HA.
  - intros l Hl. apply (HB l (Hsub l Hl)).
  - exact HC.
  - intros l s Hl Hs. apply (HD l s (Hsub l Hl) Hs).
  - exact Hpoll.
  - exact Hp.
  - exact Hown.
  - intros l Hl. apply (Hloop l (Hsub l Hl)).
  - exact Hfate.
Qed.

(** While stopping, a turn other than a call of [start] keeps the object
    stopping and calls no operation. *)
Lemma turn_stopping (t p : PromiseRef) (tn : Turn) (w w' : World) :
  stopping t p w ->
  isCallStart tn = false ->
  turn options tn w = Some w' ->
  stopping t p w' /\
  filter isCallOperation (effects w') = filter isCallOperation (effects w).
Proof.
  intros Hst Hns Hturn.
  destruct tn as [f error fail now | | q outcome now | q];
    cbn [turn isCallStart] in Hturn, Hns.
  - discriminate.
  - injection Hturn as <-.
    pose proof Hst as [[HA [HB [HC HD]]] [Hpoll [Hp [Hown [Hloop Hfate]]]]].
    unfold stop. cbn [fresh self].
    rewrite Hpoll. cbn [negb snd]. split; [|reflexivity].
    eapply (settle_stopping t p (nextPromise w) Fulfilled w);
      [exact Hst | reflexivity | reflexivity | | reflexivity | | | | ];
      cbn [settle nextPromise stops loops].
    + intros s Hs. split; [exact Hs|]. pose proof (proj1 (HC s Hs)). lia.
    + lia.
    + lia.
    + intros l Hl. pose proof (proj1 (HB l Hl)). lia.
    + intros Heq. lia.
  - destruct (find (fun l => Nat.eqb (promise l) q) (loops w)) as [l|] eqn:E;
      [|discriminate].
    injection Hturn as <-.
    apply find_some in E. destruct E as [Hin Heq].
    apply Nat.eqb_eq in Heq.
    pose proof Hst as [[HA [HB [HC HD]]] [Hpoll [Hp [Hown [Hloop Hfate]]]]].
    destruct (HB l Hin) as [Hlt Hnone].
    pose proof (resume_advances options l outcome now (without_loop q w))
      as Hadv.
    rewrite Heq in Hadv.
    apply (advances_stopping t p q (without_loop q w) _
             (without_loop_stopping t p q w Hst)); [| | | | |exact Hadv].
    + rewrite <- Heq. exact Hlt.
    + rewrite <- Heq. exact Hnone.
    + intros l0 Hl0. cbn [without_loop loops] in Hl0.
      apply filter_In in Hl0. destruct Hl0 as [_ Hne].
      apply negb_true_iff, Nat.eqb_neq in Hne. exact Hne.
    + intros s Hs. cbn [without_loop stops] in Hs. rewrite <- Heq.
      intros Hsq. apply (HD l s Hin Hs). symmetry. exact Hsq.
    + rewrite <- Heq. apply Hloop. exact Hin.
  - destruct (find (fun s => Nat.eqb (stopPromise s) q) (stops w)) as [s|] eqn:E;
      [|discriminate].
    destruct (fate (awaited s) w) as [f|] eqn:Ef; [|discriminate].
    injection Hturn as <-.
    apply find_some in E. destruct E as [Hin Heq].
    apply Nat.eqb_eq in Heq.
    pose proof Hst as [[HA [HB [HC HD]]] [Hpoll [Hp [Hown [Hloop Hfate]]]]].
    assert (Hframe :
      forall s0, In s0 (stops (without_stop q w)) ->
                 In s0 (stops w) /\ stopPromise s0 <> q).
    { intros s0 Hs0. cbn [without_stop stops] in Hs0.
      apply filter_In in Hs0. destruct Hs0 as [Hs0 Hne].
      apply negb_true_iff, Nat.eqb_neq in Hne. split; assumption. }
    assert (Hlq : forall l, In l (loops w) -> promise l <> q).
    { intros l Hl. rewrite <- Heq. apply (HD l s Hl Hin). }
    assert (Hqp : q = p -> fate t w <> None).
    { intros Hqp. rewrite <- (Hown s Hin); [congruence|].
      rewrite Heq. exact Hqp. }
    assert (Hqn : (q < nextPromise w)%nat).
    { rewrite <- Heq. apply (HC s Hin). }
    unfold stop_resume. destruct f as [|m].
    + split.
      * eapply (settle_stopping t p (stopPromise s) Fulfilled w);
          [exact Hst | reflexivity | reflexivity | | reflexivity
          | apply Nat.le_refl | | | ];
          cbn [settle emit without_stop nextPromise stops loops];
          rewrite Heq; assumption.
      * cbn [settle emit without_stop effects]. rewrite filter_app.
        rewrite logOptional_no_operation by reflexivity. apply app_nil_r.
    + split; [|reflexivity].
      eapply (settle_stopping t p (stopPromise s) (RejectedWith m) w);
        [exact Hst | reflexivity | reflexivity | | reflexivity
        | apply Nat.le_refl | | | ];
        cbn [settle emit without_stop nextPromise stops loops];
        rewrite Heq; assumption.
Qed.

Lemma run_stopping (t p : PromiseRef) (ts : list Turn) :
  forall w w',
  stopping t p w ->
  forallb (fun tn => negb (isCallStart tn)) ts = true ->
  run options ts w = Some w' ->
  stopping t p w' /\
  filter isCallOperation (effects w') = filter isCallOperation (effects w).
Proof.
  induction ts as [|tn ts IH]; intros w w' Hst Hns Hrun; cbn in Hrun, Hns.
  - injection Hrun as <-. split; [exact Hst | reflexivity].
  - apply andb_true_iff in Hns. destruct Hns as [Hn Hns].
    apply negb_true_iff in Hn.
    destruct (turn options tn w) as [w1|] eqn:Ht; [|discriminate].
    destruct (turn_stopping t p tn w w1 Hst Hn Ht) as [Hst1 Heff1].
    destruct (IH w1 w' Hst1 Hns Hrun) as [Hst' Heff'].
    split; [exact Hst'|]. rewrite Heff'. exact Heff1.
Qed.

(** [stop()] on a polling object: it returns the promise handed out
    next, and the object is stopping. *)
Lemma stop_stopping (t : PromiseRef) (w : World) :
  wellFormed w ->
  task (self w) = Some t ->
  fst (stop options w) = nextPromise w /\
  stopping t (nextPromise w) (snd (stop options w)) /\
  effects (snd (stop options w)) = effects w.
Proof.
  intros [HA [HB [HC HD]]] Htask.
  unfold stop, isPolling. cbn [fresh self]. rewrite Htask. cbn [negb fst snd].
  split; [reflexivity|]. split; [|reflexivity].
  assert (Hfresh : forall x wx,
            (nextPromise w <= x)%nat -> settled wx = settled w ->
            fate x wx = None).
  { intros x wx Hx Hs. rewrite (fate_settled x w wx Hs).
    apply fate_fresh; assumption. }
  unfold stopping, wellFormed.
  cbn [self loops stops settled nextPromise set_task task isPolling].
  split; [split; [|split; [|split]] |split; [|split; [|split; [|split]]]].
  - intros q f Hin. pose proof (HA q f Hin). lia.
  - intros l Hl. destruct (HB l Hl) as [Hlt Hnone]. split; [lia|].
    rewrite <- Hnone. apply fate_settled. reflexivity.
  - intros s Hs. apply in_app_or in Hs. destruct Hs as [Hs | [<- | []]].
    + destruct (HC s Hs) as [Hlt Hnone]. split; [lia|].
      rewrite <- Hnone. apply fate_settled. reflexivity.
    + cbn [stopPromise]. split; [lia|].
      apply Hfresh; [apply Nat.le_refl | reflexivity].
  - intros l s Hl Hs. apply in_app_or in Hs. destruct Hs as [Hs | [<- | []]].
    + apply HD; assumption.
    + cbn [stopPromise]. pose proof (proj1 (HB l Hl)). lia.
  - reflexivity.
  - lia.
  - intros s Hs Heq. apply in_app_or in Hs. destruct Hs as [Hs | [<- | []]].
    + pose proof (proj1 (HC s Hs)). lia.
    + reflexivity.
  - intros l Hl. pose proof (proj1 (HB l Hl)). lia.
  - intros Hsome. exfalso. apply Hsome.
    apply Hfresh; [apply Nat.le_refl | reflexivity].
Qed.

End TaskStopping.

(** ** [AdaptivePoller] (timeout revision): after [stop()] *)

Section TimeoutStopped.

Import AdaptivePoller.

Variable options : pollerOptions.

Lemma afterOperation_frame (outcome : Outcome) (now : Q) (p : Poller) :
  polling (fst (afterOperation options outcome now p)) = polling p /\
  filter isCallOperation (snd (afterOperation options outcome now p)) = [].
Proof.
  destruct outcome as [error|]; cbn [afterOperation fst snd].
  - split; [apply (onFailure_frame options error now p)|].
    apply (onFailure_callbacks options error now p).
  - split; [apply (onSuccess_frame options now p) | reflexivity].
Qed.

(** Once [polling] is false, a turn other than a call of [start] leaves
    it false and calls no operation. *)
Lemma turn_stopped (tn : Turn) (w w' : World) :
  polling (self w) = false ->
  isCallStart tn = false ->
  turn options tn w = Some w' ->
  polling (self w') = false /\
  filter isCallOperation (effects w') = filter isCallOperation (effects w).
Proof.
  intros Hp Hns Hturn.
  destruct tn as [f error fail | | outcome now | id];
    cbn [turn isCallStart] in Hturn, Hns.
  - discriminate.
  - injection Hturn as <-. unfold stop. cbn [self effects polling set_polling].
    split; [reflexivity|].
    rewrite !filter_app. cbn [filter isCallOperation].
    rewrite logOptional_no_operation by reflexivity.
    rewrite !app_nil_r. reflexivity.
  - destruct (awaiting w); [discriminate|]. injection Hturn as <-.
    destruct (runPoll_resume_unfold options outcome now w)
      as [Hself [Heff _]].
    destruct (afterOperation_frame outcome now (self w)) as [Hpoll Hcalls].
    rewrite Hself, Heff. cbn [polling set_currentTimeout].
    split; [congruence|].
    rewrite !filter_app, Hcalls, (proj1 (uncaught_no_operation outcome)).
    cbn [filter isCallOperation].
    rewrite !app_nil_r. reflexivity.
  - destruct (existsb _ _); [|discriminate]. injection Hturn as <-.
    unfold runPoll. cbn [self]. rewrite Hp. cbn [negb].
    split; [exact Hp | reflexivity].
Qed.

Lemma run_stopped (ts : list Turn) :
  forall w w',
  polling (self w) = false ->
  forallb (fun tn => negb (isCallStart tn)) ts = true ->
  run options ts w = Some w' ->
  polling (self w') = false /\
  filter isCallOperation (effects w') = filter isCallOperation (effects w).
Proof.
  induction ts as [|tn ts IH]; intros w w' Hp Hns Hrun; cbn in Hrun, Hns.
  - injection Hrun as <-. split; [exact Hp | reflexivity].
  - apply andb_true_iff in Hns. destruct Hns as [Hn Hns].
    apply negb_true_iff in Hn.
    destruct (turn options tn w) as [w1|] eqn:Ht; [|discriminate].
    destruct (turn_stopped tn w w1 Hp Hn Ht) as [Hp1 Heff1].
    destruct (IH w1 w' Hp1 Hns Hrun) as [Hp' Heff'].
    split; [exact Hp'|]. rewrite Heff'. exact Heff1.
Qed.

Lemma stop_effects (w : World) :
  polling (self (stop options w)) = false /\
  filter isCallOperation (effects (stop options w))
  = filter isCallOperation (effects w).
Proof.
  unfold stop. cbn [self effects polling set_polling].
  split; [reflexivity|].
  rewrite !filter_app. cbn [filter isCallOperation].
  rewrite logOptional_no_operation by reflexivity.
  rewrite !app_nil_r. reflexivity.
Qed.

End TimeoutStopped.

(** ** [AdaptivePoller] (task revision): [start] *)

(** In the task revision [runPoll] tests [this.isPolling] before [start]
    has stored the promise in [this.task]: from a new object no activation
    of the loop is ever suspended and no operation is ever called. *)
Lemma task_turn_idle (options : pollerOptions) (tn : TaskPoller.Turn)
    (w w' : TaskPoller.World) :
  TaskPoller.loops w = [] ->
  filter isCallOperation (TaskPoller.effects w) = [] ->
  TaskPoller.turn options tn w = Some w' ->
  TaskPoller.loops w' = [] /\
  filter isCallOperation (TaskPoller.effects w') = [].
Proof.
  intros Hloops Heff Hturn.
  destruct w as [[tk op oe ofl] ls sp st np ef].
  cbn [TaskPoller.loops TaskPoller.effects] in Hloops, Heff. subst ls.
  destruct tn as [f error fail now | | q outcome now | q];
    cbn [TaskPoller.turn] in Hturn.
  - injection Hturn as <-.
    unfold TaskPoller.start, TaskPoller.runPoll, TaskPoller.stop.
    destruct tk as [t|]; cbn; (split; [reflexivity|]).
    + rewrite filter_app, Heff, logOptional_no_operation by reflexivity.
      reflexivity.
    + rewrite !filter_app, Heff, !logOptional_no_operation by reflexivity.
      reflexivity.
  - injection Hturn as <-. unfold TaskPoller.stop.
    destruct tk as [t|]; cbn; (split; [reflexivity | exact Heff]).
  - discriminate.
  - cbn [TaskPoller.stops] in Hturn.
    destruct (find _ sp) as [s|]; [|discriminate].
    destruct (TaskPoller.fate _ _) as [g|]; [|discriminate].
    injection Hturn as <-. unfold TaskPoller.stop_resume.
    destruct g as [|m]; cbn; (split; [reflexivity|]).
    + rewrite filter_app, Heff, logOptional_no_operation by reflexivity.
      reflexivity.
    + exact Heff.
Qed.

Example task_start_then_stop :
  let options :=
    pollerScenario (TimeSpan.lit 300000 eq_refl) (TimeSpan.lit 1000 eq_refl)
      (Some 9%nat) in
  exists v,
    TaskPoller.run options
      [TaskPoller.CallStart 1 (Some 2%nat) (Some 3%nat) 1700000000000;
       TaskPoller.CallStop; TaskPoller.StopContinues 2]
      TaskPoller.initial = Some v /\
    TaskPoller.fate 2 v = Some TaskPoller.Fulfilled /\
    TaskPoller.effects v =
    [LogWarning 9
       "AdaptivePolling runPoll called while not polling or operation is not set";
     LogInfo 9 "AdaptivePolling started";
     LogInfo 9 "AdaptivePolling stopped"].
Proof.
  cbv zeta. eexists. split; [vm_compute; reflexivity|].
  split; reflexivity.
Qed.

(** In the task revision [start] calls [runPoll] before [this.task] is
    assigned, so [runPoll] finds [isPolling] false and returns at once:
    whatever the calls of [start] and [stop] and the order in which their
    promises continue, no loop is ever running and the operation is never
    called. *)
Remark task_start_never_polls (options : pollerOptions)
    (ts : list TaskPoller.Turn) :
  forall w,
  TaskPoller.run options ts TaskPoller.initial = Some w ->
  TaskPoller.loops w = [] /\
  filter isCallOperation (TaskPoller.effects w) = [].
Proof.
  assert (H : forall w0 w,
             TaskPoller.loops w0 = [] ->
             filter isCallOperation (TaskPoller.effects w0) = [] ->
             TaskPoller.run options ts w0 = Some w ->
             TaskPoller.loops w = [] /\
             filter isCallOperation (TaskPoller.effects w) = []).
  { induction ts as [|tn ts IH]; intros w0 w Hl He Hrun; cbn in Hrun.
    - injection Hrun as <-. split; assumption.
    - destruct (TaskPoller.turn options tn w0) as [w1|] eqn:Ht;
        [|discriminate].
      destruct (task_turn_idle options tn w0 w1 Hl He Ht) as [Hl1 He1].
      apply (IH w1 w Hl1 He1 Hrun). }
  intros w Hrun. apply (H TaskPoller.initial w); [reflexivity .. | exact Hrun].
Qed.

(** ** [stop()] *)

(** C5, as amended.  In the timeout revision [stop()] is synchronous: it
    does not wait for the cycle in flight, which stays suspended and
    finishes after [stop()] has returned; what holds is that no operation
    is called after [stop()], as long as [start] is not called again.  In
    the task revision [stop()] on a polling object returns a promise; no
    operation is called after [stop()] was called, as long as [start] is
    not called again, and the promise is settled only when the task it
    awaits is settled, that is when the activation of the loop has
    finished. *)
Theorem C5_stop_and_the_cycle_in_flight :
  forall (options : pollerOptions),
  (forall (w w' : AdaptivePoller.World) (ts : list AdaptivePoller.Turn),
     forallb (fun tn => negb (AdaptivePoller.isCallStart tn)) ts = true ->
     AdaptivePoller.run options ts (AdaptivePoller.stop options w) = Some w' ->
     AdaptivePoller.awaiting (AdaptivePoller.stop options w)
     = AdaptivePoller.awaiting w /\
     filter isCallOperation (AdaptivePoller.effects w')
     = filter isCallOperation (AdaptivePoller.effects w)) /\
  (forall (v v' : TaskPoller.World) (t : TaskPoller.PromiseRef)
          (ts : list TaskPoller.Turn),
     TaskPoller.wellFormed v ->
     TaskPoller.task (TaskPoller.self v) = Some t ->
     forallb (fun tn => negb (TaskPoller.isCallStart tn)) ts = true ->
     TaskPoller.run options ts (snd (TaskPoller.stop options v)) = Some v' ->
     filter isCallOperation (TaskPoller.effects v')
     = filter isCallOperation (TaskPoller.effects v) /\
     (TaskPoller.fate (fst (TaskPoller.stop options v)) v' <> None ->
      TaskPoller.fate t v' <> None /\
      forall l, In l (TaskPoller.loops v') -> TaskPoller.promise l <> t)).
Proof.
  intros options. split.
  - intros w w' ts Hns Hrun. split; [reflexivity|].
    destruct (stop_effects options w) as [Hp Heff].
    destruct (run_stopped options ts _ w' Hp Hns Hrun) as [_ Heff'].
    rewrite Heff'. exact Heff.
  - intros v v' t ts Hwf Htask Hns Hrun.
    destruct (stop_stopping options t v Hwf Htask) as [Hfst [Hst Heff]].
    destruct (run_stopping options t (TaskPoller.nextPromise v) ts _ v'
                Hst Hns Hrun) as [Hst' Heff'].
    split; [rewrite Heff', Heff; reflexivity|].
    rewrite Hfst. intros Hsettled.
    destruct Hst' as [[_ [HB _]] [_ [_ [_ [_ Hfate]]]]].
    pose proof (Hfate Hsettled) as Ht.
    split; [exact Ht|].
    intros l Hl Heq. apply Ht. rewrite <- Heq. apply (HB l Hl).
Qed.

Lemma taskInFlight_wellFormed : TaskPoller.wellFormed taskInFlight.
Proof.
  unfold TaskPoller.wellFormed, taskInFlight. cbn.
  split; [|split; [|split]].
  - intros q f [].
  - intros l [<- | []]. cbn. split; [lia | reflexivity].
  - intros s [].
  - intros l s _ [].
Qed.

Lemma C5_stop_and_the_cycle_in_flight_witness :
  let options :=
    pollerScenario (TimeSpan.lit 300000 eq_refl) (TimeSpan.lit 1000 eq_refl)
      (Some 9%nat) in
  (exists w',
     AdaptivePoller.run options
       [AdaptivePoller.Settles (Some (ThrownValue "503")) 1700000000000;
        AdaptivePoller.Fires 0]
       (AdaptivePoller.stop options started) = Some w' /\
     filter isCallOperation (AdaptivePoller.effects w')
     = filter isCallOperation (AdaptivePoller.effects started)) /\
  (exists v',
     TaskPoller.run options
       [TaskPoller.Continues 0 None 1700000000000;
        TaskPoller.Continues 0 None 1700000001000;
        TaskPoller.StopContinues 1]
       (snd (TaskPoller.stop options taskInFlight)) = Some v' /\
     TaskPoller.fate 1%nat v' = Some TaskPoller.Fulfilled /\
     filter isCallOperation (TaskPoller.effects v')
     = filter isCallOperation (TaskPoller.effects taskInFlight) /\
     TaskPoller.fate 0%nat v' <> None /\
     forall l, In l (TaskPoller.loops v') -> TaskPoller.promise l <> 0%nat).
Proof.
  cbv zeta. split.
  - eexists. split; [vm_compute; reflexivity|].
    refine (proj2 (proj1 (C5_stop_and_the_cycle_in_flight
                            (pollerScenario (TimeSpan.lit 300000 eq_refl)
                            (TimeSpan.lit 1000 eq_refl) (Some 9%nat)))
                     started _
                     [AdaptivePoller.Settles (Some (ThrownValue "503"))
                        1700000000000;
                      AdaptivePoller.Fires 0] _ _)).
    + reflexivity.
    + vm_compute. reflexivity.
  - eexists. split; [vm_compute; reflexivity|].
    split; [reflexivity|].
    refine ((fun H => conj (proj1 H) (proj2 H _))
              (proj2 (C5_stop_and_the_cycle_in_flight
                            (pollerScenario (TimeSpan.lit 300000 eq_refl)
                            (TimeSpan.lit 1000 eq_refl) (Some 9%nat)))
                 taskInFlight _
                 0%nat
                 [TaskPoller.Continues 0 None 1700000000000;
                  TaskPoller.Continues 0 None 1700000001000;
                  TaskPoller.StopContinues 1]
                 taskInFlight_wellFormed _ _ _)).
    + discriminate.
    + reflexivity.
    + reflexivity.
    + vm_compute. reflexivity.
Defined.

(** C5 as stated fails in the timeout revision: when [stop()] has
    returned, the cycle in flight has not finished; the operation settles
    afterwards, and the cycle then calls [onError] and sets a timeout. *)
Lemma C5_synchronous_stop_counterexample :
  let options :=
    pollerScenario (TimeSpan.lit 300000 eq_refl) (TimeSpan.lit 1000 eq_refl)
      (Some 9%nat) in
  let stopped := AdaptivePoller.stop options started in
  AdaptivePoller.awaiting stopped = 1%nat /\
  exists w,
    AdaptivePoller.turn options
      (AdaptivePoller.Settles (Some (ThrownValue "503")) 1700000000000)
      stopped = Some w /\
    AdaptivePoller.effects w =
    AdaptivePoller.effects stopped
    ++ [CallOnError 2%nat (MkError "503"); SetTimeout 0%nat 2000] /\
    AdaptivePoller.armed w = [0%nat].
Proof.
  cbv zeta. split; [reflexivity|].
  eexists. split; [vm_compute; reflexivity|]. split; reflexivity.
Qed.

(** ** [start] on a running poller *)

(** C9, as amended.  [start] on a poller that is already running changes
    nothing: the object, the operation and the callbacks it holds, its
    delay, the suspended activations and the timeouts stay as they are,
    and no operation is called.  The timeout revision returns without a
    word; the task revision logs one warning when a logger is configured
    and nothing otherwise. *)
Theorem C9_start_while_running :
  forall (options : pollerOptions) (f : OperationRef)
         (error fail : option CallbackRef) (now : Q),
  (forall w : AdaptivePoller.World,
     AdaptivePoller.polling (AdaptivePoller.self w) = true ->
     AdaptivePoller.start options f error fail w = w) /\
  (forall v : TaskPoller.World,
     TaskPoller.isPolling (TaskPoller.self v) = true ->
     let v' := TaskPoller.start options f error fail now v in
     TaskPoller.self v' = TaskPoller.self v /\
     TaskPoller.loops v' = TaskPoller.loops v /\
     TaskPoller.stops v' = TaskPoller.stops v /\
     TaskPoller.settled v' = TaskPoller.settled v /\
     TaskPoller.nextPromise v' = TaskPoller.nextPromise v /\
     TaskPoller.effects v' =
     TaskPoller.effects v ++
     match logger options with
     | Some l =>
       [LogWarning l
          "AdaptivePolling is already running, stopping the previous task before starting a new one"]
     | None => []
     end).
Proof.
  intros options f error fail now. split.
  - intros w Hp. unfold AdaptivePoller.start. rewrite Hp. reflexivity.
  - intros v Hp. cbv zeta. unfold TaskPoller.start. rewrite Hp.
    repeat split.
Qed.

Lemma C9_start_while_running_witness :
  AdaptivePoller.start
    (pollerScenario (TimeSpan.lit 300000 eq_refl) (TimeSpan.lit 1000 eq_refl)
       (Some 9%nat))
    5%nat None None started = started /\
  TaskPoller.effects
    (TaskPoller.start
       (pollerScenario (TimeSpan.lit 300000 eq_refl)
          (TimeSpan.lit 1000 eq_refl) (Some 9%nat))
       5%nat None None 1700000000000 (taskStarted (Some 9%nat)))
  = TaskPoller.effects (taskStarted (Some 9%nat)) ++
    [LogWarning 9%nat
       "AdaptivePolling is already running, stopping the previous task before starting a new one"].
Proof.
  split.
  - apply (proj1 (C9_start_while_running
                    (pollerScenario (TimeSpan.lit 300000 eq_refl)
                       (TimeSpan.lit 1000 eq_refl) (Some 9%nat))
                    5%nat None None 0) started).
    reflexivity.
  - apply (proj2 (C9_start_while_running
                    (pollerScenario (TimeSpan.lit 300000 eq_refl)
                       (TimeSpan.lit 1000 eq_refl) (Some 9%nat))
                    5%nat None None 1700000000000)
             (taskStarted (Some 9%nat))).
    reflexivity.
Defined.

(** C9 as stated fails: the timeout revision logs no warning, even with a
    logger; the task revision logs none when no logger is configured. *)
Lemma C9_no_warning_counterexample :
  filter isLogWarning
    (AdaptivePoller.effects
       (AdaptivePoller.start
          (pollerScenario (TimeSpan.lit 300000 eq_refl)
             (TimeSpan.lit 1000 eq_refl) (Some 9%nat))
          5%nat None None started)) = [] /\
  filter isLogWarning
    (TaskPoller.effects
       (TaskPoller.start
          (pollerScenario (TimeSpan.lit 300000 eq_refl)
             (TimeSpan.lit 1000 eq_refl) None)
          5%nat None None 1700000000000 (taskStarted None))) = [].
Proof. split; vm_compute; reflexivity. Qed.

(** * More of the code *)

(** ** Rounding *)

(** A monotone rounding agrees on equal numbers. *)
Lemma round_proper (round : Q -> Q) :
  monotone round -> forall x y, x == y -> round x == round y.
Proof.
  intros Hm x y H. apply Qle_antisym; apply Hm; rewrite H; apply Qle_refl.
Qed.

Lemma roundDown_monotone : monotone roundDown.
Proof.
  intros x y H. unfold roundDown. rewrite <- Zle_Qle.
  apply Qfloor_resp_le. exact H.
Qed.

(** ** [TimeSpan]: arithmetic *)

(** Whatever the rounding of the sum, [a.add(b)] never throws, the sum is
    at least as long as [a] and as [b], so that either can be taken away
    again without a throw, and [b.add(a)] [equals] it.  The sum is the
    rounded one: taking [b] away again need not give back [a]. *)
Theorem TimeSpan_add_subtract :
  forall (round : Q -> Q) (a b : TimeSpan),
  monotone round ->
  representable round (TimeSpan.ms a) ->
  representable round (TimeSpan.ms b) ->
  exists sum,
    TimeSpan.add round a b = Ok sum /\
    TimeSpan.totalMilliseconds sum = round (TimeSpan.ms a + TimeSpan.ms b) /\
    TimeSpan.ms a <= TimeSpan.ms sum /\
    TimeSpan.ms b <= TimeSpan.ms sum /\
    (exists back, TimeSpan.subtract sum b = Ok back) /\
    (exists back, TimeSpan.subtract sum a = Ok back) /\
    (exists sum', TimeSpan.add round b a = Ok sum' /\
                  TimeSpan.equals sum sum' = true).
Proof.
  intros round a b Hm Hra Hrb. unfold representable in Hra, Hrb.
  pose proof (TimeSpan.ms_nonneg a) as Ha.
  pose proof (TimeSpan.ms_nonneg b) as Hb.
  assert (Hsa : TimeSpan.ms a <= round (TimeSpan.ms a + TimeSpan.ms b)).
  { apply Qle_trans with (round (TimeSpan.ms a));
      [rewrite Hra; apply Qle_refl | apply Hm; lra]. }
  assert (Hsb : TimeSpan.ms b <= round (TimeSpan.ms a + TimeSpan.ms b)).
  { apply Qle_trans with (round (TimeSpan.ms b));
      [rewrite Hrb; apply Qle_refl | apply Hm; lra]. }
  assert (Hcomm : round (TimeSpan.ms a + TimeSpan.ms b)
                  == round (TimeSpan.ms b + TimeSpan.ms a)).
  { apply (round_proper round Hm). ring. }
  destruct (TimeSpan_new_ok (round (TimeSpan.ms a + TimeSpan.ms b)))
    as [sum [Hs Hms]]; [lra|].
  destruct (TimeSpan_new_ok (round (TimeSpan.ms b + TimeSpan.ms a)))
    as [sum' [Hs' Hms']]; [lra|].
  destruct (TimeSpan_new_ok (TimeSpan.ms sum - TimeSpan.ms b))
    as [back [Hd _]]; [rewrite Hms; lra|].
  destruct (TimeSpan_new_ok (TimeSpan.ms sum - TimeSpan.ms a))
    as [back' [Hd' _]]; [rewrite Hms; lra|].
  exists sum. unfold TimeSpan.add, TimeSpan.subtract,
    TimeSpan.totalMilliseconds, TimeSpan.equals.
  split; [exact Hs|]. split; [exact Hms|].
  split; [rewrite Hms; exact Hsa|]. split; [rewrite Hms; exact Hsb|].
  split; [exists back; exact Hd|]. split; [exists back'; exact Hd'|].
  exists sum'. split; [exact Hs'|].
  apply Qeq_bool_iff. rewrite Hms, Hms'. exact Hcomm.
Qed.

Lemma TimeSpan_add_subtract_witness :
  exists sum,
    TimeSpan.add roundDown (TimeSpan.lit 1500 eq_refl)
      (TimeSpan.lit 250 eq_refl) = Ok sum /\
    1500 <= TimeSpan.ms sum /\
    exists back, TimeSpan.subtract sum (TimeSpan.lit 250 eq_refl) = Ok back.
Proof.
  destruct (TimeSpan_add_subtract roundDown (TimeSpan.lit 1500 eq_refl)
              (TimeSpan.lit 250 eq_refl) roundDown_monotone)
    as [sum [Hs [_ [Ha [_ [Hback _]]]]]].
  - unfold representable. vm_compute. reflexivity.
  - unfold representable. vm_compute. reflexivity.
  - exists sum. split; [exact Hs|]. split; [exact Ha | exact Hback].
Defined.

(** [a.subtract(b)] throws exactly when [b] is the longer span; otherwise
    it is the difference. *)
Theorem TimeSpan_subtract_cases :
  forall a b : TimeSpan,
  (TimeSpan.ms a < TimeSpan.ms b ->
   TimeSpan.subtract a b = Throw "Milliseconds cannot be negative") /\
  (TimeSpan.ms b <= TimeSpan.ms a ->
   exists d, TimeSpan.subtract a b = Ok d /\
             TimeSpan.totalMilliseconds d = TimeSpan.ms a - TimeSpan.ms b /\
             TimeSpan.leb d a = true).
Proof.
  intros a b. unfold TimeSpan.subtract. split.
  - intros Hlt. apply TimeSpan_new_negative. lra.
  - intros Hle.
    destruct (TimeSpan_new_ok (TimeSpan.ms a - TimeSpan.ms b)) as [d [Hd Hms]];
      [lra|].
    exists d. split; [exact Hd|]. split; [exact Hms|].
    apply TimeSpan_leb_le. rewrite Hms.
    pose proof (TimeSpan.ms_nonneg b). lra.
Qed.

(** ** [Mathf] *)

Lemma gtb_lt (a b : Q) : Mathf.gtb a b = true <-> b < a.
Proof.
  unfold Mathf.gtb. rewrite negb_true_iff. split.
  - apply Qle_bool_false.
  - intros H. destruct (Qle_bool a b) eqn:E; [|reflexivity].
    apply Qle_bool_iff in E. exfalso. apply (Qlt_not_le _ _ H E).
Qed.

Lemma gtb_le (a b : Q) : Mathf.gtb a b = false <-> a <= b.
Proof.
  unfold Mathf.gtb. rewrite negb_false_iff. apply Qle_bool_iff.
Qed.

(** With [min <= max], [clamp] stays in [[min, max]], leaves a value of
    the range alone and moves any other to the nearer end; with the
    bounds swapped it returns [max] whatever the value. *)
Theorem Mathf_clamp_cases :
  forall value min max : Q,
  (min <= max ->
   min <= Mathf.clamp value min max <= max /\
   (min <= value <= max -> Mathf.clamp value min max == value) /\
   (value < min -> Mathf.clamp value min max == min) /\
   (max < value -> Mathf.clamp value min max == max)) /\
  (max < min -> Mathf.clamp value min max == max).
Proof.
  intros value lo hi. unfold Mathf.clamp.
  destruct (Q.max_spec value lo) as [[H1 E1] | [H1 E1]];
    destruct (Q.min_spec (Qmax value lo) hi) as [[H2 E2] | [H2 E2]];
    rewrite E2; rewrite ?E1 in *; repeat split; intros; lra.
Qed.

(** Whatever the rounding of the three operations, [lerp] starts at [a],
    stays at [a] when the two ends are equal, for [t >= 0] never falls on
    the far side of [a] from [b], and moves towards [b] as [t] grows.  The
    value at [t = 1] is a rounded one: it need not be [b]. *)
Theorem Mathf_lerp_between :
  forall (round : Q -> Q) (a b t : Q),
  monotone round ->
  representable round 0 ->
  representable round a ->
  Mathf.lerp round a b 0 == a /\
  Mathf.lerp round a a t == a /\
  (0 <= t ->
   (a <= b -> a <= Mathf.lerp round a b t) /\
   (b <= a -> Mathf.lerp round a b t <= a)) /\
  (forall t', t <= t' ->
   (a <= b -> Mathf.lerp round a b t <= Mathf.lerp round a b t') /\
   (b <= a -> Mathf.lerp round a b t' <= Mathf.lerp round a b t)).
Proof.
  intros round a b t Hm H0 Ha. unfold representable in H0, Ha.
  unfold Mathf.lerp.
  assert (Hzero : forall x, x == 0 -> round x == 0).
  { intros x Hx. transitivity (round 0); [|exact H0].
    apply (round_proper round Hm). exact Hx. }
  assert (Hstay : forall x, x == 0 -> round (a + x) == a).
  { intros x Hx. transitivity (round a); [|exact Ha].
    apply (round_proper round Hm). rewrite Hx. ring. }
  assert (Hup : forall x, 0 <= x -> 0 <= round x).
  { intros x Hx. apply Qle_trans with (round 0); [|apply Hm; exact Hx].
    rewrite H0. apply Qle_refl. }
  assert (Hdown : forall x, x <= 0 -> round x <= 0).
  { intros x Hx. apply Qle_trans with (round 0); [apply Hm; exact Hx|].
    rewrite H0. apply Qle_refl. }
  assert (Hfrom : forall x, a <= x -> a <= round x).
  { intros x Hx. apply Qle_trans with (round a); [|apply Hm; exact Hx].
    rewrite Ha. apply Qle_refl. }
  assert (Hto : forall x, x <= a -> round x <= a).
  { intros x Hx. apply Qle_trans with (round a); [apply Hm; exact Hx|].
    rewrite Ha. apply Qle_refl. }
  split; [|split; [|split]].
  - apply Hstay, Hzero. ring.
  - apply Hstay, Hzero.
    assert (Hd : round (a - a) == 0) by (apply Hzero; ring).
    rewrite Hd. ring.
  - intros Ht. split.
    + intros Hab. apply Hfrom.
      assert (0 <= round (b - a)) by (apply Hup; lra).
      assert (0 <= round (round (b - a) * t))
        by (apply Hup, Qmult_le_0_compat; assumption).
      lra.
    + intros Hba. apply Hto.
      assert (Hd : round (b - a) <= 0) by (apply Hdown; lra).
      assert (round (round (b - a) * t) <= 0).
      { apply Hdown.
        assert (0 <= - round (b - a) * t)
          by (apply Qmult_le_0_compat; lra).
        lra. }
      lra.
  - intros t' Htt. split.
    + intros Hab. apply Hm.
      assert (Hd : 0 <= round (b - a)) by (apply Hup; lra).
      assert (round (round (b - a) * t) <= round (round (b - a) * t')).
      { apply Hm.
        assert (0 <= round (b - a) * (t' - t))
          by (apply Qmult_le_0_compat; lra).
        lra. }
      lra.
    + intros Hba. apply Hm.
      assert (Hd : round (b - a) <= 0) by (apply Hdown; lra).
      assert (round (round (b - a) * t') <= round (round (b - a) * t)).
      { apply Hm.
        assert (0 <= - round (b - a) * (t' - t))
          by (apply Qmult_le_0_compat; lra).
        lra. }
      lra.
Qed.

Lemma Mathf_lerp_between_witness :
  Mathf.lerp roundDown 10 20 0 == 10 /\
  10 <= Mathf.lerp roundDown 10 20 (1 # 3) /\
  Mathf.lerp roundDown 10 20 (1 # 3) <= Mathf.lerp roundDown 10 20 (2 # 3).
Proof.
  destruct (Mathf_lerp_between roundDown 10 20 (1 # 3) roundDown_monotone)
    as [Hstart [_ [Hside Hgrow]]].
  - unfold representable. vm_compute. reflexivity.
  - unfold representable. vm_compute. reflexivity.
  - split; [exact Hstart|]. split.
    + apply Hside; apply Qle_bool_iff; reflexivity.
    + apply (Hgrow (2 # 3)); apply Qle_bool_iff; reflexivity.
Defined.

Lemma MIN_VALUE_pos : 0 < Mathf.MIN_VALUE.
Proof. reflexivity. Qed.

Section MathfLoops.

Context {TType : Type}.
Variable selector : TType -> Q.

(** The loop of [max]: either no item beats the running maximum, or the
    result is the first item that reaches the largest value. *)
Lemma max_loop_spec (array : list TType) :
  forall (m : Q) (result : option TType),
  (Mathf.max_loop selector array m result = result /\
   forall x, In x array -> selector x <= m) \/
  (exists pre r post,
     array = pre ++ r :: post /\
     Mathf.max_loop selector array m result = Some r /\
     m < selector r /\
     (forall x, In x pre -> selector x < selector r) /\
     (forall x, In x post -> selector x <= selector r)).
Proof.
  induction array as [|item rest IH]; intros m result.
  - left. split; [reflexivity | intros x []].
  - cbn [Mathf.max_loop].
    destruct (Mathf.gtb (selector item) m) eqn:E.
    + apply gtb_lt in E. right.
      destruct (IH (selector item) (Some item))
        as [[Heq Hall] | [pre [r [post [Harr [Heq [Hm [Hpre Hpost]]]]]]]].
      * exists [], item, rest. rewrite Heq.
        split; [reflexivity|]. split; [reflexivity|]. split; [exact E|].
        split; [intros x [] | exact Hall].
      * exists (item :: pre), r, post. rewrite Harr.
        split; [reflexivity|]. split; [rewrite <- Harr; exact Heq|].
        split; [lra|]. split; [|exact Hpost].
        intros x [<- | Hx]; [exact Hm | apply Hpre; exact Hx].
    + apply gtb_le in E.
      destruct (IH m result)
        as [[Heq Hall] | [pre [r [post [Harr [Heq [Hm [Hpre Hpost]]]]]]]].
      * left. split; [exact Heq|].
        intros x [<- | Hx]; [exact E | apply Hall; exact Hx].
      * right. exists (item :: pre), r, post. rewrite Harr.
        split; [reflexivity|]. split; [rewrite <- Harr; exact Heq|].
        split; [exact Hm|]. split; [|exact Hpost].
        intros x [<- | Hx]; [lra | apply Hpre; exact Hx].
Qed.

Lemma min_loop_spec (array : list TType) :
  forall (m : Q) (result : option TType),
  (Mathf.min_loop selector array m result = result /\
   forall x, In x array -> m <= selector x) \/
  (exists pre r post,
     array = pre ++ r :: post /\
     Mathf.min_loop selector array m result = Some r /\
     selector r < m /\
     (forall x, In x pre -> selector r < selector x) /\
     (forall x, In x post -> selector r <= selector x)).
Proof.
  induction array as [|item rest IH]; intros m result.
  - left. split; [reflexivity | intros x []].
  - cbn [Mathf.min_loop].
    destruct (Mathf.gtb m (selector item)) eqn:E.
    + apply gtb_lt in E. right.
      destruct (IH (selector item) (Some item))
        as [[Heq Hall] | [pre [r [post [Harr [Heq [Hm [Hpre Hpost]]]]]]]].
      * exists [], item, rest. rewrite Heq.
        split; [reflexivity|]. split; [reflexivity|]. split; [exact E|].
        split; [intros x [] | exact Hall].
      * exists (item :: pre), r, post. rewrite Harr.
        split; [reflexivity|]. split; [rewrite <- Harr; exact Heq|].
        split; [lra|]. split; [|exact Hpost].
        intros x [<- | Hx]; [exact Hm | apply Hpre; exact Hx].
    + apply gtb_le in E.
      destruct (IH m result)
        as [[Heq Hall] | [pre [r [post [Harr [Heq [Hm [Hpre Hpost]]]]]]]].
      * left. split; [exact Heq|].
        intros x [<- | Hx]; [exact E | apply Hall; exact Hx].
      * right. exists (item :: pre), r, post. rewrite Harr.
        split; [reflexivity|]. split; [rewrite <- Harr; exact Heq|].
        split; [exact Hm|]. split; [|exact Hpost].
        intros x [<- | Hx]; [lra | apply Hpre; exact Hx].
Qed.

End MathfLoops.

(** [Mathf.max] starts from [Number.MIN_VALUE], the smallest positive
    number: it returns the first item whose value is the largest, provided
    that value is above [Number.MIN_VALUE], and [undefined] otherwise, so
    also for a list that is not empty when no value is positive. *)
Theorem Mathf_max_spec :
  forall (TType : Type) (array : list TType) (selector : TType -> Q),
  (Mathf.max array selector = None <->
   forall x, In x array -> selector x <= Mathf.MIN_VALUE) /\
  (forall r, Mathf.max array selector = Some r ->
   Mathf.MIN_VALUE < selector r /\
   exists pre post,
     array = pre ++ r :: post /\
     (forall x, In x pre -> selector x < selector r) /\
     (forall x, In x post -> selector x <= selector r)) /\
  ((forall x, In x array -> selector x <= 0) ->
   Mathf.max array selector = None).
Proof.
  intros TType array selector. unfold Mathf.max.
  destruct (max_loop_spec selector array Mathf.MIN_VALUE None)
    as [[Heq Hall] | [pre [r [post [Harr [Heq [Hm [Hpre Hpost]]]]]]]].
  - rewrite Heq. split; [|split].
    + split; [intros _; exact Hall | reflexivity].
    + intros r Hr. discriminate.
    + reflexivity.
  - rewrite Heq. split; [|split].
    + split; [discriminate|].
      intros Hall. exfalso.
      assert (Hr : selector r <= Mathf.MIN_VALUE)
        by (apply Hall; rewrite Harr; apply in_elt).
      apply (Qlt_not_le _ _ Hm Hr).
    + intros r' Hr'. injection Hr' as <-. split; [exact Hm|].
      exists pre, post. split; [exact Harr|]. split; assumption.
    + intros Hall. exfalso.
      assert (Hr : selector r <= 0)
        by (apply Hall; rewrite Harr; apply in_elt).
      pose proof MIN_VALUE_pos. lra.
Qed.

(** [Mathf.min] starts from [Number.MAX_VALUE]: it returns the first item
    whose value is the smallest, provided that value is below
    [Number.MAX_VALUE], and [undefined] otherwise. *)
Theorem Mathf_min_spec :
  forall (TType : Type) (array : list TType) (selector : TType -> Q),
  (Mathf.min array selector = None <->
   forall x, In x array -> Mathf.MAX_VALUE <= selector x) /\
  (forall r, Mathf.min array selector = Some r ->
   selector r < Mathf.MAX_VALUE /\
   exists pre post,
     array = pre ++ r :: post /\
     (forall x, In x pre -> selector r < selector x) /\
     (forall x, In x post -> selector r <= selector x)).
Proof.
  intros TType array selector. unfold Mathf.min.
  destruct (min_loop_spec selector array Mathf.MAX_VALUE None)
    as [[Heq Hall] | [pre [r [post [Harr [Heq [Hm [Hpre Hpost]]]]]]]].
  - rewrite Heq. split.
    + split; [intros _; exact Hall | reflexivity].
    + intros r Hr. discriminate.
  - rewrite Heq. split.
    + split; [discriminate|].
      intros Hall. exfalso.
      assert (Hr : Mathf.MAX_VALUE <= selector r)
        by (apply Hall; rewrite Harr; apply in_elt).
      apply (Qlt_not_le _ _ Hm Hr).
    + intros r' Hr'. injection Hr' as <-. split; [exact Hm|].
      exists pre, post. split; [exact Harr|]. split; assumption.
Qed.

(** ** [Rate] *)

(** A rate must be positive.  Whatever the rounding of the quotient, the
    delay of a rate never throws; it is at most the interval for a rate of
    1 or more and at least the interval for a rate of 1 or less; and a
    higher rate never gives a longer delay.  The delay is a rounded
    quotient: [rate] delays need not make up the interval. *)
Theorem Rate_delay_spec :
  forall (round : Q -> Q) (rate : Q) (interval : TimeSpan),
  monotone round ->
  representable round 0 ->
  representable round (TimeSpan.ms interval) ->
  (rate <= 0 ->
   Rate.new rate interval = Throw "Rate must be a positive number") /\
  (0 < rate ->
   exists r d,
     Rate.new rate interval = Ok r /\
     Rate.rate r = rate /\ Rate.interval r = interval /\
     Rate.delay round r = Ok d /\
     (1 <= rate -> TimeSpan.ms d <= TimeSpan.ms interval) /\
     (rate <= 1 -> TimeSpan.ms interval <= TimeSpan.ms d) /\
     (forall rate', rate <= rate' ->
      exists r' d',
        Rate.new rate' interval = Ok r' /\
        Rate.delay round r' = Ok d' /\
        TimeSpan.ms d' <= TimeSpan.ms d)).
Proof.
  intros round rate interval Hm H0 Hi. unfold representable in H0, Hi.
  pose proof (TimeSpan.ms_nonneg interval) as Hnn.
  assert (Hquot : forall q, 0 < q ->
            0 <= TimeSpan.ms interval / q /\
            TimeSpan.ms interval / q * q == TimeSpan.ms interval).
  { intros q Hq. split.
    - apply Qle_shift_div_l; [exact Hq | lra].
    - field. intros Hz. rewrite Hz in Hq. apply (Qlt_irrefl _ Hq). }
  assert (Hdelay : forall q, 0 < q ->
            exists r d,
              Rate.new q interval = Ok r /\
              Rate.rate r = q /\ Rate.interval r = interval /\
              Rate.delay round r = Ok d /\
              TimeSpan.ms d = round (TimeSpan.ms interval / q)).
  { intros q Hq. unfold Rate.new.
    destruct (Qlt_le_dec 0 q) as [H | H];
      [|exfalso; apply (Qlt_not_le _ _ Hq H)].
    destruct (TimeSpan_new_ok (round (TimeSpan.ms interval / q)))
      as [d [Hd Hms]].
    { apply Qle_trans with (round 0); [rewrite H0; apply Qle_refl|].
      apply Hm. apply (Hquot q Hq). }
    eexists. exists d. split; [reflexivity|].
    split; [reflexivity|]. split; [reflexivity|].
    split; [exact Hd | exact Hms]. }
  split.
  - intros Hle. unfold Rate.new.
    destruct (Qlt_le_dec 0 rate) as [H | H]; [|reflexivity].
    exfalso. apply (Qlt_not_le _ _ H Hle).
  - intros Hpos.
    destruct (Hdelay rate Hpos) as [r [d [Hr [Hrate [Hint [Hd Hms]]]]]].
    destruct (Hquot rate Hpos) as [Hq0 Hq].
    exists r, d. split; [exact Hr|]. split; [exact Hrate|].
    split; [exact Hint|]. split; [exact Hd|].
    split; [|split].
    + intros H1. rewrite Hms.
      apply Qle_trans with (round (TimeSpan.ms interval));
        [apply Hm; nra | rewrite Hi; apply Qle_refl].
    + intros H1. rewrite Hms.
      apply Qle_trans with (round (TimeSpan.ms interval));
        [rewrite Hi; apply Qle_refl | apply Hm; nra].
    + intros rate' Hle.
      assert (Hpos' : 0 < rate') by lra.
      destruct (Hdelay rate' Hpos') as [r' [d' [Hr' [_ [_ [Hd' Hms']]]]]].
      destruct (Hquot rate' Hpos') as [Hq0' Hq'].
      exists r', d'. split; [exact Hr'|]. split; [exact Hd'|].
      rewrite Hms, Hms'. apply Hm. nra.
Qed.

Lemma Rate_delay_spec_witness :
  exists r d,
    Rate.new 3 (TimeSpan.lit 1000 eq_refl) = Ok r /\
    Rate.delay roundDown r = Ok d /\
    TimeSpan.ms d <= 1000.
Proof.
  destruct (Rate_delay_spec roundDown 3 (TimeSpan.lit 1000 eq_refl)
              roundDown_monotone) as [_ Hpos].
  - unfold representable. vm_compute. reflexivity.
  - unfold representable. vm_compute. reflexivity.
  - destruct Hpos as [r [d [Hr [_ [_ [Hd [Hle _]]]]]]];
      [reflexivity|].
    exists r, d. split; [exact Hr|]. split; [exact Hd|].
    apply Hle. apply Qle_bool_iff. reflexivity.
Defined.

(** ** [ExponentialBackoff.execute]: what an outcome tells *)

Section ExecuteOutcome.

Import ExponentialBackoff.

Context {TResult Thrown : Type}.
Variable options : ExponentialBackoffOptions.
Variable operation : Operation TResult Thrown.
Variable random : nat -> Q.

(** From call [k] on: the calls made are numbered in a row.  A resolved
    promise carries the result of the last call made and every call
    before it threw; a rejected promise comes after calls that all threw
    and carries what the last of them threw, or the [lastError] the loop
    started with when no call was made. *)
Lemma loop_outcome (fuel : nat) :
  forall (k : nat) (lastError : option Thrown) (d : TimeSpan),
  let run := loop options operation random fuel k lastError d in
  match fst run with
  | Resolved r =>
    exists m, attempts (snd run) = seq k (S m) /\
              operation (k + m)%nat = inr r /\
              forall i, (k <= i < k + m)%nat -> exists e, operation i = inl e
  | Rejected e =>
    exists n, attempts (snd run) = seq k n /\
              (forall i, (k <= i < k + n)%nat ->
                         exists x, operation i = inl x) /\
              match n with
              | O => e = lastError /\ snd run = []
              | S m => exists x, e = Some x /\ operation (k + m)%nat = inl x
              end
  | _ => True
  end.
Proof.
  induction fuel as [|fuel IH]; intros k lastError d; cbv zeta;
    cbn [loop fst snd].
  - exact I.
  - destruct (TimeSpan.leb d (maxDelay options)); cbn [fst snd].
    2:{ exists 0%nat. split; [reflexivity|].
        split; [intros i Hi; lia | split; reflexivity]. }
    unfold attempt. destruct (operation k) as [error | r] eqn:Ek.
    + destruct (getUpdatedDelay options (random k) d) as [d' | m];
        cbn [fst]; [|exact I].
      specialize (IH (S k) (Some error) d'). cbv zeta in IH.
      destruct (loop options operation random fuel (S k) (Some error) d')
        as [s es].
      cbn [fst snd] in *.
      cbn [attempts flat_map app]. fold (attempts es).
      destruct s as [r | e | m | ]; try exact I.
      * destruct IH as [m [Hat [Hm Hbefore]]].
        exists (S m). split; [cbn [seq]; f_equal; exact Hat|].
        split; [rewrite <- Hm; f_equal; lia|].
        intros i Hi. destruct (Nat.eq_dec i k) as [-> | Hne].
        -- exists error. exact Ek.
        -- apply Hbefore. lia.
      * destruct IH as [n [Hat [Hall Hlast]]].
        exists (S n). split; [cbn [seq]; f_equal; exact Hat|].
        split.
        -- intros i Hi. destruct (Nat.eq_dec i k) as [-> | Hne].
           ++ exists error. exact Ek.
           ++ apply Hall. lia.
        -- destruct n as [|m].
           ++ destruct Hlast as [He _]. exists error.
              rewrite Nat.add_0_r. split; [exact He | exact Ek].
           ++ destruct Hlast as [x [He Hx]]. exists x.
              split; [exact He|]. rewrite <- Hx. f_equal. lia.
    + cbn [fst snd attempts flat_map app]. exists 0%nat.
      rewrite Nat.add_0_r.
      split; [reflexivity|]. split; [exact Ek|]. intros i Hi. lia.
Qed.

(** The effects from call [k] on: the calls are numbered in a row, no
    sleep is longer than [maxDelay], the first sleep is the delay the loop
    started with, and there is one sleep between two calls. *)
Lemma loop_effects (fuel : nat) :
  forall (k : nat) (lastError : option Thrown) (d : TimeSpan),
  let es := snd (loop options operation random fuel k lastError d) in
  attempts es = seq k (List.length (attempts es)) /\
  Forall (fun s => TimeSpan.ms s <= TimeSpan.ms (maxDelay options))
         (sleeps es) /\
  (sleeps es = [] \/ exists rest, sleeps es = d :: rest) /\
  (List.length (sleeps es) <= List.length (attempts es)
   <= S (List.length (sleeps es)))%nat.
Proof.
  induction fuel as [|fuel IH]; intros k lastError d; cbn [loop snd].
  - cbn. repeat split; try constructor; auto.
  - destruct (TimeSpan.leb d (maxDelay options)) eqn:Eleb; cbn [snd];
      [|cbn; repeat split; try constructor; auto].
    apply TimeSpan_leb_le in Eleb.
    destruct (attempt operation k) as [error | r].
    + destruct (getUpdatedDelay options (random k) d) as [d' | m].
      * specialize (IH (S k) (Some error) d').
        destruct (loop options operation random fuel (S k) (Some error) d')
          as [s es].
        cbn [snd] in *. cbv zeta in IH.
        destruct IH as [Hat [Hsl [_ Hlen]]].
        cbn [attempts sleeps flat_map app List.length].
        fold (attempts es). fold (sleeps es).
        split; [cbn [seq]; f_equal; exact Hat|].
        split; [constructor; assumption|].
        split; [right; eexists; reflexivity | lia].
      * cbn. split; [reflexivity|]. split; [constructor; [exact Eleb|constructor]|].
        split; [right; eexists; reflexivity | lia].
    + cbn. split; [reflexivity|]. split; [constructor|].
      split; [left; reflexivity | lia].
Qed.

End ExecuteOutcome.

(** The calls of one [execute] are numbered in a row from the first, and
    the promise tells how they went.  When it resolves, the value is the
    result of the last call made and every call before it threw.  When it
    rejects, every call made threw, and the reason is what the last call
    made threw, whatever that value is; when no call was made the reason
    is the [null] that [lastError] starts with, and [initialDelay] is
    above [maxDelay]. *)
Theorem execute_outcome_sound :
  forall (TResult Thrown : Type)
         (options : ExponentialBackoff.ExponentialBackoffOptions)
         (operation : ExponentialBackoff.Operation TResult Thrown)
         (random : nat -> Q) (fuel : nat) (null : Thrown),
  let run := ExponentialBackoff.execute options operation random fuel in
  let calls := ExponentialBackoff.attempts (snd run) in
  match fst run with
  | ExponentialBackoff.Resolved r =>
    exists m, calls = seq 0 (S m) /\ operation m = inr r /\
              forall i, (i < m)%nat -> exists e, operation i = inl e
  | ExponentialBackoff.Rejected e =>
    exists n, calls = seq 0 n /\
              (forall i, (i < n)%nat -> exists x, operation i = inl x) /\
              match n with
              | O =>
                e = None /\
                ExponentialBackoff.reason null e = null /\
                TimeSpan.ms (ExponentialBackoff.maxDelay options)
                < TimeSpan.ms (ExponentialBackoff.initialDelay options)
              | S m => operation m = inl (ExponentialBackoff.reason null e)
              end
  | _ => True
  end.
Proof.
  intros TResult Thrown options operation random fuel null. cbv zeta.
  unfold ExponentialBackoff.execute.
  pose proof (loop_outcome options operation random fuel 0 None
                (ExponentialBackoff.initialDelay options)) as H.
  cbv zeta in H.
  destruct (fst (ExponentialBackoff.loop options operation random fuel 0
                   None (ExponentialBackoff.initialDelay options)))
    as [r | e | m | ] eqn:Efst; try exact I.
  - destruct H as [m [Hat [Hm Hall]]]. exists m.
    split; [exact Hat|]. split; [exact Hm|].
    intros i Hi. apply Hall. lia.
  - destruct H as [n [Hat [Hall Hlast]]]. exists n.
    split; [exact Hat|]. split; [intros i Hi; apply Hall; lia|].
    destruct n as [|m].
    + destruct Hlast as [He Hnil]. subst e.
      split; [reflexivity|]. split; [reflexivity|].
      destruct fuel as [|fuel]; [discriminate|].
      cbn [ExponentialBackoff.loop] in Efst.
      destruct (TimeSpan.leb (ExponentialBackoff.initialDelay options)
                  (ExponentialBackoff.maxDelay options)) eqn:Eleb.
      * exfalso. cbn [ExponentialBackoff.loop] in Hnil. rewrite Eleb in Hnil.
        destruct (ExponentialBackoff.attempt operation 0).
        -- destruct (ExponentialBackoff.getUpdatedDelay _ _ _);
             [|discriminate].
           destruct (ExponentialBackoff.loop _ _ _ _ _ _ _); discriminate.
        -- discriminate.
      * apply TimeSpan_leb_gt. exact Eleb.
    + destruct Hlast as [x [He Hx]]. subst e. exact Hx.
Qed.

(** Whatever the operation does, the calls of one [execute] are numbered
    in a row from the first, no single sleep is longer than [maxDelay],
    the first sleep is [initialDelay], and the sleeps are as many as the
    calls or one fewer. *)
Theorem execute_effects_shape :
  forall (TResult Thrown : Type)
         (options : ExponentialBackoff.ExponentialBackoffOptions)
         (operation : ExponentialBackoff.Operation TResult Thrown)
         (random : nat -> Q) (fuel : nat),
  let es := snd (ExponentialBackoff.execute options operation random fuel) in
  ExponentialBackoff.attempts es
  = seq 0 (List.length (ExponentialBackoff.attempts es)) /\
  Forall (fun s => TimeSpan.ms s
                   <= TimeSpan.ms (ExponentialBackoff.maxDelay options))
         (ExponentialBackoff.sleeps es) /\
  (ExponentialBackoff.sleeps es = [] \/
   exists rest,
     ExponentialBackoff.sleeps es
     = ExponentialBackoff.initialDelay options :: rest) /\
  (List.length (ExponentialBackoff.sleeps es)
   <= List.length (ExponentialBackoff.attempts es)
   <= S (List.length (ExponentialBackoff.sleeps es)))%nat.
Proof.
  intros TResult Thrown options operation random fuel.
  apply (loop_effects options operation random fuel 0 None
           (ExponentialBackoff.initialDelay options)).
Qed.

(** ** [ExponentialBackoff.execute]: configurations that do not retry as
    meant *)

Lemma execute_rejects_eventually_witness :
  exists n, forall fuel, (n < fuel)%nat ->
    fst (ExponentialBackoff.execute scenario always_fails (fun _ => 0) fuel)
    = ExponentialBackoff.Rejected
        (ExponentialBackoff.lastErrorAfter (fun _ => "boom"%string) n)
    /\
    ExponentialBackoff.attempts
      (snd (ExponentialBackoff.execute scenario always_fails (fun _ => 0)
              fuel))
    = seq 0 n.
Proof.
  apply (execute_rejects_eventually scenario (fun _ => 0)).
  - reflexivity.
  - reflexivity.
  - intros i. apply Qle_refl.
  - intros i. reflexivity.
Defined.

Lemma execute_no_attempt_above_maxDelay_witness :
  ExponentialBackoff.execute
    {| ExponentialBackoff.initialDelay := TimeSpan.lit 6000 eq_refl;
       ExponentialBackoff.maxDelay := TimeSpan.lit 5000 eq_refl;
       ExponentialBackoff.factor := 2;
       ExponentialBackoff.jitter := None |}
    (succeeds_at 0) (fun _ => 0) 1
  = (ExponentialBackoff.Rejected None, []).
Proof.
  apply (execute_no_attempt_above_maxDelay nat string).
  reflexivity.
Defined.

(** A negative factor: after the first failed call and its sleep the
    update of the delay throws inside the executor, and the promise of
    [execute] is never settled, neither resolved nor rejected. *)
Theorem execute_negative_factor_never_settles :
  forall (TResult Thrown : Type)
         (options : ExponentialBackoff.ExponentialBackoffOptions)
         (operation : ExponentialBackoff.Operation TResult Thrown)
         (random : nat -> Q) (error : Thrown) (fuel : nat),
  ExponentialBackoff.factor options < 0 ->
  ExponentialBackoff.jitter options = None ->
  0 < TimeSpan.ms (ExponentialBackoff.initialDelay options) ->
  TimeSpan.ms (ExponentialBackoff.initialDelay options)
  <= TimeSpan.ms (ExponentialBackoff.maxDelay options) ->
  operation 0%nat = inl error ->
  ExponentialBackoff.execute options operation random (S fuel)
  = (ExponentialBackoff.Pending "Milliseconds cannot be negative",
     [ExponentialBackoff.Attempt 0;
      ExponentialBackoff.Sleep (ExponentialBackoff.initialDelay options)]).
Proof.
  intros TResult Thrown options operation random error fuel
         Hf Hj Hpos Hle Hop.
  unfold ExponentialBackoff.execute. cbn [ExponentialBackoff.loop].
  rewrite (proj2 (TimeSpan_leb_le _ _) Hle).
  unfold ExponentialBackoff.attempt. rewrite Hop.
  unfold ExponentialBackoff.getUpdatedDelay, TimeSpan.fromMilliseconds,
    TimeSpan.totalMilliseconds.
  rewrite Hj. rewrite TimeSpan_new_negative; [reflexivity|].
  assert (0 < TimeSpan.ms (ExponentialBackoff.initialDelay options)
              * - ExponentialBackoff.factor options)
    by (apply Qmult_lt_0_compat; lra).
  lra.
Qed.

Lemma execute_negative_factor_never_settles_witness :
  ExponentialBackoff.execute
    {| ExponentialBackoff.initialDelay := TimeSpan.lit 1000 eq_refl;
       ExponentialBackoff.maxDelay := TimeSpan.lit 5000 eq_refl;
       ExponentialBackoff.factor := -2;
       ExponentialBackoff.jitter := None |}
    always_fails (fun _ => 0) 5
  = (ExponentialBackoff.Pending "Milliseconds cannot be negative",
     [ExponentialBackoff.Attempt 0;
      ExponentialBackoff.Sleep (TimeSpan.lit 1000 eq_refl)]).
Proof.
  apply (execute_negative_factor_never_settles nat string
           {| ExponentialBackoff.initialDelay := TimeSpan.lit 1000 eq_refl;
              ExponentialBackoff.maxDelay := TimeSpan.lit 5000 eq_refl;
              ExponentialBackoff.factor := -2;
              ExponentialBackoff.jitter := None |}
           always_fails (fun _ => 0) "boom"%string 4).
  - reflexivity.
  - reflexivity.
  - reflexivity.
  - apply Qle_bool_iff. reflexivity.
  - reflexivity.
Defined.

Section NoGrowth.

Variable options : ExponentialBackoff.ExponentialBackoffOptions.
Variable random : nat -> Q.
Hypothesis no_jitter : ExponentialBackoff.jitter options = None.
Hypothesis initial_le_max :
  TimeSpan.ms (ExponentialBackoff.initialDelay options)
  <= TimeSpan.ms (ExponentialBackoff.maxDelay options).
Hypothesis no_growth :
  0 <= ExponentialBackoff.factor options <= 1 \/
  TimeSpan.ms (ExponentialBackoff.initialDelay options) == 0.

(** Without growth every update succeeds and the delay never passes
    [maxDelay]. *)
Lemma delayAt_bounded (i : nat) :
  ExponentialBackoff.delayAt options random i
  = Ok (ExponentialBackoff.delayOf options random i) /\
  TimeSpan.ms (ExponentialBackoff.delayOf options random i)
  <= TimeSpan.ms (ExponentialBackoff.maxDelay options) /\
  (TimeSpan.ms (ExponentialBackoff.initialDelay options) == 0 ->
   TimeSpan.ms (ExponentialBackoff.delayOf options random i) == 0).
Proof.
  induction i as [|i [IHd [IHle IHz]]].
  - split; [reflexivity|]. split; [exact initial_le_max|].
    intros H. exact H.
  - set (d := ExponentialBackoff.delayOf options random i) in *.
    pose proof (TimeSpan.ms_nonneg d) as Hd.
    pose proof (TimeSpan.ms_nonneg (ExponentialBackoff.maxDelay options))
      as Hmax.
    assert (Hq : 0 <= TimeSpan.ms d * ExponentialBackoff.factor options + 0
                 /\ TimeSpan.ms d * ExponentialBackoff.factor options + 0
                    <= TimeSpan.ms (ExponentialBackoff.maxDelay options)
                 /\ (TimeSpan.ms (ExponentialBackoff.initialDelay options)
                     == 0 ->
                     TimeSpan.ms d * ExponentialBackoff.factor options + 0
                     == 0)).
    { destruct no_growth as [[Hf0 Hf1] | Hz].
      - assert (0 <= TimeSpan.ms d * ExponentialBackoff.factor options)
          by (apply Qmult_le_0_compat; assumption).
        assert (0 <= TimeSpan.ms d
                     * (1 - ExponentialBackoff.factor options))
          by (apply Qmult_le_0_compat; lra).
        split; [lra|]. split; [lra|].
        intros Hz. rewrite (IHz Hz). ring.
      - rewrite (IHz Hz). split; [lra|]. split; [lra|]. intros _. ring. }
    destruct Hq as [Hq0 [Hq1 Hq2]].
    destruct (TimeSpan_new_ok _ Hq0) as [t [Ht Hms]].
    assert (Hnext :
      ExponentialBackoff.delayAt options random (S i) = Ok t).
    { cbn [ExponentialBackoff.delayAt]. rewrite IHd.
      unfold ExponentialBackoff.getUpdatedDelay, TimeSpan.fromMilliseconds,
        TimeSpan.totalMilliseconds.
      rewrite no_jitter. exact Ht. }
    unfold ExponentialBackoff.delayOf at 1 2 3. rewrite Hnext.
    split; [reflexivity|]. rewrite Hms. split; assumption.
Qed.

(** Without a jitter, a factor between 0 and 1 or an initial delay of
    zero keeps the delay from ever passing [maxDelay]: an operation that
    always throws is then retried without end and the promise of
    [execute] is never settled.  However far the loop is unrolled, it
    has not ended and has made one call per round. *)
Lemma execute_retries_forever {TResult Thrown : Type}
    (operation : ExponentialBackoff.Operation TResult Thrown)
    (errors : nat -> Thrown) (fuel : nat) :
  (forall i, operation i = inl (errors i)) ->
  fst (ExponentialBackoff.execute options operation random fuel)
  = ExponentialBackoff.OutOfFuel /\
  ExponentialBackoff.attempts
    (snd (ExponentialBackoff.execute options operation random fuel))
  = seq 0 fuel.
Proof.
  intros Hop. unfold ExponentialBackoff.execute.
  change (ExponentialBackoff.initialDelay options)
    with (ExponentialBackoff.delayOf options random 0).
  pose proof (loop_failed_rounds options operation random errors
                (ExponentialBackoff.delayOf options random) fuel 0 0 None)
    as H.
  rewrite Nat.add_0_r in H. rewrite H.
  - cbn [ExponentialBackoff.loop fst snd].
    rewrite app_nil_r, failedRounds_attempts. split; reflexivity.
  - intros i _. apply Hop.
  - intros i _. apply delayAt_bounded.
  - intros i _. apply delayAt_bounded.
Qed.

End NoGrowth.

Lemma execute_retries_forever_witness :
  fst (ExponentialBackoff.execute noGrowthScenario always_fails
         (fun _ => 0) 7)
  = ExponentialBackoff.OutOfFuel /\
  ExponentialBackoff.attempts
    (snd (ExponentialBackoff.execute noGrowthScenario always_fails
            (fun _ => 0) 7))
  = seq 0 7.
Proof.
  apply (execute_retries_forever noGrowthScenario (fun _ => 0) eq_refl)
    with (errors := fun _ => "boom"%string).
  - apply Qle_bool_iff. reflexivity.
  - left. split; apply Qle_bool_iff; reflexivity.
  - intros i. reflexivity.
Defined.

(** ** [RestRequest] *)

(** [throwException] does not change the request: with or without it the
    promise of [get] or [post] settles as the promise of [execute] does,
    after the same calls and sleeps.  The flag only adds, when the
    retries are used up, a rejection that no caller can handle, carrying
    the same error. *)
Theorem RestRequest_throwException :
  forall (TResult Thrown : Type)
         (options : option ExponentialBackoff.ExponentialBackoffOptions)
         (operation : ExponentialBackoff.Operation TResult Thrown)
         (random : nat -> Q) (fuel : nat),
  let quiet := RestRequest.new false options in
  let loud := RestRequest.new true options in
  let run := ExponentialBackoff.execute (RestRequest.backoff quiet)
               operation random fuel in
  RestRequest.settlement (RestRequest.get loud operation random fuel)
  = fst run /\
  RestRequest.settlement (RestRequest.get quiet operation random fuel)
  = fst run /\
  RestRequest.effects (RestRequest.get loud operation random fuel)
  = snd run /\
  RestRequest.effects (RestRequest.get quiet operation random fuel)
  = snd run /\
  RestRequest.unhandled (RestRequest.get quiet operation random fuel)
  = None /\
  (forall error,
     RestRequest.unhandled (RestRequest.get loud operation random fuel)
     = Some error <->
     fst run = ExponentialBackoff.Rejected error) /\
  RestRequest.post loud operation random fuel
  = RestRequest.get loud operation random fuel /\
  RestRequest.post quiet operation random fuel
  = RestRequest.get quiet operation random fuel.
Proof.
  intros TResult Thrown options operation random fuel. cbv zeta.
  unfold RestRequest.get, RestRequest.post, RestRequest.request.
  cbn [RestRequest.new RestRequest.backoff RestRequest.throwException].
  destruct (ExponentialBackoff.execute _ operation random fuel) as [s es].
  destruct s as [r | e | m | ]; cbn;
    (repeat (split; [reflexivity|])); (split; [|split; reflexivity]);
    intros error; split; intros H; congruence.
Qed.

(** The default retry policy of [RestRequest] is 5 seconds, at most 30
    seconds, factor 2: a request that fails every time is sent three
    times, with waits of 5, 10 and 20 seconds, and then rejects with the
    error of the third try. *)
Theorem RestRequest_default_retries :
  forall (TResult Thrown : Type) (throwException : bool)
         (operation : ExponentialBackoff.Operation TResult Thrown)
         (errors : nat -> Thrown) (random : nat -> Q) (fuel : nat),
  (forall i, operation i = inl (errors i)) ->
  (3 < fuel)%nat ->
  let outcome :=
    RestRequest.get (RestRequest.new throwException None) operation random
      fuel in
  RestRequest.settlement outcome
  = ExponentialBackoff.Rejected (Some (errors 2%nat)) /\
  RestRequest.unhandled outcome
  = (if throwException then Some (Some (errors 2%nat)) else None) /\
  ExponentialBackoff.attempts (RestRequest.effects outcome) = [0; 1; 2]%nat /\
  map TimeSpan.totalMilliseconds
      (ExponentialBackoff.sleeps (RestRequest.effects outcome))
  = [5000; 10000; 20000].
Proof.
  intros TResult Thrown throwException operation errors random fuel
         Hop Hfuel. cbv zeta.
  unfold RestRequest.get, RestRequest.request, ExponentialBackoff.execute.
  cbn [RestRequest.new RestRequest.backoff RestRequest.throwException].
  set (defaults :=
    {| ExponentialBackoff.initialDelay := TimeSpan.lit 5000 eq_refl;
       ExponentialBackoff.maxDelay := TimeSpan.lit 30000 eq_refl;
       ExponentialBackoff.factor := 2;
       ExponentialBackoff.jitter := None |}).
  replace fuel with (3 + S (fuel - 4))%nat by lia.
  change (ExponentialBackoff.initialDelay defaults)
    with (ExponentialBackoff.delayOf defaults random 0).
  rewrite (loop_failed_rounds defaults operation random errors
             (ExponentialBackoff.delayOf defaults random) 3
             0 (S (fuel - 4)) None).
  - cbn [Nat.add ExponentialBackoff.loop fst snd].
    replace (TimeSpan.leb (ExponentialBackoff.delayOf defaults random 3)
               (ExponentialBackoff.maxDelay defaults)) with false
      by reflexivity.
    cbn [fst snd RestRequest.settlement RestRequest.unhandled
         RestRequest.effects].
    rewrite app_nil_r.
    rewrite failedRounds_attempts, failedRounds_sleeps.
    split; [reflexivity|]. split; [reflexivity|].
    split; reflexivity.
  - intros i _. apply Hop.
  - intros i Hi.
    assert (H : (i = 0 \/ i = 1 \/ i = 2 \/ i = 3)%nat) by lia.
    destruct H as [-> | [-> | [-> | ->]]]; reflexivity.
  - intros i Hi.
    assert (H : (i = 0 \/ i = 1 \/ i = 2)%nat) by lia.
    destruct H as [-> | [-> | ->]]; apply Qle_bool_iff; reflexivity.
Qed.

Lemma RestRequest_default_retries_witness :
  RestRequest.settlement
    (RestRequest.get (RestRequest.new true None) always_fails
       (fun _ => 0) 4)
  = ExponentialBackoff.Rejected (Some "boom"%string).
Proof.
  apply (RestRequest_default_retries nat string true always_fails
           (fun _ => "boom"%string) (fun _ => 0) 4).
  - intros i. reflexivity.
  - lia.
Defined.

(** ** [AdaptivePoller] (timeout revision): one loop, or more *)

Lemma runPoll_resume_fields (options : pollerOptions)
    (outcome : AdaptivePoller.Outcome) (now : Q) (w : AdaptivePoller.World) :
  let w' := AdaptivePoller.runPoll_resume options outcome now w in
  AdaptivePoller.polling (AdaptivePoller.self w')
  = AdaptivePoller.polling (AdaptivePoller.self w) /\
  AdaptivePoller.operation (AdaptivePoller.self w')
  = AdaptivePoller.operation (AdaptivePoller.self w) /\
  AdaptivePoller.currentTimeout (AdaptivePoller.self w')
  = Some (AdaptivePoller.nextTimeout w) /\
  AdaptivePoller.awaiting w' = pred (AdaptivePoller.awaiting w) /\
  AdaptivePoller.armed w'
  = AdaptivePoller.nextTimeout w :: AdaptivePoller.armed w /\
  AdaptivePoller.nextTimeout w' = S (AdaptivePoller.nextTimeout w).
Proof.
  cbv zeta.
  destruct (runPoll_resume_unfold options outcome now w)
    as [Hself [_ [Haw [Harm Hnext]]]].
  rewrite Hself, Haw, Harm, Hnext.
  cbn [AdaptivePoller.polling AdaptivePoller.operation
       AdaptivePoller.currentTimeout AdaptivePoller.set_currentTimeout].
  destruct outcome as [error|]; cbn [AdaptivePoller.afterOperation fst].
  - destruct (onFailure_frame options error now (AdaptivePoller.self w))
      as [Hp [Ho _]].
    repeat split; assumption.
  - destruct (onSuccess_frame options now (AdaptivePoller.self w))
      as [Hp [Ho _]].
    repeat split; assumption.
Qed.

Section OneActivation.

Variable options : pollerOptions.

Lemma turn_oneActivation (t : AdaptivePoller.Turn)
    (w w' : AdaptivePoller.World) :
  oneActivation w ->
  isCallStop t = false ->
  AdaptivePoller.turn options t w = Some w' ->
  oneActivation w'.
Proof.
  unfold oneActivation. intros Hw Hns Hturn.
  destruct t as [f error fail | | outcome now | id];
    cbn [AdaptivePoller.turn isCallStop] in Hturn, Hns.
  - injection Hturn as <-. unfold AdaptivePoller.start.
    destruct (AdaptivePoller.polling (AdaptivePoller.self w)) eqn:Hp.
    + rewrite Hp. exact Hw.
    + destruct Hw as [Haw Harm]. cbn. split; [discriminate|].
      left. split; [rewrite Haw; reflexivity | exact Harm].
  - discriminate.
  - destruct (AdaptivePoller.awaiting w) as [|a] eqn:Haw; [discriminate|].
    injection Hturn as <-.
    destruct (runPoll_resume_fields options outcome now w)
      as [Hp [Ho [Hct [Haw' [Harm Hnext]]]]].
    rewrite Hp, Ho, Hct, Haw', Harm, Haw.
    destruct (AdaptivePoller.polling (AdaptivePoller.self w)).
    + destruct Hw as [Hop [[Ha Hr] | [Ha _]]]; [|discriminate].
      injection Ha as ->. split; [exact Hop|]. right.
      split; [reflexivity|]. eexists. rewrite Hr. split; reflexivity.
    + destruct Hw as [Ha _]. discriminate.
  - destruct (existsb (Nat.eqb id) (AdaptivePoller.armed w)) eqn:Hex;
      [|discriminate].
    injection Hturn as <-. unfold AdaptivePoller.runPoll.
    cbn [AdaptivePoller.self AdaptivePoller.awaiting AdaptivePoller.armed
         AdaptivePoller.nextTimeout AdaptivePoller.effects].
    destruct (AdaptivePoller.polling (AdaptivePoller.self w)) eqn:Hp.
    + destruct Hw as [Hop [[_ Hr] | [Ha [id' [Hr Hct]]]]].
      * rewrite Hr in Hex. discriminate.
      * rewrite Hr in Hex. cbn in Hex. rewrite orb_false_r in Hex.
        rewrite Hr. cbn [filter]. rewrite Nat.eqb_sym, Hex. cbn [negb].
        destruct (AdaptivePoller.operation (AdaptivePoller.self w))
          as [o|] eqn:Eo; [|congruence].
        cbn [AdaptivePoller.self AdaptivePoller.awaiting
             AdaptivePoller.armed].
        rewrite Hp, Eo. split; [discriminate|].
        left. split; [rewrite Ha; reflexivity | reflexivity].
    + destruct Hw as [_ Hr]. rewrite Hr in Hex. discriminate.
Qed.

Lemma run_oneActivation (ts : list AdaptivePoller.Turn) :
  forall w w',
  oneActivation w ->
  forallb (fun t => negb (isCallStop t)) ts = true ->
  AdaptivePoller.run options ts w = Some w' ->
  oneActivation w'.
Proof.
  induction ts as [|t ts IH]; intros w w' Hw Hns Hrun; cbn in Hrun, Hns.
  - injection Hrun as <-. exact Hw.
  - apply andb_true_iff in Hns. destruct Hns as [Hn Hns].
    apply negb_true_iff in Hn.
    destruct (AdaptivePoller.turn options t w) as [w1|] eqn:Ht;
      [|discriminate].
    apply (IH w1 w' (turn_oneActivation t w w1 Hw Hn Ht) Hns Hrun).
Qed.

End OneActivation.

(** As long as [stop] is not called, the poller runs one loop at most:
    whatever the order of calls of [start], settlements and timeouts, at
    most one call of the operation is in flight or one timeout is armed,
    never both, and none when the poller is not polling. *)
Theorem poller_one_loop_without_stop :
  forall (options : pollerOptions) (ts : list AdaptivePoller.Turn)
         (w : AdaptivePoller.World),
  forallb (fun t => negb (isCallStop t)) ts = true ->
  AdaptivePoller.run options ts (AdaptivePoller.initial options) = Some w ->
  (AdaptivePoller.awaiting w + List.length (AdaptivePoller.armed w) <= 1)%nat
  /\
  (AdaptivePoller.polling (AdaptivePoller.self w) = false ->
   AdaptivePoller.awaiting w = 0%nat /\ AdaptivePoller.armed w = []) /\
  (AdaptivePoller.polling (AdaptivePoller.self w) = true ->
   (AdaptivePoller.awaiting w + List.length (AdaptivePoller.armed w)
    = 1)%nat).
Proof.
  intros options ts w Hns Hrun.
  assert (H : oneActivation w).
  { apply (run_oneActivation options ts (AdaptivePoller.initial options) w);
      [|assumption..].
    unfold oneActivation. cbn. split; reflexivity. }
  unfold oneActivation in H.
  destruct (AdaptivePoller.polling (AdaptivePoller.self w)).
  - destruct H as [_ [[Ha Hr] | [Ha [id [Hr _]]]]]; rewrite Ha, Hr; cbn;
      (split; [lia|]); (split; [discriminate | reflexivity]).
  - destruct H as [Ha Hr]. rewrite Ha, Hr. cbn.
    split; [lia|]. split; [intros _; split; reflexivity | discriminate].
Qed.

Lemma poller_one_loop_without_stop_witness :
  exists w,
    AdaptivePoller.run defaultOptions
      (AdaptivePoller.CallStart 1 None None
       :: AdaptivePoller.CallStart 2 None None
       :: AdaptivePoller.failures (fun _ => ThrownValue "503")
            (fun _ => 1700000000000) 0 0 3)
      (AdaptivePoller.initial defaultOptions) = Some w /\
    (AdaptivePoller.awaiting w + List.length (AdaptivePoller.armed w)
     <= 1)%nat.
Proof.
  eexists. split; [vm_compute; reflexivity|].
  apply (poller_one_loop_without_stop defaultOptions
           (AdaptivePoller.CallStart 1 None None
            :: AdaptivePoller.CallStart 2 None None
            :: AdaptivePoller.failures (fun _ => ThrownValue "503")
                 (fun _ => 1700000000000) 0 0 3)).
  - reflexivity.
  - vm_compute. reflexivity.
Defined.

(** [stop()] between two cycles, when no call of the operation is in
    flight, leaves nothing behind: the timeout is cleared, no call is
    awaited, and neither a settlement nor a timeout can reach the object
    until [start] is called again. *)
Theorem poller_stop_between_cycles :
  forall (options : pollerOptions) (ts : list AdaptivePoller.Turn)
         (w : AdaptivePoller.World),
  forallb (fun t => negb (isCallStop t)) ts = true ->
  AdaptivePoller.run options ts (AdaptivePoller.initial options) = Some w ->
  AdaptivePoller.awaiting w = 0%nat ->
  let stopped := AdaptivePoller.stop options w in
  AdaptivePoller.awaiting stopped = 0%nat /\
  AdaptivePoller.armed stopped = [] /\
  (forall outcome now,
     AdaptivePoller.turn options (AdaptivePoller.Settles outcome now) stopped
     = None) /\
  (forall id,
     AdaptivePoller.turn options (AdaptivePoller.Fires id) stopped = None).
Proof.
  intros options ts w Hns Hrun Haw. cbv zeta.
  assert (H : oneActivation w).
  { apply (run_oneActivation options ts (AdaptivePoller.initial options) w);
      [|assumption..].
    unfold oneActivation. cbn. split; reflexivity. }
  assert (Harm : AdaptivePoller.armed (AdaptivePoller.stop options w) = []).
  { unfold oneActivation in H. unfold AdaptivePoller.stop.
    cbn [AdaptivePoller.armed AdaptivePoller.currentTimeout
         AdaptivePoller.set_polling].
    destruct (AdaptivePoller.polling (AdaptivePoller.self w)).
    - destruct H as [_ [[Ha _] | [_ [id [Hr Hct]]]]]; [congruence|].
      rewrite Hct, Hr. cbn. rewrite Nat.eqb_refl. reflexivity.
    - destruct H as [_ Hr]. rewrite Hr.
      destruct (AdaptivePoller.currentTimeout (AdaptivePoller.self w));
        reflexivity. }
  assert (Haw' : AdaptivePoller.awaiting (AdaptivePoller.stop options w)
                 = 0%nat) by exact Haw.
  split; [exact Haw'|]. split; [exact Harm|]. split.
  - intros outcome now. cbn [AdaptivePoller.turn]. rewrite Haw'.
    reflexivity.
  - intros id. cbn [AdaptivePoller.turn]. rewrite Harm. reflexivity.
Qed.

Lemma poller_stop_between_cycles_witness :
  exists w,
    AdaptivePoller.run defaultOptions
      [AdaptivePoller.CallStart 1 None None;
       AdaptivePoller.Settles None 1700000000000]
      (AdaptivePoller.initial defaultOptions) = Some w /\
    AdaptivePoller.armed w = [0%nat] /\
    AdaptivePoller.armed (AdaptivePoller.stop defaultOptions w) = [].
Proof.
  eexists. split; [vm_compute; reflexivity|]. split; [reflexivity|].
  apply (poller_stop_between_cycles defaultOptions
           [AdaptivePoller.CallStart 1 None None;
            AdaptivePoller.Settles None 1700000000000]).
  - reflexivity.
  - vm_compute. reflexivity.
  - reflexivity.
Defined.

Section TimeoutTurns.

Import AdaptivePoller.

Variable options : pollerOptions.

(** A settlement, when a call is in flight. *)
Lemma settles_fields (outcome : Outcome) (now : Q) (w : World) :
  awaiting w <> 0%nat ->
  exists w',
    turn options (Settles outcome now) w = Some w' /\
    self w' = set_currentTimeout (nextTimeout w)
                (fst (afterOperation options outcome now (self w))) /\
    polling (self w') = polling (self w) /\
    operation (self w') = operation (self w) /\
    awaiting w' = pred (awaiting w) /\
    armed w' = nextTimeout w :: armed w /\
    nextTimeout w' = S (nextTimeout w) /\
    filter isCallOperation (effects w') = filter isCallOperation (effects w).
Proof.
  intros Haw. cbn [turn].
  destruct (awaiting w) as [|a] eqn:Ea; [congruence|].
  eexists. split; [reflexivity|].
  destruct (runPoll_resume_fields options outcome now w)
    as [Hp [Ho [_ [Haw' [Harm Hnext]]]]].
  destruct (runPoll_resume_unfold options outcome now w)
    as [Hself [Heff _]].
  rewrite Ea in Haw'.
  split; [exact Hself|]. split; [exact Hp|]. split; [exact Ho|].
  split; [exact Haw'|]. split; [exact Harm|]. split; [exact Hnext|].
  rewrite Heff, !filter_app.
  rewrite (proj2 (afterOperation_frame options outcome now (self w))).
  rewrite (proj1 (uncaught_no_operation outcome)).
  cbn [filter isCallOperation]. rewrite !app_nil_r. reflexivity.
Qed.

(** A timeout that fires while the poller is polling calls the
    operation. *)
Lemma fires_fields (id : Timeout) (f : OperationRef) (w : World) :
  existsb (Nat.eqb id) (armed w) = true ->
  polling (self w) = true ->
  operation (self w) = Some f ->
  exists w',
    turn options (Fires id) w = Some w' /\
    self w' = self w /\
    awaiting w' = S (awaiting w) /\
    armed w' = filter (fun t => negb (Nat.eqb t id)) (armed w) /\
    nextTimeout w' = nextTimeout w /\
    effects w' = effects w ++ [CallOperation f].
Proof.
  intros Hex Hp Ho. cbn [turn]. rewrite Hex. unfold runPoll.
  cbn [self awaiting armed nextTimeout effects]. rewrite Hp, Ho.
  cbn [negb]. eexists. split; [reflexivity|].
  cbn [self awaiting armed nextTimeout effects].
  repeat split.
Qed.

(** [stop()] followed by [start(f)]. *)
Lemma restart_fields (f : OperationRef) (error fail : option CallbackRef)
    (w : World) :
  let w' := start options f error fail (stop options w) in
  polling (self w') = true /\
  operation (self w') = Some f /\
  awaiting w' = S (awaiting w) /\
  (armed w = [] -> armed w' = []) /\
  nextTimeout w' = nextTimeout w /\
  filter isCallOperation (effects w')
  = filter isCallOperation (effects w) ++ [CallOperation f].
Proof.
  cbv zeta. unfold start, stop, runPoll.
  cbn [self polling set_polling with_self set_functions set_currentDelay
       operation awaiting armed nextTimeout effects emit negb
       currentTimeout].
  split; [reflexivity|]. split; [reflexivity|]. split; [reflexivity|].
  split.
  - intros Harm. rewrite Harm.
    destruct (currentTimeout (self w)); reflexivity.
  - split; [reflexivity|].
    rewrite !filter_app. cbn [filter isCallOperation].
    rewrite !logOptional_no_operation by reflexivity.
    rewrite !app_nil_r. reflexivity.
Qed.

End TimeoutTurns.

(** Restarting while a call of the operation is in flight leaves two
    loops running: [stop()] does not cancel the call, [start] makes a
    second one, each of the two then sets its own timeout, and each
    timeout calls the operation again, so that two calls are in flight
    where there was one. *)
Theorem poller_restart_in_flight_stacks_loops :
  forall (options : pollerOptions) (f : OperationRef)
         (error fail : option CallbackRef)
         (o1 o2 : AdaptivePoller.Outcome) (n1 n2 : Q)
         (w : AdaptivePoller.World),
  AdaptivePoller.awaiting w = 1%nat ->
  AdaptivePoller.armed w = [] ->
  exists w1 w2,
    AdaptivePoller.run options
      [AdaptivePoller.CallStop; AdaptivePoller.CallStart f error fail;
       AdaptivePoller.Settles o1 n1; AdaptivePoller.Settles o2 n2] w
    = Some w1 /\
    AdaptivePoller.awaiting w1 = 0%nat /\
    AdaptivePoller.armed w1
    = [S (AdaptivePoller.nextTimeout w); AdaptivePoller.nextTimeout w] /\
    AdaptivePoller.run options
      [AdaptivePoller.Fires (AdaptivePoller.nextTimeout w);
       AdaptivePoller.Fires (S (AdaptivePoller.nextTimeout w))] w1
    = Some w2 /\
    AdaptivePoller.polling (AdaptivePoller.self w2) = true /\
    AdaptivePoller.awaiting w2 = 2%nat /\
    filter isCallOperation (AdaptivePoller.effects w2)
    = filter isCallOperation (AdaptivePoller.effects w)
      ++ [CallOperation f; CallOperation f; CallOperation f].
Proof.
  intros options f error fail o1 o2 n1 n2 w Haw Harm.
  destruct (restart_fields options f error fail w)
    as [Hp0 [Ho0 [Ha0 [Hr0 [Hn0 He0]]]]].
  specialize (Hr0 Harm). rewrite Haw in Ha0.
  set (wr := AdaptivePoller.start options f error fail
               (AdaptivePoller.stop options w)) in *.
  destruct (settles_fields options o1 n1 wr)
    as [wa [Hta [_ [Hpa [Hoa [Haa [Hra [Hna Hea]]]]]]]];
    [rewrite Ha0; discriminate|].
  rewrite Ha0 in Haa. rewrite Hr0, Hn0 in Hra. rewrite Hn0 in Hna.
  destruct (settles_fields options o2 n2 wa)
    as [wb [Htb [_ [Hpb [Hob [Hab [Hrb [Hnb Heb]]]]]]]];
    [rewrite Haa; discriminate|].
  rewrite Haa in Hab. rewrite Hra, Hna in Hrb. rewrite Hna in Hnb.
  set (n := AdaptivePoller.nextTimeout w) in *.
  assert (Hne : Nat.eqb n (S n) = false) by (apply Nat.eqb_neq; lia).
  assert (Hne' : Nat.eqb (S n) n = false) by (apply Nat.eqb_neq; lia).
  destruct (fires_fields options n f wb)
    as [wc [Htc [Hsc [Hac [Hrc [Hnc Hec]]]]]].
  { rewrite Hrb. cbn [existsb]. rewrite Nat.eqb_refl, Hne. reflexivity. }
  { congruence. }
  { congruence. }
  rewrite Hrb in Hrc. cbn [filter] in Hrc.
  rewrite Nat.eqb_refl, Hne' in Hrc. cbn [negb] in Hrc.
  destruct (fires_fields options (S n) f wc)
    as [wd [Htd [Hsd [Had [Hrd [Hnd Hed]]]]]].
  { rewrite Hrc. cbn [existsb]. rewrite Nat.eqb_refl. reflexivity. }
  { congruence. }
  { congruence. }
  exists wb, wd.
  split.
  { cbn [AdaptivePoller.run AdaptivePoller.turn]. fold wr.
    cbn [AdaptivePoller.turn] in Hta, Htb. rewrite Hta, Htb. reflexivity. }
  split; [exact Hab|]. split; [exact Hrb|].
  split.
  { cbn [AdaptivePoller.run]. rewrite Htc, Htd. reflexivity. }
  split; [congruence|]. split; [rewrite Had, Hac, Hab; reflexivity|].
  rewrite Hed, Hec, !filter_app, Heb, Hea, He0.
  cbn [filter isCallOperation]. rewrite <- !app_assoc. reflexivity.
Qed.

Lemma poller_restart_in_flight_stacks_loops_witness :
  exists w1 w2,
    AdaptivePoller.run defaultOptions
      [AdaptivePoller.CallStop; AdaptivePoller.CallStart 1 None None;
       AdaptivePoller.Settles None 1700000000000;
       AdaptivePoller.Settles None 1700000000001] started
    = Some w1 /\
    AdaptivePoller.awaiting w1 = 0%nat /\
    AdaptivePoller.armed w1 = [1; 0]%nat /\
    AdaptivePoller.run defaultOptions
      [AdaptivePoller.Fires 0; AdaptivePoller.Fires 1] w1
    = Some w2 /\
    AdaptivePoller.polling (AdaptivePoller.self w2) = true /\
    AdaptivePoller.awaiting w2 = 2%nat /\
    filter isCallOperation (AdaptivePoller.effects w2)
    = filter isCallOperation (AdaptivePoller.effects started)
      ++ [CallOperation 1; CallOperation 1; CallOperation 1].
Proof.
  apply (poller_restart_in_flight_stacks_loops defaultOptions 1 None None
           None None 1700000000000 1700000000001 started);
    reflexivity.
Defined.

(** ** [AdaptivePoller] (timeout revision): successes in a row *)






(** ** The two tests that changed between the revisions *)

(** The earlier revision tests [currentDelay > maxDelay] where the
    timeout revision tests [>=].  After a failure both leave the same
    delay, and they call the same callback unless the thrown value has a
    [resultError] and the product is exactly [maxDelay]: there the earlier
    revision still reports an error while the timeout revision reports a
    failure.  When [JSON.stringify] throws on the thrown value, both keep
    the product and call nothing; the timeout revision, whose
    [scheduleNextPoll] is in [finally], still sets the next timeout, while
    the earlier revision sets none, so that its loop ends. *)
Theorem poller_revisions_differ_at_maxDelay :
  forall (options : pollerOptions) (error : Thrown) (now : Q)
         (w : AdaptivePoller.World),
  let self := AdaptivePoller.self w in
  let product := AdaptivePoller.currentDelay self * factor options in
  let earlier := LegacyPoller.onFailure options error now self in
  let later := AdaptivePoller.onFailure options error now self in
  AdaptivePoller.currentDelay (fst earlier)
  == AdaptivePoller.currentDelay (fst later) /\
  (~ product == TimeSpan.ms (maxDelay options) -> earlier = later) /\
  (forall e, resultError error = Ok e ->
   product == TimeSpan.ms (maxDelay options) ->
   snd earlier
   = callOptional CallOnError (AdaptivePoller.onError self) e /\
   snd later
   = callOptional CallOnFail (AdaptivePoller.onFail self) e) /\
  (forall m, resultError error = Throw m ->
   earlier = later /\
   snd later = [] /\
   AdaptivePoller.currentDelay (fst later) = product /\
   AdaptivePoller.armed
     (LegacyPoller.runPoll_resume options (Some error) now w)
   = AdaptivePoller.armed w /\
   AdaptivePoller.armed
     (AdaptivePoller.runPoll_resume options (Some error) now w)
   = AdaptivePoller.nextTimeout w :: AdaptivePoller.armed w).
Proof.
  intros options error now w. cbv zeta.
  pose proof (runPoll_resume_unfold options (Some error) now w)
    as [_ [_ [_ [Harmed _]]]].
  unfold LegacyPoller.runPoll_resume.
  unfold LegacyPoller.onFailure, AdaptivePoller.onFailure,
    TimeSpan.totalMilliseconds.
  cbn [AdaptivePoller.currentDelay AdaptivePoller.set_currentDelay
       AdaptivePoller.set_lastErrorTime AdaptivePoller.onFail
       AdaptivePoller.onError].
  destruct (resultError error) as [e | m].
  - assert (Hlast : forall P : Prop,
              (forall m : string, @Ok JsError e = Throw m -> P))
      by (intros P m Hm; discriminate Hm).
    destruct (Mathf.gtb
                (AdaptivePoller.currentDelay (AdaptivePoller.self w)
                 * factor options)
                (TimeSpan.ms (maxDelay options))) eqn:Egt;
      destruct (Qle_bool (TimeSpan.ms (maxDelay options))
                  (AdaptivePoller.currentDelay (AdaptivePoller.self w)
                   * factor options)) eqn:Ele;
      cbn [fst snd AdaptivePoller.currentDelay
           AdaptivePoller.set_currentDelay].
    + split; [reflexivity|]. split; [reflexivity|].
      split; [|apply Hlast].
      intros e' _ Heq. apply gtb_lt in Egt. rewrite Heq in Egt.
      exfalso. apply (Qlt_irrefl _ Egt).
    + apply gtb_lt in Egt. apply Qle_bool_false in Ele.
      exfalso. apply (Qlt_irrefl _ (Qlt_trans _ _ _ Egt Ele)).
    + apply gtb_le in Egt. apply Qle_bool_iff in Ele.
      assert (Heq : AdaptivePoller.currentDelay (AdaptivePoller.self w)
                    * factor options
                    == TimeSpan.ms (maxDelay options))
        by (apply Qle_antisym; assumption).
      split; [exact Heq|]. split; [intros Hne; contradiction|].
      split; [|apply Hlast].
      intros e' He' _. injection He' as <-. split; reflexivity.
    + split; [reflexivity|]. split; [reflexivity|].
      split; [|apply Hlast].
      intros e' _ Heq. apply Qle_bool_false in Ele. rewrite Heq in Ele.
      exfalso. apply (Qlt_irrefl _ Ele).
  - cbn [fst snd AdaptivePoller.currentDelay
         AdaptivePoller.set_currentDelay].
    split; [reflexivity|]. split; [reflexivity|].
    split; [intros e He; discriminate He|].
    intros m' _.
    split; [reflexivity|]. split; [reflexivity|]. split; [reflexivity|].
    split; [reflexivity | exact Harmed].
Qed.

(** The earlier revision tests [lastErrorTime === null] where the timeout
    revision tests [!this.lastErrorTime]: after a success both leave the
    same object unless the last failure was recorded at time 0 less than
    [resetPeriod] ago, which the timeout revision takes for no failure. *)
Theorem poller_revisions_differ_at_time_zero :
  forall (options : pollerOptions) (now : Q) (self : AdaptivePoller.Poller),
  ((forall last, AdaptivePoller.lastErrorTime self = Some last ->
                 ~ last == 0) ->
   LegacyPoller.onSuccess options now self
   = AdaptivePoller.onSuccess options now self) /\
  (forall last,
     AdaptivePoller.lastErrorTime self = Some last -> last == 0 ->
     now < TimeSpan.ms (resetPeriod options) ->
     LegacyPoller.onSuccess options now self = self /\
     AdaptivePoller.currentDelay (AdaptivePoller.onSuccess options now self)
     = Qmax (TimeSpan.ms (initialDelay options))
            (AdaptivePoller.currentDelay self
             - TimeSpan.ms (linearStep options))).
Proof.
  intros options now self.
  unfold LegacyPoller.onSuccess, AdaptivePoller.onSuccess, falsy, Math_max,
    TimeSpan.totalMilliseconds.
  destruct (AdaptivePoller.lastErrorTime self) as [last|].
  - split.
    + intros Hnz. rewrite (Qeq_bool_false last 0 (Hnz last eq_refl)).
      reflexivity.
    + intros last' Hlast Hz Hnow. injection Hlast as <-.
      rewrite (proj2 (Qeq_bool_iff last 0) Hz). cbn [orb].
      destruct (Qle_bool (TimeSpan.ms (resetPeriod options)) (now - last))
        eqn:E.
      * apply Qle_bool_iff in E. rewrite Hz in E. exfalso. lra.
      * split; reflexivity.
  - split; [reflexivity|]. intros last Hlast. discriminate.
Qed.

(** ** [AdaptivePoller] (task revision): the loop is never entered *)

Lemma task_start_never_polls_witness :
  let options :=
    pollerScenario (TimeSpan.lit 300000 eq_refl) (TimeSpan.lit 1000 eq_refl)
      (Some 9%nat) in
  exists v,
    TaskPoller.run options
      [TaskPoller.CallStart 1 (Some 2%nat) (Some 3%nat) 1700000000000;
       TaskPoller.CallStop; TaskPoller.StopContinues 2;
       TaskPoller.CallStart 4 None None 1700000005000]
      TaskPoller.initial = Some v /\
    TaskPoller.isPolling (TaskPoller.self v) = true /\
    TaskPoller.loops v = [] /\
    filter isCallOperation (TaskPoller.effects v) = [].
Proof.
  cbv zeta. eexists. split; [vm_compute; reflexivity|].
  split; [reflexivity|].
  apply (task_start_never_polls
           (pollerScenario (TimeSpan.lit 300000 eq_refl)
              (TimeSpan.lit 1000 eq_refl) (Some 9%nat))
           [TaskPoller.CallStart 1 (Some 2%nat) (Some 3%nat) 1700000000000;
            TaskPoller.CallStop; TaskPoller.StopContinues 2;
            TaskPoller.CallStart 4 None None 1700000005000]).
  vm_compute. reflexivity.
Defined.

(** ** The service logger *)

Lemma same_spec (a b : Logger.JsString) : Logger.same a b = true <-> a = b.
Proof.
  revert b. induction a as [|x a IH]; intros [|y b]; simpl.
  - tauto.
  - split; discriminate.
  - split; discriminate.
  - rewrite andb_true_iff, N.eqb_eq, IH. split.
    + intros [-> ->]. reflexivity.
    + intros H. injection H as -> ->. split; reflexivity.
Qed.

Lemma same_refl (a : Logger.JsString) : Logger.same a a = true.
Proof. apply same_spec. reflexivity. Qed.

Lemma same_false (a b : Logger.JsString) : a <> b -> Logger.same a b = false.
Proof.
  intros H. destruct (Logger.same a b) eqn:E; [|reflexivity].
  exfalso. apply H. apply same_spec. exact E.
Qed.

(** [map.get(key)] after [map.set(key, value)]. *)
Lemma Map_get_set (key : Logger.JsString) (value : bool)
    (map : Logger.JsMap) :
  Logger.Map_get key (Logger.Map_set key value map) = Some value.
Proof.
  induction map as [|[k v] rest IH]; simpl.
  - rewrite same_refl. reflexivity.
  - destruct (Logger.same k key) eqn:E; simpl; rewrite E.
    + reflexivity.
    + exact IH.
Qed.

(** [map.get(other)] after [map.set(key, value)]. *)
Lemma Map_get_set_other (key other : Logger.JsString) (value : bool)
    (map : Logger.JsMap) :
  key <> other ->
  Logger.Map_get other (Logger.Map_set key value map)
  = Logger.Map_get other map.
Proof.
  intros Hne. induction map as [|[k v] rest IH]; simpl.
  - rewrite (same_false key other Hne). reflexivity.
  - destruct (Logger.same k key) eqn:E; simpl.
    + apply same_spec in E. subst k.
      rewrite (same_false key other Hne). reflexivity.
    + destruct (Logger.same k other); [reflexivity | exact IH].
Qed.

Lemma parseFilter_fold (s : Logger.JsString) :
  Logger.parseFilter (Some s)
  = fold_left Logger.parseFilter_entry (Logger.split s) [].
Proof. destruct s; reflexivity. Qed.

(** The callback of [forEach] sets what the entry says. *)
Lemma parseFilter_entry_spec (map : Logger.JsMap) (raw : Logger.JsString) :
  Logger.parseFilter_entry map raw
  = match Logger.entry raw with
    | Some (name, isIncluded) => Logger.Map_set name isIncluded map
    | None => map
    end.
Proof.
  unfold Logger.parseFilter_entry, Logger.entry.
  destruct (Logger.trim raw); reflexivity.
Qed.

(** Entries that do not name [name] leave its place in the map alone. *)
Lemma fold_entries_other (name : Logger.JsString)
    (raws : list Logger.JsString) :
  (forall r b, In r raws -> Logger.entry r <> Some (name, b)) ->
  forall map,
  Logger.Map_get name (fold_left Logger.parseFilter_entry raws map)
  = Logger.Map_get name map.
Proof.
  induction raws as [|r raws IH]; intros Hother map; cbn [fold_left].
  - reflexivity.
  - rewrite IH by (intros r' b Hin; apply Hother; right; exact Hin).
    rewrite parseFilter_entry_spec.
    destruct (Logger.entry r) as [[n b]|] eqn:E; [|reflexivity].
    apply Map_get_set_other. intros Heq. subst n.
    apply (Hother r b); [left; reflexivity | exact E].
Qed.

(** The last entry that names [name] decides what the map holds for it. *)
Lemma fold_entries_last (name : Logger.JsString)
    (before after : list Logger.JsString) (raw : Logger.JsString)
    (included : bool) (map : Logger.JsMap) :
  Logger.entry raw = Some (name, included) ->
  (forall r b, In r after -> Logger.entry r <> Some (name, b)) ->
  Logger.Map_get name
    (fold_left Logger.parseFilter_entry (before ++ raw :: after) map)
  = Some included.
Proof.
  intros Hraw Hafter. rewrite fold_left_app. cbn [fold_left].
  rewrite (fold_entries_other name after Hafter).
  rewrite parseFilter_entry_spec, Hraw. apply Map_get_set.
Qed.

Lemma trimStart_ws (ws s : Logger.JsString) :
  forallb Logger.isWhiteSpace ws = true ->
  Logger.trimStart (ws ++ s) = Logger.trimStart s.
Proof.
  induction ws as [|c ws IH]; simpl.
  - reflexivity.
  - intros H. apply andb_true_iff in H as [Hc Hws]. rewrite Hc.
    exact (IH Hws).
Qed.

Lemma trimStart_headOk (s : Logger.JsString) :
  Logger.headOk s = true -> Logger.trimStart s = s.
Proof.
  destruct s as [|c rest]; simpl.
  - reflexivity.
  - intros H. apply negb_true_iff in H. rewrite H. reflexivity.
Qed.

Lemma headOk_app (s t : Logger.JsString) :
  Logger.headOk s = true -> Logger.headOk (s ++ t) = true.
Proof. destruct s; [discriminate|]. intros H. exact H. Qed.

Lemma forallb_rev {A : Type} (f : A -> bool) (l : list A) :
  forallb f l = true -> forallb f (rev l) = true.
Proof.
  intros H. apply forallb_forall. intros x Hx. apply In_rev in Hx.
  exact (proj1 (forallb_forall f l) H x Hx).
Qed.

(** [trim] removes the white space around a string that has none at its
    ends. *)
Lemma trim_padded (ws1 x ws3 : Logger.JsString) :
  forallb Logger.isWhiteSpace ws1 = true ->
  forallb Logger.isWhiteSpace ws3 = true ->
  Logger.trimmed x = true ->
  Logger.trim (ws1 ++ x ++ ws3) = x.
Proof.
  intros H1 H3 Hx. apply andb_true_iff in Hx as [Hhead Hlast].
  unfold Logger.trim.
  rewrite (trimStart_ws ws1 _ H1).
  rewrite (trimStart_headOk _ (headOk_app x ws3 Hhead)).
  rewrite rev_app_distr.
  rewrite (trimStart_ws (rev ws3) _ (forallb_rev _ _ H3)).
  rewrite (trimStart_headOk _ Hlast).
  apply rev_involutive.
Qed.

Lemma trim_trimmed (x : Logger.JsString) :
  Logger.trimmed x = true -> Logger.trim x = x.
Proof.
  intros Hx. pose proof (trim_padded [] x [] eq_refl eq_refl Hx) as H.
  rewrite app_nil_r in H. exact H.
Qed.

Lemma isObservable_new (cwd : Logger.JsString)
    (options : Logger.ServiceOptions) :
  Logger.isObservable (Logger.new cwd options)
  = match Logger.Map_get
            (Logger.or_string (Logger.opt_serviceName options)
               (Logger.str "nameless-service"))
            (Logger.parseFilter (Logger.opt_globalFilter options))
    with
    | None => true
    | Some item => item
    end.
Proof. reflexivity. Qed.

(** An entry [!name], with any white space around the mark and the
    name, excludes [name]. *)
Lemma entry_excluded (ws1 ws2 ws3 name : Logger.JsString) :
  Logger.trimmed name = true ->
  forallb Logger.isWhiteSpace ws1 = true ->
  forallb Logger.isWhiteSpace ws2 = true ->
  forallb Logger.isWhiteSpace ws3 = true ->
  Logger.entry (ws1 ++ 33%N :: ws2 ++ name ++ ws3) = Some (name, false).
Proof.
  intros Hname H1 H2 H3.
  assert (Hitem : Logger.trimmed (33%N :: ws2 ++ name) = true).
  { apply andb_true_iff in Hname as [_ Hlast].
    apply andb_true_iff. split; [reflexivity|].
    simpl rev. rewrite rev_app_distr.
    apply headOk_app, headOk_app, Hlast. }
  unfold Logger.entry.
  replace (ws1 ++ 33%N :: ws2 ++ name ++ ws3)
    with (ws1 ++ (33%N :: ws2 ++ name) ++ ws3)
    by (simpl; rewrite <- app_assoc; reflexivity).
  rewrite (trim_padded ws1 _ ws3 H1 H3 Hitem).
  cbn [Logger.startsWithBang Logger.removeBang N.eqb Pos.eqb negb].
  pose proof (trim_padded ws2 name [] H2 eq_refl Hname) as Htrim.
  rewrite app_nil_r in Htrim. rewrite Htrim. reflexivity.
Qed.

(** An entry [name], with any white space around it, includes [name]. *)
Lemma entry_included (ws1 ws3 name : Logger.JsString) :
  Logger.trimmed name = true ->
  Logger.startsWithBang name = false ->
  forallb Logger.isWhiteSpace ws1 = true ->
  forallb Logger.isWhiteSpace ws3 = true ->
  Logger.entry (ws1 ++ name ++ ws3) = Some (name, true).
Proof.
  intros Hname Hbang H1 H3. unfold Logger.entry.
  rewrite (trim_padded ws1 name ws3 H1 H3 Hname).
  destruct name as [|c rest]; [discriminate Hname|].
  rewrite Hbang. cbn [negb].
  replace (Logger.removeBang (c :: rest)) with (c :: rest)
    by (simpl in Hbang |- *; rewrite Hbang; reflexivity).
  rewrite (trim_trimmed _ Hname). reflexivity.
Qed.

(** Among the entries of the global filter, split at the commas, the last
    one that names the service decides, wherever it stands: after an
    entry [!name] the methods [info] and [debug] of the service pass
    nothing to the logger, while [warning] and [error] still do; after an
    entry [name], and when no entry names the service, [info] and [debug]
    log.  An entry names the service with any white space around the
    mark and the name. *)
Theorem ServiceLogger_filter_last_entry
    (cwd name filter message : Logger.JsString) :
  name <> [] ->
  let self := Logger.new cwd (Logger.filtered name filter) in
  (forall before raw after,
     Logger.split filter = before ++ raw :: after ->
     Logger.entry raw = Some (name, false) ->
     (forall r b, In r after -> Logger.entry r <> Some (name, b)) ->
     Logger.info self message = [] /\
     Logger.debug self message = [] /\
     Logger.warning self message = [Logger.Log Logger.WARNING message] /\
     Logger.error self message
     = ([Logger.Log Logger.ERROR message], message)) /\
  (forall before raw after,
     Logger.split filter = before ++ raw :: after ->
     Logger.entry raw = Some (name, true) ->
     (forall r b, In r after -> Logger.entry r <> Some (name, b)) ->
     Logger.info self message = [Logger.Log Logger.INFO message] /\
     Logger.debug self message = [Logger.Log Logger.DEBUG message]) /\
  ((forall r b, In r (Logger.split filter) ->
                Logger.entry r <> Some (name, b)) ->
   Logger.info self message = [Logger.Log Logger.INFO message] /\
   Logger.debug self message = [Logger.Log Logger.DEBUG message]) /\
  (forall ws1 ws2 ws3,
     Logger.trimmed name = true ->
     forallb Logger.isWhiteSpace ws1 = true ->
     forallb Logger.isWhiteSpace ws2 = true ->
     forallb Logger.isWhiteSpace ws3 = true ->
     Logger.entry (ws1 ++ 33%N :: ws2 ++ name ++ ws3) = Some (name, false) /\
     (Logger.startsWithBang name = false ->
      Logger.entry (ws1 ++ name ++ ws3) = Some (name, true))).
Proof.
  intros Hname self.
  assert (Hobs : Logger.isObservable self
                 = match Logger.Map_get name
                           (fold_left Logger.parseFilter_entry
                              (Logger.split filter) [])
                   with
                   | None => true
                   | Some item => item
                   end).
  { unfold self. rewrite isObservable_new.
    cbn [Logger.filtered Logger.opt_serviceName Logger.opt_globalFilter].
    rewrite parseFilter_fold.
    destruct name; [congruence | reflexivity]. }
  split; [|split; [|split]].
  - intros before raw after Hsplit Hraw Hafter.
    unfold Logger.info, Logger.debug. rewrite Hobs, Hsplit.
    rewrite (fold_entries_last name before after raw false [] Hraw Hafter).
    repeat split; reflexivity.
  - intros before raw after Hsplit Hraw Hafter.
    unfold Logger.info, Logger.debug. rewrite Hobs, Hsplit.
    rewrite (fold_entries_last name before after raw true [] Hraw Hafter).
    split; reflexivity.
  - intros Hnone.
    unfold Logger.info, Logger.debug. rewrite Hobs.
    rewrite (fold_entries_other name (Logger.split filter) Hnone).
    split; reflexivity.
  - intros ws1 ws2 ws3 Htrimmed H1 H2 H3. split.
    + apply entry_excluded; assumption.
    + intros Hbang. apply entry_included; assumption.
Qed.

Lemma ServiceLogger_filter_last_entry_witness :
  let cwd := Logger.str "/srv" in
  let name := Logger.str "db" in
  let message := Logger.str "ready" in
  Logger.info
    (Logger.new cwd (Logger.filtered name (Logger.str "!db, api")))
    message = [] /\
  Logger.warning
    (Logger.new cwd (Logger.filtered name (Logger.str "!db, api")))
    message = [Logger.Log Logger.WARNING message] /\
  Logger.info
    (Logger.new cwd (Logger.filtered name (Logger.str "api,!db, db ,web")))
    message = [Logger.Log Logger.INFO message].
Proof.
  cbv zeta.
  assert (Hne : Logger.str "db" <> []) by discriminate.
  pose proof (ServiceLogger_filter_last_entry (Logger.str "/srv")
                (Logger.str "db") (Logger.str "!db, api")
                (Logger.str "ready") Hne) as Hex.
  pose proof (ServiceLogger_filter_last_entry (Logger.str "/srv")
                (Logger.str "db") (Logger.str "api,!db, db ,web")
                (Logger.str "ready") Hne) as Hin.
  cbv zeta in Hex, Hin.
  destruct Hex as [Hex _]. destruct Hin as [_ [Hin _]].
  destruct (Hex [] (Logger.str "!db") [Logger.str " api"] eq_refl eq_refl)
    as [Hinfo [_ [Hwarning _]]].
  { intros r b [<- | []]. destruct b; discriminate. }
  destruct (Hin [Logger.str "api"; Logger.str "!db"] (Logger.str " db ")
              [Logger.str "web"] eq_refl eq_refl) as [Hinfo' _].
  { intros r b [<- | []]. destruct b; discriminate. }
  split; [exact Hinfo|]. split; [exact Hwarning | exact Hinfo'].
Defined.

(** The level of the logger is the more severe of the global level and
    the level of the service, each [debug] when left out: it is one of the
    two, and its rank in [LogLevelMap] is the smaller one. *)
Theorem ServiceLogger_level_most_severe (cwd : Logger.JsString)
    (options : Logger.ServiceOptions) :
  let level := Logger.level (Logger.logger (Logger.new cwd options)) in
  let globalLogLevel :=
    Logger.or_level (Logger.opt_globalLogLevel options) Logger.DEBUG in
  let targetLogLevel :=
    Logger.or_level (Logger.opt_logLevel options) Logger.DEBUG in
  Logger.LogLevelMap level
  = Nat.min (Logger.LogLevelMap globalLogLevel)
            (Logger.LogLevelMap targetLogLevel) /\
  (level = globalLogLevel \/ level = targetLogLevel).
Proof.
  destruct options as [n l v p g f]. cbv zeta.
  unfold Logger.new, Logger.createWinstonLogger.
  cbn [Logger.opt_globalLogLevel Logger.opt_logLevel Logger.opt_verbose
       Logger.globalLogLevel Logger.logLevel Logger.verbose].
  destruct (Logger.or_bool v true);
    cbn [Logger.level Logger.logger];
    destruct (Logger.or_level g Logger.DEBUG),
             (Logger.or_level l Logger.DEBUG);
    split; try reflexivity; auto.
Qed.

(** Whatever the options say, [verbose: false] included, the logger is
    verbose: it writes to the console, and [addTransport] adds a file
    transport. *)
Theorem ServiceLogger_verbose_always (cwd : Logger.JsString)
    (options : Logger.ServiceOptions) (relativePath : Logger.JsString)
    (logLevel : option Logger.LogLevel) :
  let self := Logger.new cwd options in
  Logger.verbose (Logger.options self) = true /\
  In Logger.Console (Logger.transports (Logger.logger self)) /\
  Logger.transports
    (Logger.logger (Logger.addTransport self relativePath logLevel))
  = Logger.transports (Logger.logger self)
    ++ [Logger.File [Logger.logPath (Logger.options self); relativePath]
          logLevel].
Proof.
  cbv zeta.
  assert (Hverbose : Logger.verbose (Logger.options (Logger.new cwd options))
                     = true).
  { destruct options as [n l v p g f]. destruct v as [[|]|]; reflexivity. }
  split; [exact Hverbose|]. split.
  - destruct options as [n l v p g f].
    unfold Logger.new, Logger.createWinstonLogger.
    cbn [Logger.opt_verbose Logger.verbose].
    replace (Logger.or_bool v true) with true
      by (destruct v as [[|]|]; reflexivity).
    cbn [Logger.transports Logger.logger].
    apply in_or_app. right. left. reflexivity.
  - unfold Logger.addTransport. rewrite Hverbose. cbn [negb].
    cbn [Logger.transports Logger.logger].
    destruct logLevel; reflexivity.
Qed.
